(** * Qt-thesis map renderer: visible tiles, polygon fill and label placement

    A shallow embedding of the rendering code of the repository: the
    visible-tile calculator, the polygon fill and the text pipeline of
    lib/Rendering_Text.cpp, with the properties of the specification that
    concern them; and, with further properties, the tile painter of
    Rendering.cpp and the tile loading of OutputTester.cpp.

    Conventions of the embedding.
    - [double], [float] and [qreal] values are rationals ([Q]); infinities
      and NaN are not represented.  In the visible-tile calculator, where
      the result depends on the rounding, the operations on [double] are
      those of the class [DoubleArith], which the theorems leave open: they
      hold for the rounding of IEEE 754 as for exact arithmetic.  In the
      rest of the code the operations are exact.
    - [int] is [Z]; where the code computes on [int] the 32-bit wrap-around
      is written with [wrap32], and the conversion from a floating value
      to [int] truncates toward zero and wraps.
    - Functions of Qt and of libm that the code calls, and the evaluator of
      style expressions, whose definition is not among the sources, are
      fields of the classes [LibM], [QtApi] and [EvaluatorApi] (and of
      [LibMLog], [QtGeometry] and [TesterFiles] for the further code); the
      theorems hold for every implementation of them. *)

From Stdlib Require Import ZArith QArith Qround Qabs Qpower Lia Lqa Bool Ascii.
From stdpp Require Import base list strings gmap pretty.

Local Open Scope Z_scope.

(** ** Machine numbers *)

Definition wrap32 (z : Z) : Z := (z + 2 ^ 31) mod 2 ^ 32 - 2 ^ 31.

(** The value is representable as a C++ [int]. *)
Definition int_range (z : Z) : Prop := - 2 ^ 31 <= z < 2 ^ 31.

(** [(int)d]: the fractional part is discarded. *)
Definition Qtrunc (d : Q) : Z := Z.quot (Qnum d) (Zpos (Qden d)).

Definition to_int (d : Q) : Z := wrap32 (Qtrunc d).

(** [floor] and [ceil] of <cmath>: the result is again a floating value. *)
Definition floor (d : Q) : Q := inject_Z (Qfloor d).
Definition ceil (d : Q) : Q := inject_Z (Qceiling d).

Definition Qlt_bool (a b : Q) : bool := negb (Qle_bool b a).

(** [qMin] and [qMax] of QtGlobal: [(a < b) ? a : b] and [(a < b) ? b : a]. *)
Definition qMin (a b : Q) : Q := if Qlt_bool a b then a else b.
Definition qMax (a b : Q) : Q := if Qlt_bool a b then b else a.
Definition qMaxInt (a b : Z) : Z := if a <? b then b else a.

(** [std::clamp(v, lo, hi)]. *)
Definition clamp (v lo hi : Z) : Z :=
  if v <? lo then lo else if hi <? v then hi else v.

(** [qRound(double)]: halves are rounded away from zero. *)
Definition qRound (d : Q) : Z :=
  if Qle_bool 0 d then to_int (d + (1 # 2))%Q else to_int (d - (1 # 2))%Q.

(** The part of libm the renderer uses. *)
Class LibM := { pow : Q -> Q -> Q }.

(** [pow] on integral exponents, where it is exact; an exponent that is not
    integral is rounded down first.  It serves to run the code on examples
    with integral zoom levels. *)
Definition pow_integral : LibM := {| pow := fun b e => Qpower b (Qfloor e) |}.

(** The arithmetic of [double]: the sum, the difference, the product and
    the quotient of two values as the machine returns them, that is, rounded
    to a [double]. *)
Class DoubleArith := {
  dadd : Q -> Q -> Q;
  dsub : Q -> Q -> Q;
  dmul : Q -> Q -> Q;
  ddiv : Q -> Q -> Q }.

(** Arithmetic without rounding.  It is what the machine computes as long as
    every result is itself a [double], as on dyadic numbers of few bits. *)
Definition exact_arith : DoubleArith :=
  {| dadd := Qplus; dsub := Qminus; dmul := Qmult; ddiv := Qdiv |}.

(** The quotient [num / den] of two positive integers, rounded to the
    nearest integer, a tie to the even one. *)
Definition roundHalfEven (num den : Z) : Z :=
  let q := num / den in
  let r := num mod den in
  match 2 * r ?= den with
  | Lt => q
  | Gt => q + 1
  | Eq => if Z.even q then q else q + 1
  end.

(** The rational [q], rounded to the nearest integer, a tie to the even
    one. *)
Definition roundHalfEvenQ (q : Q) : Z := roundHalfEven (Qnum q) (Zpos (Qden q)).

(** [2^e] as a rational, for an exponent of either sign. *)
Definition pow2 (e : Z) : Q := Qpower 2 e.

(** The exponent of the leading bit of a positive [q]:
    [2^k <= q < 2^(k+1)]. *)
Definition exponent (q : Q) : Z :=
  let l := Z.log2 (Qnum q) - Z.log2 (Zpos (Qden q)) in
  if Qle_bool (pow2 l) q then l else l - 1.

(** The [double] that is nearest to a positive [q], a tie going to the even
    significand.  The significand has 53 bits: it is [q], scaled to lie
    between [2^52] and [2^53] and rounded to an integer. *)
Definition round_positive (q : Q) : Q :=
  let e := exponent q - 52 in
  (inject_Z (roundHalfEvenQ (q * pow2 (- e))) * pow2 e)%Q.

(** The [double] that is nearest to [q].  The range of the exponent is not
    bounded: there is no overflow to an infinity, and there are no subnormal
    numbers. *)
Definition round_binary64 (q : Q) : Q :=
  match Qnum q with
  | Z0 => 0%Q
  | Zpos _ => Qred (round_positive q)
  | Zneg _ => Qred (- round_positive (- q))
  end.

(** The arithmetic of IEEE 754 in the default rounding mode, on finite
    values: every operation returns the exact result rounded to the nearest
    [double].  A division by zero, whose result is not a number of [Q], is
    left as [Q] has it. *)
Definition binary64 : DoubleArith := {|
  dadd a b := round_binary64 (a + b);
  dsub a b := round_binary64 (a - b);
  dmul a b := round_binary64 (a * b);
  ddiv a b := round_binary64 (a / b) |}.

(** The integers [lo], [lo+1], ..., [hi] in increasing order: the values a
    loop [for (int i = lo; i <= hi; i++)] runs through. *)
Definition int_range_list (lo hi : Z) : list Z :=
  List.map (fun k => lo + Z.of_nat k) (seq 0 (Z.to_nat (hi - lo + 1))).

Definition list_sum_Z (l : list Z) : Z := fold_right Z.add 0 l.

(** ** The visible-tile calculator *)

Record TileCoord := mkTileCoord { zoom : Z; x : Z; y : Z }.

Section VisibleTiles.
Context {libm : LibM} {arith : DoubleArith}.

Definition calcViewportSizeNorm (vpZoomLevel viewportAspect : Q) : Q * Q :=
  let temp := ddiv 1 (pow 2 vpZoomLevel) in
  (dmul temp (qMin 1 (ddiv 1 viewportAspect)),
   dmul temp (qMax 1 viewportAspect)).

Definition calcVisibleTiles
    (vpX vpY vpAspect vpZoomLevel : Q) (mapZoomLevel : Z) : list TileCoord :=
  let mapZoomLevel := qMaxInt 0 mapZoomLevel in
  let '(vpWidthNorm, vpHeightNorm) := calcViewportSizeNorm vpZoomLevel vpAspect in
  let vpMinNormX := dsub vpX (ddiv vpWidthNorm 2) in
  let vpMaxNormX := dadd vpX (ddiv vpWidthNorm 2) in
  let vpMinNormY := dsub vpY (ddiv vpHeightNorm 2) in
  let vpMaxNormY := dadd vpY (ddiv vpHeightNorm 2) in
  let tileCount := wrap32 (Z.shiftl 1 mapZoomLevel) in
  let clampToGrid (i : Z) := clamp i 0 (wrap32 (tileCount - 1)) in
  let leftmostTileX := clampToGrid (to_int (floor (dmul vpMinNormX (inject_Z tileCount)))) in
  let rightmostTileX := clampToGrid (to_int (ceil (dmul vpMaxNormX (inject_Z tileCount)))) in
  let topmostTileY := clampToGrid (to_int (floor (dmul vpMinNormY (inject_Z tileCount)))) in
  let bottommostTileY := clampToGrid (to_int (ceil (dmul vpMaxNormY (inject_Z tileCount)))) in
  flat_map
    (fun y => List.map (fun x => mkTileCoord mapZoomLevel x y)
                       (int_range_list leftmostTileX rightmostTileX))
    (int_range_list topmostTileY bottommostTileY).
End VisibleTiles.

(** The viewport rectangle of the specification: half-extents
    [e_w = 2^(-zv) * min(1, 1/a) / 2] and [e_h = 2^(-zv) * max(1, a) / 2]
    around the centre, in exact arithmetic, with [2^zv] taken from [pow]. *)
Section Viewport.
Context {libm : LibM}.



End Viewport.

(** The viewport rectangle as calcVisibleTiles computes it: the halves of
    the sizes that calcViewportSizeNorm returns, and the four bounds
    [vpMinNormX], [vpMaxNormX], [vpMinNormY] and [vpMaxNormY]. *)
Section ComputedViewport.
Context {libm : LibM} {arith : DoubleArith}.

Definition halfWidthNorm (a zv : Q) : Q := ddiv (fst (calcViewportSizeNorm zv a)) 2.
Definition halfHeightNorm (a zv : Q) : Q := ddiv (snd (calcViewportSizeNorm zv a)) 2.

Definition vpMinNormX (vpX a zv : Q) : Q := dsub vpX (halfWidthNorm a zv).
Definition vpMaxNormX (vpX a zv : Q) : Q := dadd vpX (halfWidthNorm a zv).
Definition vpMinNormY (vpY a zv : Q) : Q := dsub vpY (halfHeightNorm a zv).
Definition vpMaxNormY (vpY a zv : Q) : Q := dadd vpY (halfHeightNorm a zv).


(** No conversion to [int] in [calcVisibleTiles] leaves the range of [int]. *)
Definition conversions_fit (vpX vpY a zv : Q) (zm : Z) : Prop :=
  let n := inject_Z (2 ^ zm) in
  int_range (Qfloor (dmul (vpMinNormX vpX a zv) n)) /\
  int_range (Qceiling (dmul (vpMaxNormX vpX a zv) n)) /\
  int_range (Qfloor (dmul (vpMinNormY vpY a zv) n)) /\
  int_range (Qceiling (dmul (vpMaxNormY vpY a zv) n)).

(** The products of the four bounds with the tile count [2^zm] are computed
    without rounding, as the products of a [double] with a power of two are
    unless they overflow or become subnormal. *)
Definition scaling_exact (vpX vpY a zv : Q) (zm : Z) : Prop :=
  let n := inject_Z (2 ^ zm) in
  (dmul (vpMinNormX vpX a zv) n == vpMinNormX vpX a zv * n /\
   dmul (vpMaxNormX vpX a zv) n == vpMaxNormX vpX a zv * n /\
   dmul (vpMinNormY vpY a zv) n == vpMinNormY vpY a zv * n /\
   dmul (vpMaxNormY vpY a zv) n == vpMaxNormY vpY a zv * n)%Q.

(** Rounding keeps the order: the difference with a value that is not
    negative is not above the sum with it, and the product with a factor
    that is not negative keeps the order of the other factor. *)
Definition monotone_arith : Prop :=
  (forall v e : Q, 0 <= e -> dsub v e <= dadd v e)%Q /\
  (forall v w n : Q, 0 <= n -> v <= w -> dmul v n <= dmul w n)%Q.
End ComputedViewport.

Definition in_grid (zm : Z) (t : TileCoord) : Prop :=
  zoom t = zm /\ 0 <= x t <= 2 ^ zm - 1 /\ 0 <= y t <= 2 ^ zm - 1.

(** ** Qt value types

    The geometry classes of QtCore and QtGui the renderer computes with, as
    Qt 6 defines them. *)

Record QPoint := mkQPoint { pt_x : Z; pt_y : Z }.
Record QPointF := mkQPointF { ptf_x : Q; ptf_y : Q }.
Record QSize := mkQSize { sz_width : Z; sz_height : Z }.

(** [QPointF(const QPoint &)]. *)
Definition toPointF (p : QPoint) : QPointF := mkQPointF (inject_Z (pt_x p)) (inject_Z (pt_y p)).

(** QRect stores its left, top, right and bottom pixel: a rectangle of width
    [w] at [x] has [x2 = x + w - 1]. *)
Record QRect := mkQRect { x1 : Z; y1 : Z; x2 : Z; y2 : Z }.

Module Rect.

(** [QRect(int left, int top, int width, int height)]. *)
Definition make (left top width height : Z) : QRect :=
  mkQRect left top (left + width - 1) (top + height - 1).

(** [QRect(const QPoint &topLeft, const QSize &size)]. *)
Definition ofPointSize (topLeft : QPoint) (size : QSize) : QRect :=
  make (pt_x topLeft) (pt_y topLeft) (sz_width size) (sz_height size).

Definition width (r : QRect) : Z := x2 r - x1 r + 1.
Definition height (r : QRect) : Z := y2 r - y1 r + 1.

Definition isNull (r : QRect) : bool := (x2 r =? x1 r - 1) && (y2 r =? y1 r - 1).

Definition translate (dx dy : Z) (r : QRect) : QRect :=
  mkQRect (x1 r + dx) (y1 r + dy) (x2 r + dx) (y2 r + dy).

(** The span [(l, r)] of pixels between two stored edges, the edges swapped
    when the rectangle has a negative extent (the normalisation at the head
    of [QRect::intersects] and [QRect::operator|]). *)
Definition span (a1 a2 : Z) : Z * Z :=
  if a2 <? a1 - 1 then (a2 + 1, a1 - 1) else (a1, a2).

(** [QRect::intersects]. *)
Definition intersects (a b : QRect) : bool :=
  if isNull a || isNull b then false else
  let '(l1, r1) := span (x1 a) (x2 a) in
  let '(l2, r2) := span (x1 b) (x2 b) in
  if (r2 <? l1) || (r1 <? l2) then false else
  let '(t1, b1) := span (y1 a) (y2 a) in
  let '(t2, b2) := span (y1 b) (y2 b) in
  if (b2 <? t1) || (b1 <? t2) then false else true.

(** [QRect::united], that is [operator|]. *)
Definition united (a b : QRect) : QRect :=
  if isNull a then b else if isNull b then a else
  let '(l1, r1) := span (x1 a) (x2 a) in
  let '(l2, r2) := span (x1 b) (x2 b) in
  let '(t1, b1) := span (y1 a) (y2 a) in
  let '(t2, b2) := span (y1 b) (y2 b) in
  mkQRect (Z.min l1 l2) (Z.min t1 t2) (Z.max r1 r2) (Z.max b1 b2).

(** The pixel [(px, py)] lies in the rectangle. *)
Definition covers (r : QRect) (px py : Z) : Prop :=
  x1 r <= px <= x2 r /\ y1 r <= py <= y2 r.

(** At least one pixel wide and high. *)
Definition valid (r : QRect) : Prop := x1 r <= x2 r /\ y1 r <= y2 r.

End Rect.

(** QRectF stores its corner and its size. *)
Record QRectF := mkQRectF { rf_x : Q; rf_y : Q; rf_w : Q; rf_h : Q }.

Module RectF.

(** [QRectF(const QRect &)]. *)
Definition ofRect (r : QRect) : QRectF :=
  mkQRectF (inject_Z (x1 r)) (inject_Z (y1 r))
           (inject_Z (Rect.width r)) (inject_Z (Rect.height r)).

Definition setWidth (w : Q) (r : QRectF) : QRectF := mkQRectF (rf_x r) (rf_y r) w (rf_h r).
Definition setHeight (h : Q) (r : QRectF) : QRectF := mkQRectF (rf_x r) (rf_y r) (rf_w r) h.

Definition translate (dx dy : Q) (r : QRectF) : QRectF :=
  mkQRectF (rf_x r + dx)%Q (rf_y r + dy)%Q (rf_w r) (rf_h r).

(** [QRectF::toRect]: the corner is rounded, and the size with half of the
    corner's rounding error added. *)
Definition toRect (r : QRectF) : QRect :=
  let nxp := qRound (rf_x r) in
  let nyp := qRound (rf_y r) in
  let nw := qRound (rf_w r + (rf_x r - inject_Z nxp) / 2)%Q in
  let nh := qRound (rf_h r + (rf_y r - inject_Z nyp) / 2)%Q in
  Rect.make nxp nyp nw nh.

End RectF.

(** An affine QTransform: a point [(x, y)] is mapped to
    [(m11 x + m21 y + dx, m12 x + m22 y + dy)]. *)
Record QTransform := mkQTransform {
  m11 : Q; m12 : Q; m21 : Q; m22 : Q; t_dx : Q; t_dy : Q }.

Module Transform.

(** The default-constructed transform. *)
Definition identity : QTransform := mkQTransform 1 0 0 1 0 0.

(** [QTransform::scale(sx, sy)]: the scaling is applied to a point before
    the transform it is called on. *)
Definition scale (sx sy : Q) (t : QTransform) : QTransform :=
  mkQTransform (m11 t * sx)%Q (m12 t * sx)%Q (m21 t * sy)%Q (m22 t * sy)%Q (t_dx t) (t_dy t).

(** [QTransform::map(const QPointF &)]. *)
Definition mapF (t : QTransform) (p : QPointF) : QPointF :=
  mkQPointF (m11 t * ptf_x p + m21 t * ptf_y p + t_dx t)%Q
            (m12 t * ptf_x p + m22 t * ptf_y p + t_dy t)%Q.

(** [QTransform::map(const QPoint &)]: the image is rounded to a pixel. *)
Definition map (t : QTransform) (p : QPoint) : QPoint :=
  let q := mapF t (toPointF p) in
  mkQPoint (qRound (ptf_x q)) (qRound (ptf_y q)).

End Transform.

(** A QPainterPath is its list of elements; every element carries a point. *)
Inductive ElementType := MoveToElement | LineToElement | CurveToElement | CurveToDataElement.
Record PathElement := mkElement { el_type : ElementType; el_point : QPointF }.
Definition QPainterPath := list PathElement.

Module Path.

(** [QTransform::map(const QPainterPath &)]. *)
Definition map (t : QTransform) (p : QPainterPath) : QPainterPath :=
  List.map (fun e => mkElement (el_type e) (Transform.mapF t (el_point e))) p.

(** [QPainterPath::translate(dx, dy)]. *)
Definition translate (dx dy : Q) (p : QPainterPath) : QPainterPath :=
  List.map (fun e => mkElement (el_type e)
                       (mkQPointF (ptf_x (el_point e) + dx)%Q (ptf_y (el_point e) + dy)%Q)) p.

End Path.

Definition QString := string.
Definition QChar := ascii.

Record QFont := mkQFont { family : QString; pixelSize : Z }.
Definition setPixelSize (n : Z) (f : QFont) : QFont := mkQFont (family f) n.

(** A colour and its alpha channel as [QColor::alphaF] reports it; the 16-bit
    storage of the channels is not represented. *)
Record QColor := mkQColor { red : Z; green : Z; blue : Z; alphaF : Q }.
Definition setAlphaF (a : Q) (c : QColor) : QColor := mkQColor (red c) (green c) (blue c) a.

Inductive QBrush := NoBrush | SolidBrush (c : QColor).
Inductive QPen := NoPen | SolidPen (c : QColor) (width : Z).

(** ** Strings *)

Module Str.

Definition size (s : QString) : Z := Z.of_nat (String.length s).

Definition chars (s : QString) : list QChar := String.list_ascii_of_string s.

(** [QString::split(sep)] for a separator of one character: empty parts are
    kept, and the empty string gives one empty part. *)
Fixpoint split (sep : QChar) (s : QString) : list QString :=
  match s with
  | EmptyString => [EmptyString]
  | String c rest =>
      if Ascii.eqb c sep then EmptyString :: split sep rest
      else match split sep rest with
           | w :: ws => String c w :: ws
           | [] => [String c EmptyString]
           end
  end.

(** [QString::remove(sub)] for a substring of one character. *)
Fixpoint remove (c : QChar) (s : QString) : QString :=
  match s with
  | EmptyString => EmptyString
  | String d rest => if Ascii.eqb d c then remove c rest else String d (remove c rest)
  end.

Definition toUpperChar (c : QChar) : QChar :=
  let n := nat_of_ascii c in
  if ((97 <=? n) && (n <=? 122))%nat then ascii_of_nat (n - 32) else c.

(** [QString::toUpper], on the characters of ASCII. *)
Fixpoint toUpper (s : QString) : QString :=
  match s with
  | EmptyString => EmptyString
  | String c rest => String (toUpperChar c) (toUpper rest)
  end.

End Str.

(** ** Variants, features and layer styles *)

#[warnings="-register-all"]
Inductive QJsonValue :=
| JNull
| JBool (b : bool)
| JDouble (d : Q)
| JString (s : QString)
| JArray (a : list QJsonValue).

Definition QJsonArray := list QJsonValue.

Inductive QVariant :=
| VInvalid
| VNull
| VBool (b : bool)
| VInt (n : Z)
| VDouble (d : Q)
| VString (s : QString)
| VColor (c : QColor)
| VJsonArray (a : QJsonArray).

Definition isNull (v : QVariant) : bool :=
  match v with VInvalid | VNull => true | _ => false end.

Definition isValid (v : QVariant) : bool :=
  match v with VInvalid => false | _ => true end.

(** Modelled from the spec: the feature classes are declared in VectorTiles.h,
    which is not among the sources.  Every feature carries the metadata
    mapping (string to scalar); a point feature one or more points, a line
    feature a poly-line path and a polygon feature a filled path, all in
    tile-local coordinates of extent 4096. *)
Inductive featureType := FeaturePolygon | FeatureLine | FeaturePoint | FeatureUnknown.

Record AbstractLayerFeature := mkFeature {
  feature_type : featureType;
  featureMetaData : gmap string QVariant }.

Record PointFeature := mkPointFeature {
  point_base : AbstractLayerFeature;
  points : list QPoint }.

Record LineFeature := mkLineFeature {
  line_base : AbstractLayerFeature;
  line : QPainterPath }.

Record PolygonFeature := mkPolygonFeature {
  polygon_base : AbstractLayerFeature;
  polygon : QPainterPath }.

(** Modelled from the spec: the layer styles are declared in Layerstyle.h,
    which is not among the sources.  A property is a constant or a zoom-stop
    function, or an expression that is returned verbatim for the evaluator;
    the getters are the fields below. *)
Record SymbolLayerStyle := mkSymbolLayerStyle {
  m_textField : QVariant;
  m_textFont : QFont;
  m_textHaloWidth : QVariant;
  m_textHaloColor : QVariant;
  m_textMaxWidth : QVariant;
  getTextSizeAtZoom : Z -> QVariant;
  getTextColorAtZoom : Z -> QVariant;
  getTextOpacityAtZoom : Z -> QVariant;
  getTextMaxAngleAtZoom : Z -> QVariant;
  getTextLetterSpacingAtZoom : Z -> QVariant }.

Record FillLayerStyle := mkFillLayerStyle {
  getFillColorAtZoom : Z -> QVariant;
  getFillOpacityAtZoom : Z -> QVariant;
  m_antialias : bool }.

(** What the renderer asks of Qt: font metrics, glyph outlines, the measures
    of a path, and the conversions of a QVariant. *)
Class QtApi := {
  (** [QFontMetrics(font).horizontalAdvance(const QString &)] *)
  horizontalAdvance : QFont -> QString -> Z;
  (** [QFontMetrics(font).horizontalAdvance(QChar)] *)
  horizontalAdvanceChar : QFont -> QChar -> Z;
  (** [QFontMetrics(font).height()] and [QFontMetricsF(font).height()] *)
  fontHeight : QFont -> Z;
  fontHeightF : QFont -> Q;
  (** the elements [QPainterPath::addText({}, font, text)] appends *)
  textOutline : QFont -> QString -> QPainterPath;
  boundingRect : QPainterPath -> QRectF;
  pathLength : QPainterPath -> Q;
  percentAtLength : QPainterPath -> Q -> Q;
  pointAtPercent : QPainterPath -> Q -> QPointF;
  angleAtPercent : QPainterPath -> Q -> Q;
  (** [QVariant::toString], [toInt], [value<float>] and [value<QColor>] *)
  toString : QVariant -> QString;
  toInt : QVariant -> Z;
  toFloat : QVariant -> Q;
  toColor : QVariant -> QColor }.

(** [Evaluator::resolveExpression], declared in Evaluator.h; its definition is
    not among the sources, and the renderer is stated for every evaluator. *)
Class EvaluatorApi := {
  resolveExpression : QJsonArray -> AbstractLayerFeature -> Z -> Q -> QVariant }.

(** ** The painter *)

Record DrawCall := mkDrawCall {
  draw_path : QPainterPath;
  draw_brush : QBrush;
  draw_pen : QPen;
  draw_antialiasing : bool }.

(** The state of a QPainter that the renderer sets, and the paths drawn so
    far, each with the brush and pen it was drawn with. *)
Record QPainter := mkQPainter {
  painter_font : QFont;
  painter_brush : QBrush;
  painter_pen : QPen;
  painter_opacity : Q;
  painter_antialiasing : bool;
  painter_drawn : list DrawCall }.

Module Painter.

Definition setBrush (b : QBrush) (p : QPainter) : QPainter :=
  mkQPainter (painter_font p) b (painter_pen p) (painter_opacity p)
             (painter_antialiasing p) (painter_drawn p).

Definition setPen (n : QPen) (p : QPainter) : QPainter :=
  mkQPainter (painter_font p) (painter_brush p) n (painter_opacity p)
             (painter_antialiasing p) (painter_drawn p).

Definition setOpacity (o : Q) (p : QPainter) : QPainter :=
  mkQPainter (painter_font p) (painter_brush p) (painter_pen p) o
             (painter_antialiasing p) (painter_drawn p).

(** [setRenderHints(QPainter::Antialiasing, on)]. *)
Definition setAntialiasing (on : bool) (p : QPainter) : QPainter :=
  mkQPainter (painter_font p) (painter_brush p) (painter_pen p) (painter_opacity p)
             on (painter_drawn p).

Definition drawPath (path : QPainterPath) (p : QPainter) : QPainter :=
  mkQPainter (painter_font p) (painter_brush p) (painter_pen p) (painter_opacity p)
             (painter_antialiasing p)
             (painter_drawn p ++
              [mkDrawCall path (painter_brush p) (painter_pen p) (painter_antialiasing p)]).

End Painter.

(** ** The polygon fill *)

Record PaintingDetailsPolygon := mkPaintingDetailsPolygon {
  polygon_layerStyle : FillLayerStyle;
  polygon_feature : PolygonFeature;
  polygon_mapZoom : Z;
  polygon_vpZoom : Q;
  polygon_transformIn : QTransform }.

Section Resolve.
Context {ev : EvaluatorApi}.

(** A style property that may be an expression: [QJsonArray] values are
    resolved by the evaluator, the others are used as they are. *)
Definition resolved (v : QVariant) (feature : AbstractLayerFeature)
    (mapZoom : Z) (vpZoom : Q) : QVariant :=
  match v with
  | VJsonArray a => resolveExpression a feature mapZoom vpZoom
  | _ => v
  end.

End Resolve.

Section Polygon.
Context {qt : QtApi} {ev : EvaluatorApi}.

Definition getFillColor (layerStyle : FillLayerStyle) (feature : AbstractLayerFeature)
    (mapZoom : Z) (vpZoom : Q) : QColor :=
  let colorVariant := getFillColorAtZoom layerStyle mapZoom in
  let color :=
    match colorVariant with
    | VJsonArray a => toColor (resolveExpression a feature mapZoom vpZoom)
    | _ => toColor colorVariant
    end in
  let fillOpacityVariant := getFillOpacityAtZoom layerStyle mapZoom in
  let fillOpacity :=
    match fillOpacityVariant with
    | VJsonArray a => toFloat (resolveExpression a feature mapZoom vpZoom)
    | _ => toFloat fillOpacityVariant
    end in
  setAlphaF (fillOpacity * alphaF color)%Q color.

(** The painter of [details] is passed and returned. *)
Definition paintSingleTileFeature_Polygon (details : PaintingDetailsPolygon)
    (painter : QPainter) : QPainter :=
  let layerStyle := polygon_layerStyle details in
  let feature := polygon_feature details in
  let brushColor :=
    getFillColor layerStyle (polygon_base feature)
                 (polygon_mapZoom details) (polygon_vpZoom details) in
  let painter := Painter.setBrush (SolidBrush brushColor) painter in
  let painter := Painter.setAntialiasing (m_antialias layerStyle) painter in
  let painter := Painter.setPen NoPen painter in
  let path := polygon feature in
  let transform := polygon_transformIn details in
  let transform := Transform.scale (1 / 4096) (1 / 4096) transform in
  let newPath := Path.map transform path in
  Painter.drawPath newPath painter.

End Polygon.

(** ** The text pipeline: lib/Rendering_Text.cpp *)

(** Modelled from the spec: the structs of the viewport-global render lists
    are declared in Rendering.h, which is not among the sources.  The fields
    are those of the brace initialisers in Rendering_Text.cpp, in their
    order. *)
Record vpGlobalText := mkVpGlobalText {
  text_tileOrigin : QPoint;
  text_paths : list QPainterPath;
  text_texts : list QString;
  text_positions : list QPoint;
  text_font : QFont;
  text_color : QColor;
  text_outlineSize : Z;
  text_outlineColor : QColor;
  text_boundingRect : QRect }.

Record singleCurvedTextCharacter := mkCurvedCharacter {
  character : QChar;
  position : QPointF;
  angle : Q }.

Record vpGlobalCurvedText := mkVpGlobalCurvedText {
  curved_textList : list singleCurvedTextCharacter;
  curved_font : QFont;
  curved_textColor : QColor;
  curved_opacity : Q;
  curved_tileOrigin : QPoint;
  curved_outlineColor : QColor;
  curved_outlineSize : Z }.

Record PaintingDetailsPoint := mkPaintingDetailsPoint {
  point_layerStyle : SymbolLayerStyle;
  point_feature : PointFeature;
  point_mapZoom : Z;
  point_vpZoom : Q }.

Record PaintingDetailsPointCurved := mkPaintingDetailsPointCurved {
  curved_layerStyle : SymbolLayerStyle;
  curved_feature : LineFeature;
  curved_mapZoom : Z;
  curved_vpZoom : Q;
  curved_transformIn : QTransform }.

Section Text.
Context {qt : QtApi} {ev : EvaluatorApi}.

Definition getTextColor (layerStyle : SymbolLayerStyle) (feature : AbstractLayerFeature)
    (mapZoom : Z) (vpZoom : Q) : QColor :=
  toColor (resolved (getTextColorAtZoom layerStyle mapZoom) feature mapZoom vpZoom).

Definition getTextSize (layerStyle : SymbolLayerStyle) (feature : AbstractLayerFeature)
    (mapZoom : Z) (vpZoom : Q) : Z :=
  toInt (resolved (getTextSizeAtZoom layerStyle mapZoom) feature mapZoom vpZoom).

Definition getTextOpacity (layerStyle : SymbolLayerStyle) (feature : AbstractLayerFeature)
    (mapZoom : Z) (vpZoom : Q) : Q :=
  toFloat (resolved (getTextOpacityAtZoom layerStyle mapZoom) feature mapZoom vpZoom).

Definition getTextContent (layerStyle : SymbolLayerStyle) (feature : AbstractLayerFeature)
    (mapZoom : Z) (vpZoom : Q) : QString :=
  let textVariant := m_textField layerStyle in
  if isNull textVariant || negb (isValid textVariant) then ""
  else match textVariant with
       | VJsonArray a => toString (resolveExpression a feature mapZoom vpZoom)
       | _ =>
           let textFieldKey := toString textVariant in
           let textFieldKey := Str.remove "{"%char textFieldKey in
           let textFieldKey := Str.remove "}"%char textFieldKey in
           match featureMetaData feature !! textFieldKey with
           | None => ""
           | Some v => toString v
           end
       end.

Definition getTextMaxAngle (layerStyle : SymbolLayerStyle) (feature : AbstractLayerFeature)
    (mapZoom : Z) (vpZoom : Q) : Z :=
  toInt (resolved (getTextMaxAngleAtZoom layerStyle mapZoom) feature mapZoom vpZoom).

Definition getTextLetterSpacing (layerStyle : SymbolLayerStyle)
    (feature : AbstractLayerFeature) (mapZoom : Z) (vpZoom : Q) (fontSize : Z) : Q :=
  let spacing :=
    resolved (getTextLetterSpacingAtZoom layerStyle mapZoom) feature mapZoom vpZoom in
  (toFloat spacing * inject_Z fontSize)%Q.

Fixpoint isOverlapping (textRect : QRect) (rectList : list QRect) : bool :=
  match rectList with
  | [] => false
  | rect :: rest =>
      if Rect.intersects rect textRect then true else isOverlapping textRect rest
  end.

(** The loop of getCorrectedText over the words after the first. *)
Fixpoint wrapWords (font : QFont) (rectWidthInPix : Z) (words : list QString)
    (currentCluster : QString) (wordClusters : list QString) : list QString :=
  match words with
  | [] => wordClusters ++ [currentCluster]
  | word :: rest =>
      if rectWidthInPix <? horizontalAdvance font (currentCluster +:+ " " +:+ word)
      then wrapWords font rectWidthInPix rest word (wordClusters ++ [currentCluster])
      else wrapWords font rectWidthInPix rest (currentCluster +:+ " " +:+ word) wordClusters
  end.

Definition getCorrectedText (text : QString) (font : QFont) (rectWidth : Z) : list QString :=
  let rectWidthInPix := wrap32 (pixelSize font * rectWidth) in
  if horizontalAdvance font text <=? rectWidthInPix then [text]
  else match Str.split " "%char text with
       | [] => []
       | first :: words => wrapWords font rectWidthInPix words first []
       end.

(** The local [boundingRect] of processSimpleText and of the loop of
    processCompositeText before it is moved: the rounded bounding rectangle
    of the glyph outline, widened by the outline on each side. *)
Definition outlinedBoundingRect (text : QString) (outlineSize : Z) (textFont : QFont) : QRectF :=
  let textPath := textOutline textFont text in
  let boundingRect := RectF.ofRect (RectF.toRect (boundingRect textPath)) in
  let boundingRect :=
    RectF.setWidth (rf_w boundingRect + inject_Z (wrap32 (2 * outlineSize)))%Q boundingRect in
  RectF.setHeight (rf_h boundingRect + inject_Z (wrap32 (2 * outlineSize)))%Q boundingRect.

(** The local [globalRect] of processSimpleText. *)
Definition simpleGlobalRect (text : QString) (coordinate : QPoint) (outlineSize : Z)
    (textFont : QFont) (tileOriginX tileOriginY : Z) : QRect :=
  let boundingRect := outlinedBoundingRect text outlineSize textFont in
  Rect.ofPointSize
    (mkQPoint
       (to_int (inject_Z (wrap32 (tileOriginX + pt_x coordinate)) - rf_w boundingRect / 2)%Q)
       (to_int (inject_Z (wrap32 (tileOriginY + pt_y coordinate)) - rf_h boundingRect / 2)%Q))
    (mkQSize (to_int (rf_w boundingRect)) (to_int (rf_h boundingRect))).

Definition processSimpleText (text : QString) (coordinate : QPoint) (outlineSize : Z)
    (outlineColor : QColor) (textFont : QFont) (rects : list QRect)
    (feature : PointFeature) (layerStyle : SymbolLayerStyle) (mapZoom : Z) (vpZoom : Q)
    (tileOriginX tileOriginY : Z) (vpTextList : list vpGlobalText)
    : list QRect * list vpGlobalText :=
  let textPath := textOutline textFont text in
  let boundingRect := outlinedBoundingRect text outlineSize textFont in
  let textCenteringOffsetX := (- rf_w boundingRect / 2)%Q in
  let textCenteringOffsetY := (rf_h boundingRect / 2)%Q in
  let textPath := Path.translate textCenteringOffsetX textCenteringOffsetY textPath in
  let textPath :=
    Path.translate (inject_Z (pt_x coordinate)) (inject_Z (pt_y coordinate)) textPath in
  let boundingRect := RectF.translate textCenteringOffsetX textCenteringOffsetY boundingRect in
  let boundingRect :=
    RectF.translate (inject_Z (pt_x coordinate)) (inject_Z (pt_y coordinate)) boundingRect in
  let globalRect :=
    simpleGlobalRect text coordinate outlineSize textFont tileOriginX tileOriginY in
  if isOverlapping globalRect rects then (rects, vpTextList)
  else
    (rects ++ [globalRect],
     vpTextList ++
       [mkVpGlobalText
          (mkQPoint tileOriginX tileOriginY)
          [textPath]
          [text]
          [mkQPoint (to_int (inject_Z (pt_x coordinate) + textCenteringOffsetX)%Q)
                    (to_int (inject_Z (pt_y coordinate) + textCenteringOffsetY)%Q)]
          textFont
          (getTextColor layerStyle (point_base feature) mapZoom vpZoom)
          outlineSize
          outlineColor
          (RectF.toRect boundingRect)]).

(** The first loop of processCompositeText: line [i] of [size] lines is
    centred on the anchor and moved down by [(i - size / 2) * height]. *)
Fixpoint compositeLines (textFont : QFont) (outlineSize : Z) (coordinates : QPoint)
    (size : Z) (height : Q) (i : Z) (texts : list QString)
    (paths : list QPainterPath) (points : list QPoint)
    : list QPainterPath * list QPoint :=
  match texts with
  | [] => (paths, points)
  | text :: rest =>
      let temp := textOutline textFont text in
      let boundingRect := outlinedBoundingRect text outlineSize textFont in
      let textCenteringOffsetX := (- rf_w boundingRect / 2)%Q in
      let textCenteringOffsetY := (rf_h boundingRect / 2)%Q in
      let lineOffsetY :=
        (textCenteringOffsetY + (inject_Z i - inject_Z size / 2) * height)%Q in
      let temp := Path.translate textCenteringOffsetX lineOffsetY temp in
      let temp :=
        Path.translate (inject_Z (pt_x coordinates)) (inject_Z (pt_y coordinates)) temp in
      compositeLines textFont outlineSize coordinates size height (i + 1) rest
        (paths ++ [temp])
        (points ++
           [mkQPoint (to_int (inject_Z (pt_x coordinates) + textCenteringOffsetX)%Q)
                     (to_int (inject_Z (pt_y coordinates) + lineOffsetY)%Q)])
  end.

(** The local [boundingRect] of processCompositeText after the second loop:
    the union of the rounded bounding rectangles of the lines. *)
Definition unitedBoundingRect (first : QPainterPath) (others : list QPainterPath) : QRect :=
  fold_left (fun acc path => Rect.united acc (RectF.toRect (boundingRect path)))
            others (RectF.toRect (boundingRect first)).

(** The local [globalRect] of processCompositeText. *)
Definition compositeGlobalRect (boundingRect : QRect) (coordinates : QPoint)
    (tileOriginX tileOriginY : Z) : QRect :=
  Rect.ofPointSize
    (mkQPoint
       (wrap32 (tileOriginX + pt_x coordinates - Z.quot (Rect.width boundingRect) 2))
       (wrap32 (tileOriginY + pt_y coordinates - Z.quot (Rect.height boundingRect) 2)))
    (mkQSize (Rect.width boundingRect) (Rect.height boundingRect)).

(** The result is [None] when [texts] is empty: [paths.at(0)] is then out of
    range. *)
Definition processCompositeText (texts : list QString) (coordinates : QPoint)
    (outlineSize : Z) (outlineColor : QColor) (textFont : QFont) (rects : list QRect)
    (feature : PointFeature) (layerStyle : SymbolLayerStyle) (mapZoom : Z) (vpZoom : Q)
    (tileOriginX tileOriginY : Z) (vpTextList : list vpGlobalText)
    : option (list QRect * list vpGlobalText) :=
  let height := fontHeightF textFont in
  let '(paths, points) :=
    compositeLines textFont outlineSize coordinates (Z.of_nat (length texts)) height
                   0 texts [] [] in
  match paths with
  | [] => None
  | first :: others =>
      let boundingRect := unitedBoundingRect first others in
      let globalRect := compositeGlobalRect boundingRect coordinates tileOriginX tileOriginY in
      if isOverlapping globalRect rects then Some (rects, vpTextList)
      else
        Some (rects ++ [globalRect],
              vpTextList ++
                [mkVpGlobalText
                   (mkQPoint tileOriginX tileOriginY)
                   paths
                   texts
                   points
                   textFont
                   (getTextColor layerStyle (point_base feature) mapZoom vpZoom)
                   outlineSize
                   outlineColor
                   boundingRect])
  end.

(** The local [transform] of processSingleTileFeature_Point. *)
Definition tileTransform (tileSize : Z) : QTransform :=
  let transform := Transform.identity in
  let transform := Transform.scale (1 / 4096) (1 / 4096) transform in
  Transform.scale (inject_Z tileSize) (inject_Z tileSize) transform.

(** processSingleTileFeature_Point from the point where the anchor
    [coordinates] is chosen: the anchor is mapped into the tile, a label
    outside of the tile is left out, and the text is laid out on one or on
    several lines. *)
Definition placePointLabel (coordinates : QPoint) (correctedText : list QString)
    (outlineSize : Z) (outlineColor : QColor) (textFont : QFont)
    (details : PaintingDetailsPoint) (tileSize tileOriginX tileOriginY : Z)
    (rects : list QRect) (vpTextList : list vpGlobalText)
    : option (list QRect * list vpGlobalText) :=
  let newCoordinates := Transform.map (tileTransform tileSize) coordinates in
  if (pt_x newCoordinates <? 0) || (tileSize <? pt_x newCoordinates) ||
     (pt_y newCoordinates <? 0) || (tileSize <? pt_y newCoordinates)
  then Some (rects, vpTextList)
  else
    match correctedText with
    | [text] =>
        Some (processSimpleText text newCoordinates outlineSize outlineColor textFont rects
                (point_feature details) (point_layerStyle details)
                (point_mapZoom details) (point_vpZoom details)
                tileOriginX tileOriginY vpTextList)
    | _ =>
        processCompositeText correctedText newCoordinates outlineSize outlineColor textFont
          rects (point_feature details) (point_layerStyle details)
          (point_mapZoom details) (point_vpZoom details)
          tileOriginX tileOriginY vpTextList
    end.

(** The local [coordinates] of processSingleTileFeature_Point: the point at
    index 1 when the feature has more than one point, else the point at
    index 0; [None] when that index is out of range. *)
Definition pointAnchor (points : list QPoint) : option QPoint :=
  if 1 <? Z.of_nat (length points) then nth_error points 1 else nth_error points 0.

(** The painter of [details] is passed and returned together with the two
    lists.  The result is [None] when the feature has no point:
    [points().at(0)] is then out of range. *)
Definition processSingleTileFeature_Point (details : PaintingDetailsPoint)
    (tileSize tileOriginX tileOriginY : Z) (forceNoChangeFontType : bool)
    (painter : QPainter) (rects : list QRect) (vpTextList : list vpGlobalText)
    : option (QPainter * (list QRect * list vpGlobalText)) :=
  let layerStyle := point_layerStyle details in
  let feature := point_feature details in
  let textToDraw :=
    getTextContent layerStyle (point_base feature)
                   (point_mapZoom details) (point_vpZoom details) in
  if String.eqb textToDraw "" then Some (painter, (rects, vpTextList))
  else
    let textFont :=
      if forceNoChangeFontType then painter_font painter else m_textFont layerStyle in
    let textSize :=
      getTextSize layerStyle (point_base feature)
                  (point_mapZoom details) (point_vpZoom details) in
    let textFont := setPixelSize textSize textFont in
    let painter := Painter.setBrush NoBrush painter in
    let painter :=
      Painter.setOpacity
        (getTextOpacity layerStyle (point_base feature)
                        (point_mapZoom details) (point_vpZoom details)) painter in
    let outlineSize := toInt (m_textHaloWidth layerStyle) in
    let outlineColor := toColor (m_textHaloColor layerStyle) in
    let painter := Painter.setAntialiasing true painter in
    let correctedText :=
      getCorrectedText textToDraw textFont (toInt (m_textMaxWidth layerStyle)) in
    match pointAnchor (points feature) with
    | None => None
    | Some coordinates =>
        match placePointLabel coordinates correctedText outlineSize outlineColor textFont
                details tileSize tileOriginX tileOriginY rects vpTextList with
        | None => None
        | Some lists => Some (painter, lists)
        end
    end.

Definition isTextFlipped (angle : Q) : bool :=
  Qlt_bool angle 270 && Qlt_bool 90 angle.

Definition calctotalTextHorizontalAdvance (font : QFont) (text : QString)
    (letterSpacing : Z) : Z :=
  let splitText := Str.split " "%char text in
  let totalHorizontalAdvance :=
    fold_left
      (fun total word =>
         wrap32 (total + (horizontalAdvance font word + letterSpacing * Str.size word)))
      splitText 0 in
  wrap32 (totalHorizontalAdvance +
          (Z.of_nat (length splitText) - 1) * horizontalAdvance font " ").

(** The rectangle of one glyph of a curved label, [charRect]. *)
Definition charRect (font : QFont) (charPosition : QPointF) (c : QChar) : QRect :=
  Rect.make (to_int (ptf_x charPosition))
            (to_int (ptf_y charPosition - inject_Z (Z.quot (fontHeight font) 2))%Q)
            (horizontalAdvanceChar font c)
            (fontHeight font).

(** The two loops of processSingleTileFeature_Point_Curved over the
    characters, [chars] being the characters in the order the loop visits
    them (last to first when the text is flipped).  The loops differ in that
    order and in the rotation of the glyph only.  The result is [None] when
    the loop returns from the function at a change of angle above [maxAngle]. *)
Fixpoint placeGlyphs (path : QPainterPath) (font : QFont) (spacing : Q) (maxAngle : Z)
    (flipText : bool) (chars : list QChar) (length percentage preAngle : Q)
    (charsVector : list singleCurvedTextCharacter) (textRect : QRect)
    : option (list singleCurvedTextCharacter * QRect) :=
  match chars with
  | [] => Some (charsVector, textRect)
  | c :: rest =>
      let charPosition := pointAtPercent path percentage in
      let angle := angleAtPercent path percentage in
      if Qlt_bool (inject_Z maxAngle) (Qabs (angle - preAngle)) then None
      else
        let charsVector :=
          charsVector ++
            [mkCurvedCharacter c charPosition
               (if flipText then - (angle + 180) else - angle)%Q] in
        let textRect := Rect.united textRect (charRect font charPosition c) in
        let letterSpacing := if Ascii.eqb c " " then 0%Q else spacing in
        let length := (length + inject_Z (horizontalAdvanceChar font c) + letterSpacing)%Q in
        let percentage := percentAtLength path length in
        placeGlyphs path font spacing maxAngle flipText rest length percentage angle
                    charsVector textRect
  end.

Definition processSingleTileFeature_Point_Curved (details : PaintingDetailsPointCurved)
    (tileSize tileOriginX tileOriginY : Z)
    (rects : list QRect) (vpCurvedTextList : list vpGlobalCurvedText)
    : list QRect * list vpGlobalCurvedText :=
  let layerStyle := curved_layerStyle details in
  let feature := curved_feature details in
  let textToDraw :=
    Str.toUpper (getTextContent layerStyle (line_base feature)
                                (curved_mapZoom details) (curved_vpZoom details)) in
  match textToDraw with
  | EmptyString => (rects, vpCurvedTextList)
  | String firstChar _ =>
      let textSize :=
        getTextSize layerStyle (line_base feature)
                    (curved_mapZoom details) (curved_vpZoom details) in
      let textFont := m_textFont layerStyle in
      let spacing :=
        getTextLetterSpacing layerStyle (line_base feature)
                             (curved_mapZoom details) (curved_vpZoom details) textSize in
      let textFont := setPixelSize textSize textFont in
      let outlineSize := toInt (m_textHaloWidth layerStyle) in
      let outlineColor := toColor (m_textHaloColor layerStyle) in
      let transform := curved_transformIn details in
      let transform := Transform.scale (1 / 4096) (1 / 4096) transform in
      let path := Path.map transform (line feature) in
      if Qlt_bool (pathLength path)
                  (inject_Z (calctotalTextHorizontalAdvance textFont textToDraw
                                                            (to_int spacing)))
      then (rects, vpCurvedTextList)
      else
        let flipText := isTextFlipped (angleAtPercent path 0) in
        let maxAngle :=
          getTextMaxAngle layerStyle (line_base feature)
                          (curved_mapZoom details) (curved_vpZoom details) in
        let length := 0%Q in
        let percentage := percentAtLength path length in
        let preAngle := angleAtPercent path 0 in
        let textRect :=
          Rect.make (to_int (ptf_x (pointAtPercent path 0)))
                    (to_int (ptf_y (pointAtPercent path 0)
                             - inject_Z (Z.quot (fontHeight textFont) 2))%Q)
                    (horizontalAdvanceChar textFont firstChar)
                    (fontHeight textFont) in
        let chars := if flipText then rev (Str.chars textToDraw) else Str.chars textToDraw in
        match placeGlyphs path textFont spacing maxAngle flipText chars
                          length percentage preAngle [] textRect with
        | None => (rects, vpCurvedTextList)
        | Some (charsVector, textRect) =>
            let textRect := Rect.translate tileOriginX tileOriginY textRect in
            if isOverlapping textRect rects then (rects, vpCurvedTextList)
            else
              (rects ++ [textRect],
               vpCurvedTextList ++
                 [mkVpGlobalCurvedText
                    charsVector
                    textFont
                    (getTextColor layerStyle (line_base feature)
                                  (curved_mapZoom details) (curved_vpZoom details))
                    (getTextOpacity layerStyle (line_base feature)
                                    (curved_mapZoom details) (curved_vpZoom details))
                    (mkQPoint tileOriginX tileOriginY)
                    outlineColor
                    outlineSize])
        end
  end.

End Text.

(** ** Notions the properties are stated with *)

(** No rectangle of [rects] intersects [r]. *)
Definition disjointFromAll (r : QRect) (rects : list QRect) : Prop :=
  Forall (fun earlier => Rect.intersects earlier r = false) rects.

(** No rectangle of the list intersects one that was appended after it. *)
Definition noKeptOverlap (rects : list QRect) : Prop :=
  ForallOrdPairs (fun earlier later => Rect.intersects earlier later = false) rects.

(** One label went through the collision test: either both lists are as
    before, or the rectangle of the label was appended to the one and its
    render entry to the other, and the rectangle intersects none of the
    rectangles kept before. *)
Definition keptOrDropped {A : Type} (rects : list QRect) (labels : list A)
    (rects' : list QRect) (labels' : list A) : Prop :=
  (rects' = rects /\ labels' = labels) \/
  (exists r entry,
     rects' = rects ++ [r] /\ labels' = labels ++ [entry] /\ disjointFromAll r rects).

Section Locals.
Context {qt : QtApi} {ev : EvaluatorApi}.

(** The states of the rectangle list and of the two render lists that a
    collision pass runs through: it starts with empty lists and calls, tile
    by tile and feature by feature, processSingleTileFeature_Point and
    processSingleTileFeature_Point_Curved on the same lists. *)
Inductive collisionPass :
  list QRect -> list vpGlobalText -> list vpGlobalCurvedText -> Prop :=
| pass_start : collisionPass [] [] []
| pass_point details tileSize tileOriginX tileOriginY forceNoChangeFontType
      painter painter' rects rects' vpTextList vpTextList' vpCurvedTextList :
    collisionPass rects vpTextList vpCurvedTextList ->
    processSingleTileFeature_Point details tileSize tileOriginX tileOriginY
                                   forceNoChangeFontType painter rects vpTextList
      = Some (painter', (rects', vpTextList')) ->
    collisionPass rects' vpTextList' vpCurvedTextList
| pass_curved details tileSize tileOriginX tileOriginY
      rects rects' vpTextList vpCurvedTextList vpCurvedTextList' :
    collisionPass rects vpTextList vpCurvedTextList ->
    processSingleTileFeature_Point_Curved details tileSize tileOriginX tileOriginY
                                          rects vpCurvedTextList
      = (rects', vpCurvedTextList') ->
    collisionPass rects' vpTextList vpCurvedTextList'.

(** The locals [textToDraw], [textFont] and [painter] of
    processSingleTileFeature_Point once the style is read. *)
Definition pointTextToDraw (details : PaintingDetailsPoint) : QString :=
  getTextContent (point_layerStyle details) (point_base (point_feature details))
                 (point_mapZoom details) (point_vpZoom details).

Definition pointTextFont (details : PaintingDetailsPoint) (forceNoChangeFontType : bool)
    (painter : QPainter) : QFont :=
  setPixelSize
    (getTextSize (point_layerStyle details) (point_base (point_feature details))
                 (point_mapZoom details) (point_vpZoom details))
    (if forceNoChangeFontType then painter_font painter
     else m_textFont (point_layerStyle details)).

Definition pointPainter (details : PaintingDetailsPoint) (painter : QPainter) : QPainter :=
  Painter.setAntialiasing true
    (Painter.setOpacity
       (getTextOpacity (point_layerStyle details) (point_base (point_feature details))
                       (point_mapZoom details) (point_vpZoom details))
       (Painter.setBrush NoBrush painter)).

(** The locals [textToDraw], [textFont], [spacing], [path] and [maxAngle] of
    processSingleTileFeature_Point_Curved, and the characters in the order
    its loop visits them. *)
Definition curvedContent (details : PaintingDetailsPointCurved) : QString :=
  getTextContent (curved_layerStyle details) (line_base (curved_feature details))
                 (curved_mapZoom details) (curved_vpZoom details).

Definition curvedTextToDraw (details : PaintingDetailsPointCurved) : QString :=
  Str.toUpper (curvedContent details).

Definition curvedTextSize (details : PaintingDetailsPointCurved) : Z :=
  getTextSize (curved_layerStyle details) (line_base (curved_feature details))
              (curved_mapZoom details) (curved_vpZoom details).

Definition curvedTextFont (details : PaintingDetailsPointCurved) : QFont :=
  setPixelSize (curvedTextSize details) (m_textFont (curved_layerStyle details)).

Definition curvedSpacing (details : PaintingDetailsPointCurved) : Q :=
  getTextLetterSpacing (curved_layerStyle details) (line_base (curved_feature details))
                       (curved_mapZoom details) (curved_vpZoom details)
                       (curvedTextSize details).

Definition curvedPath (details : PaintingDetailsPointCurved) : QPainterPath :=
  Path.map (Transform.scale (1 / 4096) (1 / 4096) (curved_transformIn details))
           (line (curved_feature details)).


Definition curvedFlipText (details : PaintingDetailsPointCurved) : bool :=
  isTextFlipped (angleAtPercent (curvedPath details) 0).


(** The spaces and the other characters of a text, counted. *)
Definition countSpaces (s : QString) : Z :=
  Z.of_nat (count_occ ascii_dec (Str.chars s) " "%char).

Definition countLetters (s : QString) : Z := Str.size s - countSpaces s.

(** The total horizontal advance of a text: the advances of its words and
    of the spaces between them, plus the letter spacing once for every
    character that is not a space. *)
Definition totalAdvance (font : QFont) (text : QString) (letterSpacing : Z) : Z :=
  list_sum_Z (List.map (horizontalAdvance font) (Str.split " "%char text))
  + letterSpacing * countLetters text
  + countSpaces text * horizontalAdvance font " ".




End Locals.

(** ** An implementation of the interfaces for running examples

    A fixed-pitch font engine: every glyph is as wide and as high as the
    pixel size of the font, and the outline of a text is the box around it on
    the base line.  Paths are measured as poly-lines of horizontal and
    vertical segments, for which the measures are rational. *)

Module Sample.

Definition segLength (a b : QPointF) : Q :=
  (Qabs (ptf_x b - ptf_x a) + Qabs (ptf_y b - ptf_y a))%Q.

Fixpoint polyLength (from : QPointF) (pts : list QPointF) : Q :=
  match pts with
  | [] => 0
  | p :: rest => (segLength from p + polyLength p rest)%Q
  end.

(** Qt measures angles counter-clockwise, with the y axis pointing down. *)
Definition segAngle (a b : QPointF) : Q :=
  if Qlt_bool (ptf_x a) (ptf_x b) then 0
  else if Qlt_bool (ptf_x b) (ptf_x a) then 180
  else if Qlt_bool (ptf_y b) (ptf_y a) then 90
  else 270.

(** The point and the direction [remaining] units along the poly-line. *)
Fixpoint walk (from : QPointF) (pts : list QPointF) (remaining : Q) : QPointF * Q :=
  match pts with
  | [] => (from, 0%Q)
  | p :: rest =>
      let l := segLength from p in
      match rest with
      | _ :: _ =>
          if Qle_bool remaining l
          then (mkQPointF (Qred (ptf_x from + (ptf_x p - ptf_x from) * (remaining / l)))
                          (Qred (ptf_y from + (ptf_y p - ptf_y from) * (remaining / l))),
                segAngle from p)
          else walk p rest (remaining - l)%Q
      | [] =>
          (mkQPointF (Qred (ptf_x from + (ptf_x p - ptf_x from) * (remaining / l)))
                     (Qred (ptf_y from + (ptf_y p - ptf_y from) * (remaining / l))),
           segAngle from p)
      end
  end.

Definition length (path : QPainterPath) : Q :=
  match List.map el_point path with
  | [] => 0
  | p :: rest => Qred (polyLength p rest)
  end.

Definition ratioAtLength (path : QPainterPath) (len : Q) : Q :=
  if Qle_bool len 0 then 0
  else if Qlt_bool (length path) len then 1
  else Qred (len / length path).

Definition along (path : QPainterPath) (t : Q) : QPointF * Q :=
  match List.map el_point path with
  | [] => (mkQPointF 0 0, 0%Q)
  | p :: rest => walk p rest (t * length path)%Q
  end.

Definition box (left top width height : Q) : QPainterPath :=
  [ mkElement MoveToElement (mkQPointF left top);
    mkElement LineToElement (mkQPointF (left + width) top);
    mkElement LineToElement (mkQPointF (left + width) (top + height));
    mkElement LineToElement (mkQPointF left (top + height));
    mkElement LineToElement (mkQPointF left top) ]%Q.

Definition outlineOf (font : QFont) (text : QString) : QPainterPath :=
  match text with
  | EmptyString => []
  | _ => box 0 (- inject_Z (pixelSize font))
             (inject_Z (pixelSize font * Str.size text)) (inject_Z (pixelSize font))
  end.

Definition boundsOf (path : QPainterPath) : QRectF :=
  match List.map el_point path with
  | [] => mkQRectF 0 0 0 0
  | p :: rest =>
      let left := fold_left (fun m q => qMin m (ptf_x q)) rest (ptf_x p) in
      let right := fold_left (fun m q => qMax m (ptf_x q)) rest (ptf_x p) in
      let top := fold_left (fun m q => qMin m (ptf_y q)) rest (ptf_y p) in
      let bottom := fold_left (fun m q => qMax m (ptf_y q)) rest (ptf_y p) in
      mkQRectF left top (right - left) (bottom - top)
  end.

Definition qt : QtApi := {|
  horizontalAdvance font text := pixelSize font * Str.size text;
  horizontalAdvanceChar font c := pixelSize font;
  fontHeight font := pixelSize font;
  fontHeightF font := inject_Z (pixelSize font);
  textOutline := outlineOf;
  boundingRect := boundsOf;
  pathLength := length;
  percentAtLength := ratioAtLength;
  pointAtPercent path t := fst (along path t);
  angleAtPercent path t := snd (along path t);
  toString v := match v with VString s => s | _ => "" end;
  toInt v :=
    match v with
    | VInt n => n
    | VDouble d => qRound d
    | VBool true => 1
    | _ => 0
    end;
  toFloat v :=
    match v with
    | VDouble d => d
    | VInt n => inject_Z n
    | _ => 0%Q
    end;
  toColor v := match v with VColor c => c | _ => mkQColor 0 0 0 1 end |}.

(** An evaluator that knows the operator [get] alone. *)
Definition evaluator : EvaluatorApi := {|
  resolveExpression expression feature mapZoom vpZoom :=
    match expression with
    | [JString "get"; JString key] =>
        match featureMetaData feature !! key with
        | Some v => v
        | None => VNull
        end
    | _ => VNull
    end |}.

Definition black : QColor := mkQColor 0 0 0 1.
Definition white : QColor := mkQColor 255 255 255 1.

(** A symbol layer that writes the metadata entry [name] in black with a
    white halo of one pixel, in a font of [size] pixels, on lines of at most
    [maxWidth] ems, with glyphs turning by at most 45 degrees. *)
Definition symbolStyle (size maxWidth : Z) : SymbolLayerStyle := {|
  m_textField := VString "{name}";
  m_textFont := mkQFont "Open Sans" 12;
  m_textHaloWidth := VInt 1;
  m_textHaloColor := VColor white;
  m_textMaxWidth := VInt maxWidth;
  getTextSizeAtZoom := fun _ => VInt size;
  getTextColorAtZoom := fun _ => VColor black;
  getTextOpacityAtZoom := fun _ => VDouble 1;
  getTextMaxAngleAtZoom := fun _ => VInt 45;
  getTextLetterSpacingAtZoom := fun _ => VDouble 0 |}.

Definition named (type : featureType) (name : QString) : AbstractLayerFeature :=
  mkFeature type {[ "name" := VString name ]}.

Definition pointLabel (name : QString) (pts : list QPoint) (size maxWidth : Z)
    : PaintingDetailsPoint :=
  mkPaintingDetailsPoint (symbolStyle size maxWidth)
    (mkPointFeature (named FeaturePoint name) pts) 2 2.

Definition lineLabel (name : QString) (pts : list QPointF) (size : Z)
    : PaintingDetailsPointCurved :=
  mkPaintingDetailsPointCurved (symbolStyle size 10)
    (mkLineFeature (named FeatureLine name)
       (List.map (mkElement LineToElement) pts))
    2 2 (Transform.scale 4096 4096 Transform.identity).

Definition painter : QPainter :=
  mkQPainter (mkQFont "Sans" 18) NoBrush (SolidPen white 1) 1 false [].

End Sample.

(** ** More of the renderer and of the output tester *)

(** [round] of <cmath>: to the nearest integer, halves away from zero; the
    result is again a floating value. *)
Definition round (d : Q) : Q :=
  inject_Z (if Qle_bool 0 d then Qfloor (d + (1 # 2)) else Qceiling (d - (1 # 2))).

(** [log2] of libm. *)
Class LibMLog := { log2 : Q -> Q }.

(** The constant [maxZoomLevel] of Rendering.h, which is not among the
    sources; the specification gives 16. *)
Class ZoomRange := { maxZoomLevel : Z }.

Section MapZoom.
Context {libmlog : LibMLog} {zoomRange : ZoomRange}.

Definition calcMapZoomLevelForTileSizePixels (vpWidth vpHeight : Z) (vpZoom : Q)
    (desiredTileWidth : Z) : Z :=
  let currentTileSize := qMaxInt vpWidth vpHeight in
  let desiredScale := (inject_Z desiredTileWidth / inject_Z currentTileSize)%Q in
  let newMapZoomLevel := (vpZoom - log2 desiredScale)%Q in
  clamp (to_int (round newMapZoomLevel)) 0 maxZoomLevel.

End MapZoom.

(** [Bach::OutputTester::genTileCoordList]: the loops run over [minX <= x <
    maxX] and [minY <= y < maxY]. *)
Definition genTileCoordList (zoom minX maxX minY maxY : Z) : list TileCoord :=
  flat_map
    (fun x => List.map (fun y => mkTileCoord zoom x y) (int_range_list minY (maxY - 1)))
    (int_range_list minX (maxX - 1)).

(** [log2] on the powers of two and their reciprocals, where it is exact;
    other arguments are rounded to such a power first.  It serves to run the
    code on examples. *)
Definition log2_dyadic : LibMLog := {|
  log2 q :=
    if Qle_bool 1 q then inject_Z (Z.log2 (Qfloor q))
    else inject_Z (- Z.log2 (Qfloor (1 / q))) |}.

Definition zoomRange16 : ZoomRange := {| maxZoomLevel := 16 |}.

(** [QStringList::join(sep)]. *)
Fixpoint joinWith (sep : QString) (parts : list QString) : QString :=
  match parts with
  | [] => ""
  | [part] => part
  | part :: rest => part +:+ sep +:+ joinWith sep rest
  end.

Section Glyphs.
Context {qt : QtApi}.


End Glyphs.

Section LabelAdvance.
Context {qt : QtApi}.

(** The total horizontal advance of a label in the words of the
    specification: the advances of its glyphs, plus the letter spacing for
    every glyph that is not a space. *)
Definition specTotalAdvance (font : QFont) (spacing : Q) (text : QString) : Q :=
  fold_right
    (fun c total =>
       (inject_Z (horizontalAdvanceChar font c)
        + (if Ascii.eqb c " " then 0 else spacing) + total)%Q)
    0%Q (Str.chars text).

End LabelAdvance.

(** A street name for running examples: the line label "Main st" in the
    sample style with a letter spacing of a quarter of an em, in a font of
    10 pixels, on a straight path of 82.2 pixels. *)
Module SampleSpacing.

Definition style : SymbolLayerStyle := {|
  m_textField := m_textField (Sample.symbolStyle 10 10);
  m_textFont := m_textFont (Sample.symbolStyle 10 10);
  m_textHaloWidth := m_textHaloWidth (Sample.symbolStyle 10 10);
  m_textHaloColor := m_textHaloColor (Sample.symbolStyle 10 10);
  m_textMaxWidth := m_textMaxWidth (Sample.symbolStyle 10 10);
  getTextSizeAtZoom := getTextSizeAtZoom (Sample.symbolStyle 10 10);
  getTextColorAtZoom := getTextColorAtZoom (Sample.symbolStyle 10 10);
  getTextOpacityAtZoom := getTextOpacityAtZoom (Sample.symbolStyle 10 10);
  getTextMaxAngleAtZoom := getTextMaxAngleAtZoom (Sample.symbolStyle 10 10);
  getTextLetterSpacingAtZoom := fun _ => VDouble (1 # 4) |}.

Definition mainSt : PaintingDetailsPointCurved :=
  mkPaintingDetailsPointCurved style
    (mkLineFeature (Sample.named FeatureLine "Main st")
       (List.map (mkElement LineToElement) [mkQPointF 0 0; mkQPointF (822 # 10) 0]))
    2 2 (Transform.scale 4096 4096 Transform.identity).

End SampleSpacing.

(** ** The tile painter of Rendering.cpp

    [paintTiles] saves and restores the state of its QPainter, sets a
    transform and a clip rectangle, and draws lines, rectangles and text
    besides paths.  Its painter is therefore modelled with the stack of saved
    states, and everything that is drawn is recorded together with the state
    it was drawn in. *)

(** The global colours of the [Qt] namespace that the code names. *)
Module Qt.
Definition black : QColor := mkQColor 0 0 0 1.
Definition white : QColor := mkQColor 255 255 255 1.
Definition green : QColor := mkQColor 0 255 0 1.
End Qt.

Inductive PenStyle := StyleNoPen | StyleSolidLine.

(** A QPen with the style, the colour and the width that [QPainter::pen]
    returns and the setters of QPen change one at a time. *)
Record StyledPen := mkStyledPen { pen_style : PenStyle; pen_color : QColor; pen_width : Z }.

Module Pen.

(** [QPen(Qt::PenStyle)]: black and of width 1. *)
Definition ofStyle (style : PenStyle) : StyledPen := mkStyledPen style Qt.black 1.

(** [QPen(const QColor &)]: a solid line of width 1. *)
Definition ofColor (color : QColor) : StyledPen := mkStyledPen StyleSolidLine color 1.

Definition setColor (color : QColor) (pen : StyledPen) : StyledPen :=
  mkStyledPen (pen_style pen) color (pen_width pen).

Definition setWidth (width : Z) (pen : StyledPen) : StyledPen :=
  mkStyledPen (pen_style pen) (pen_color pen) width.

End Pen.

(** A font with its size in points; [setPointSize] turns the size in pixels
    to -1. *)
Record SizedFont := mkSizedFont { sized_font : QFont; pointSize : Z }.

Definition setPointSize (n : Z) (f : SizedFont) : SizedFont :=
  mkSizedFont (setPixelSize (-1) (sized_font f)) n.

(** What [QPainter::save] saves.  The clip rectangle is kept with the
    transform that was set when it was given, as QPainter does. *)
Record PainterState := mkPainterState {
  state_pen : StyledPen;
  state_brush : QBrush;
  state_transform : QTransform;
  state_clip : option (QRect * QTransform);
  state_font : SizedFont }.

Inductive Drawing :=
| FillRect (rect : QRect) (color : QColor)
| DrawPath (path : QPainterPath)
| DrawLine (p1 p2 : QPointF)
| DrawRect (rect : QRectF)
| DrawText (tx ty : Z) (text : QString).

Record Drawn := mkDrawn { drawn_what : Drawing; drawn_state : PainterState }.

(** A QPainter: the current state, the stack of the saved ones (the last
    saved first), everything drawn so far, and the window of the device. *)
Record SavingPainter := mkSavingPainter {
  current : PainterState;
  saved : list PainterState;
  drawn : list Drawn;
  window : QRect }.

Module Saving.

Definition save (p : SavingPainter) : SavingPainter :=
  mkSavingPainter (current p) (current p :: saved p) (drawn p) (window p).

(** [QPainter::restore]: on an empty stack it warns and changes nothing. *)
Definition restore (p : SavingPainter) : SavingPainter :=
  match saved p with
  | state :: rest => mkSavingPainter state rest (drawn p) (window p)
  | [] => p
  end.

Definition setState (state : PainterState) (p : SavingPainter) : SavingPainter :=
  mkSavingPainter state (saved p) (drawn p) (window p).

Definition setPen (pen : StyledPen) (p : SavingPainter) : SavingPainter :=
  let s := current p in
  setState (mkPainterState pen (state_brush s) (state_transform s) (state_clip s)
                           (state_font s)) p.

Definition setBrush (brush : QBrush) (p : SavingPainter) : SavingPainter :=
  let s := current p in
  setState (mkPainterState (state_pen s) brush (state_transform s) (state_clip s)
                           (state_font s)) p.

(** [QPainter::setTransform(transform)]: the transform is replaced. *)
Definition setTransform (transform : QTransform) (p : SavingPainter) : SavingPainter :=
  let s := current p in
  setState (mkPainterState (state_pen s) (state_brush s) transform (state_clip s)
                           (state_font s)) p.

(** [QPainter::setClipRect(x, y, width, height)]: the clip is replaced. *)
Definition setClipRect (cx cy width height : Z) (p : SavingPainter) : SavingPainter :=
  let s := current p in
  setState (mkPainterState (state_pen s) (state_brush s) (state_transform s)
                           (Some (Rect.make cx cy width height, state_transform s))
                           (state_font s)) p.

Definition setFont (font : SizedFont) (p : SavingPainter) : SavingPainter :=
  let s := current p in
  setState (mkPainterState (state_pen s) (state_brush s) (state_transform s) (state_clip s)
                           font) p.

Definition draw (what : Drawing) (p : SavingPainter) : SavingPainter :=
  mkSavingPainter (current p) (saved p) (drawn p ++ [mkDrawn what (current p)]) (window p).

Definition fillRect (rect : QRect) (color : QColor) := draw (FillRect rect color).
Definition drawPath (path : QPainterPath) := draw (DrawPath path).
Definition drawLine (p1 p2 : QPointF) := draw (DrawLine p1 p2).
Definition drawRect (rect : QRectF) := draw (DrawRect rect).
Definition drawText (tx ty : Z) (text : QString) := draw (DrawText tx ty text).

End Saving.

(** [QTransform::translate(dx, dy)]: the translation is applied to a point
    before the transform it is called on. *)
Definition translated (dx dy : Q) (t : QTransform) : QTransform :=
  mkQTransform (m11 t) (m12 t) (m21 t) (m22 t)
               (t_dx t + dx * m11 t + dy * m21 t)%Q (t_dy t + dx * m12 t + dy * m22 t)%Q.

(** [QTransform::mapRect] for a QRect and for a QRectF. *)
Class QtGeometry := {
  mapRect : QTransform -> QRect -> QRect;
  mapRectF : QTransform -> QRectF -> QRectF }.

(** Modelled from the spec: the style sheet that Rendering.cpp reads is
    declared in Layerstyle.h, which is not among the sources, and the getters
    it calls here return values that are used as they are.  A layer style
    names its source layer; a background style gives a colour for a zoom
    level, a fill style a fill colour, a line style a colour and a width for
    the pen; the styles of other types are not painted by this file. *)
Inductive LayerStyleClass :=
| BackgroundStyle (getColorAtZoom : Z -> QColor)
| FillStyle (getFillColorAtZoom : Z -> QColor)
| LineStyle (getLineColorAtZoom : Z -> QColor) (getLineWidthAtZoom : Z -> Z)
| OtherStyle.

Record AbstractLayereStyle := mkLayerStyle {
  m_sourceLayer : QString;
  subclass : LayerStyleClass }.

Record StyleSheet := mkStyleSheet { m_layerStyles : list AbstractLayereStyle }.

(** Modelled from the spec: a vector tile, declared in VectorTiles.h, which
    is not among the sources, maps the names of its layers to the layers, and
    a layer holds its features, each of one of the feature classes. *)
Inductive LayerFeature :=
| PolygonOf (feature : PolygonFeature)
| LineOf (feature : LineFeature)
| PointOf (feature : PointFeature)
| UnknownOf (feature : AbstractLayerFeature).

Record TileLayer := mkTileLayer { m_features : list LayerFeature }.
Record VectorTile := mkVectorTile { m_layers : gmap string TileLayer }.

#[global] Instance TileCoord_eq_dec : EqDecision TileCoord.
Proof. solve_decision. Defined.

#[global] Instance TileCoord_countable : Countable TileCoord.
Proof.
  refine (inj_countable' (fun t => (zoom t, x t, y t))
                         (fun '(z, a, b) => mkTileCoord z a b) _).
  now intros [].
Defined.

(** Modelled from the spec: [TileCoord::toString] gives the form
    [z<zoom>x<x>y<y>], the numbers in decimal. *)
Definition TileCoord_toString (t : TileCoord) : QString :=
  "z" +:+ pretty (zoom t) +:+ "x" +:+ pretty (x t) +:+ "y" +:+ pretty (y t).

Section TilePainter.
Context {libm : LibM} {arith : DoubleArith} {geometry : QtGeometry}.

Definition paintSingleTileDebug (painter : SavingPainter) (tileCoord : TileCoord)
    (pixelPos : QPoint) (transform : QTransform) : SavingPainter :=
  let painter := Saving.setPen (Pen.ofColor Qt.green) painter in
  let painter :=
    Saving.drawLine (Transform.mapF transform (mkQPointF (45 # 100) (45 # 100)))
                    (Transform.mapF transform (mkQPointF (55 # 100) (55 # 100))) painter in
  let painter :=
    Saving.drawLine (Transform.mapF transform (mkQPointF (55 # 100) (45 # 100)))
                    (Transform.mapF transform (mkQPointF (45 # 100) (55 # 100))) painter in
  let painter := Saving.drawRect (mapRectF transform (mkQRectF 0 0 1 1)) painter in
  let painter := Saving.save painter in
  let transform :=
    translated (inject_Z (pt_x pixelPos)) (inject_Z (pt_y pixelPos)) Transform.identity in
  let painter := Saving.setTransform transform painter in
  let painter := Saving.drawText 10 30 (TileCoord_toString tileCoord) painter in
  Saving.restore painter.

(** The loop over the features of a fill layer. *)
Definition paintPolygons (transformIn : QTransform) (features : list LayerFeature)
    (painter : SavingPainter) : SavingPainter :=
  fold_left
    (fun painter abstractFeature =>
       match abstractFeature with
       | PolygonOf feature =>
           let path := polygon feature in
           let transform := Transform.scale (1 / 4096) (1 / 4096) transformIn in
           let newPath := Path.map transform path in
           let painter := Saving.save painter in
           let painter := Saving.setPen (Pen.ofStyle StyleNoPen) painter in
           let painter := Saving.drawPath newPath painter in
           Saving.restore painter
       | _ => painter
       end)
    features painter.

(** The loop over the features of a line layer. *)
Definition paintLines (transformIn : QTransform) (features : list LayerFeature)
    (painter : SavingPainter) : SavingPainter :=
  fold_left
    (fun painter abstractFeature =>
       match abstractFeature with
       | LineOf feature =>
           let path := line feature in
           let transform := Transform.scale (1 / 4096) (1 / 4096) transformIn in
           let newPath := Path.map transform path in
           let painter := Saving.save painter in
           let painter := Saving.drawPath newPath painter in
           Saving.restore painter
       | _ => painter
       end)
    features painter.

(** One round of the loop over the layer styles. *)
Definition paintLayerStyle (tileData : VectorTile) (mapZoomLevel : Z)
    (transformIn : QTransform) (painter : SavingPainter)
    (abstractLayerStyle : AbstractLayereStyle) : SavingPainter :=
  match subclass abstractLayerStyle with
  | BackgroundStyle getColorAtZoom =>
      let backgroundColor := getColorAtZoom mapZoomLevel in
      Saving.fillRect (mapRect transformIn (Rect.make 0 0 1 1)) backgroundColor painter
  | layerStyle =>
      match m_layers tileData !! m_sourceLayer abstractLayerStyle with
      | None => painter
      | Some layer =>
          match layerStyle with
          | FillStyle getFillColorAtZoom =>
              let painter :=
                Saving.setBrush (SolidBrush (getFillColorAtZoom mapZoomLevel)) painter in
              paintPolygons transformIn (m_features layer) painter
          | LineStyle getLineColorAtZoom getLineWidthAtZoom =>
              let painter := Saving.save painter in
              let pen := state_pen (current painter) in
              let lineColor := getLineColorAtZoom mapZoomLevel in
              let pen := Pen.setColor lineColor pen in
              let pen := Pen.setWidth (getLineWidthAtZoom mapZoomLevel) pen in
              let painter := Saving.setPen pen painter in
              let painter := Saving.setBrush NoBrush painter in
              let painter := paintLines transformIn (m_features layer) painter in
              Saving.restore painter
          | _ => painter
          end
      end
  end.

Definition paintSingleTile (tileData : VectorTile) (painter : SavingPainter)
    (mapZoomLevel : Z) (viewportZoomLevel : Q) (styleSheet : StyleSheet)
    (transformIn : QTransform) : SavingPainter :=
  fold_left (paintLayerStyle tileData mapZoomLevel transformIn)
            (m_layerStyles styleSheet) painter.

(** The values [paintTiles] computes before its loop: the largest dimension
    of the window, the scale of a tile, and the centre of the viewport in
    units of the largest dimension. *)
Record TileLayout := mkTileLayout {
  largestDimension : Z;
  scale : Q;
  centerNormX : Q;
  centerNormY : Q }.

Definition tileLayout (painter : SavingPainter) (vpX vpY viewportZoomLevel : Q)
    (mapZoomLevel : Z) : TileLayout :=
  let viewportWidth := Rect.width (window painter) in
  let viewportHeight := Rect.height (window painter) in
  let vpAspectRatio := (inject_Z viewportWidth / inject_Z viewportHeight)%Q in
  let largestDimension := qMaxInt viewportWidth viewportHeight in
  let scale := pow 2 (viewportZoomLevel - inject_Z mapZoomLevel)%Q in
  let tileWidthNorm := scale in
  let tileHeightNorm := scale in
  let totalTilesAtZoom := wrap32 (Z.shiftl 1 mapZoomLevel) in
  let centerNormX := (vpX * inject_Z totalTilesAtZoom * tileWidthNorm - 1 / 2)%Q in
  let centerNormY := (vpY * inject_Z totalTilesAtZoom * tileHeightNorm - 1 / 2)%Q in
  if viewportWidth <=? viewportHeight
  then mkTileLayout largestDimension scale
                    (centerNormX + (- (1 # 2) * vpAspectRatio + (1 # 2)))%Q centerNormY
  else if viewportHeight <=? viewportWidth
  then mkTileLayout largestDimension scale centerNormX
                    (centerNormY + (- (1 # 2) * (1 / vpAspectRatio) + (1 # 2)))%Q
  else mkTileLayout largestDimension scale centerNormX centerNormY.

(** The position of a tile in pixels, and the side of a tile in pixels. *)
Definition tilePixelPos (layout : TileLayout) (tileCoord : TileCoord) : QPoint :=
  let posNormX := (inject_Z (x tileCoord) * scale layout - centerNormX layout)%Q in
  let posNormY := (inject_Z (y tileCoord) * scale layout - centerNormY layout)%Q in
  mkQPoint (to_int (round (posNormX * inject_Z (largestDimension layout))))
           (to_int (round (posNormY * inject_Z (largestDimension layout)))).

Definition tileSizePixels (layout : TileLayout) : Z :=
  to_int (round (scale layout * inject_Z (largestDimension layout))).

(** One round of the loop over the visible tiles. *)
Definition paintVisibleTile (layout : TileLayout) (viewportZoomLevel : Q) (mapZoomLevel : Z)
    (tileContainer : gmap TileCoord VectorTile) (styleSheet : StyleSheet)
    (painter : SavingPainter) (tileCoord : TileCoord) : SavingPainter :=
  let tilePixelPos := tilePixelPos layout tileCoord in
  let tileWidthPixels := tileSizePixels layout in
  let tileHeightPixels := tileSizePixels layout in
  let painter := Saving.save painter in
  let transform :=
    translated (inject_Z (pt_x tilePixelPos)) (inject_Z (pt_y tilePixelPos))
               Transform.identity in
  let painter := Saving.setTransform transform painter in
  let pen := state_pen (current painter) in
  let pen := Pen.setColor Qt.white pen in
  let pen := Pen.setWidth 1 pen in
  let painter := Saving.setPen pen painter in
  let test :=
    Transform.scale (inject_Z (largestDimension layout) * scale layout)
                    (inject_Z (largestDimension layout) * scale layout)
                    Transform.identity in
  let painter :=
    match tileContainer !! tileCoord with
    | Some tileData =>
        let painter := Saving.save painter in
        let painter := Saving.setClipRect 0 0 tileWidthPixels tileHeightPixels painter in
        let painter :=
          paintSingleTile tileData painter mapZoomLevel viewportZoomLevel styleSheet test in
        Saving.restore painter
    | None => painter
    end in
  let painter := paintSingleTileDebug painter tileCoord tilePixelPos test in
  Saving.restore painter.

Definition paintTiles (painter : SavingPainter) (vpX vpY viewportZoomLevel : Q)
    (mapZoomLevel : Z) (tileContainer : gmap TileCoord VectorTile)
    (styleSheet : StyleSheet) : SavingPainter :=
  let viewportWidth := Rect.width (window painter) in
  let viewportHeight := Rect.height (window painter) in
  let vpAspectRatio := (inject_Z viewportWidth / inject_Z viewportHeight)%Q in
  let visibleTiles := calcVisibleTiles vpX vpY vpAspectRatio viewportZoomLevel mapZoomLevel in
  let layout := tileLayout painter vpX vpY viewportZoomLevel mapZoomLevel in
  let font := state_font (current painter) in
  let font := setPointSize 18 font in
  let painter := Saving.setFont font painter in
  fold_left (paintVisibleTile layout viewportZoomLevel mapZoomLevel tileContainer styleSheet)
            visibleTiles painter.

End TilePainter.

(** ** Notions for the tile painter *)

Definition withBrush (brush : QBrush) (s : PainterState) : PainterState :=
  mkPainterState (state_pen s) brush (state_transform s) (state_clip s) (state_font s).

Definition withFont (font : SizedFont) (s : PainterState) : PainterState :=
  mkPainterState (state_pen s) (state_brush s) (state_transform s) (state_clip s) font.

(** The path of a feature as the tile painter draws it. *)
Definition featurePath (transformIn : QTransform) (path : QPainterPath) : QPainterPath :=
  Path.map (Transform.scale (1 / 4096) (1 / 4096) transformIn) path.

Section TilePainterNotions.
Context {geometry : QtGeometry}.

(** The shape [what] is one that the layer style [style] asks for on the
    tile: the unit square in the background colour, the path of a polygon
    of the source layer of a fill style, or the path of a line of the source
    layer of a line style. *)
Definition shapeForStyle (tileData : VectorTile) (mapZoomLevel : Z)
    (transformIn : QTransform) (style : AbstractLayereStyle) (what : Drawing) : Prop :=
  match subclass style with
  | BackgroundStyle getColorAtZoom =>
      what = FillRect (mapRect transformIn (Rect.make 0 0 1 1)) (getColorAtZoom mapZoomLevel)
  | FillStyle _ =>
      exists layer feature,
        m_layers tileData !! m_sourceLayer style = Some layer /\
        In (PolygonOf feature) (m_features layer) /\
        what = DrawPath (featurePath transformIn (polygon feature))
  | LineStyle _ _ =>
      exists layer feature,
        m_layers tileData !! m_sourceLayer style = Some layer /\
        In (LineOf feature) (m_features layer) /\
        what = DrawPath (featurePath transformIn (line feature))
  | OtherStyle => False
  end.

End TilePainterNotions.

(** The pen and the brush of the state [s] are those of the layer style: no
    pen and the fill colour for a fill style; no brush and the pen [pen] in
    the colour and the width of the style for a line style. *)
Definition toolsForStyle (mapZoomLevel : Z) (pen : StyledPen) (style : AbstractLayereStyle)
    (s : PainterState) : Prop :=
  match subclass style with
  | FillStyle getFillColorAtZoom =>
      state_pen s = Pen.ofStyle StyleNoPen /\
      state_brush s = SolidBrush (getFillColorAtZoom mapZoomLevel)
  | LineStyle getLineColorAtZoom getLineWidthAtZoom =>
      state_pen s = Pen.setWidth (getLineWidthAtZoom mapZoomLevel)
                                 (Pen.setColor (getLineColorAtZoom mapZoomLevel) pen) /\
      state_brush s = NoBrush
  | _ => True
  end.


(** The text of a drawing, when it is one. *)
Definition drawnText (d : Drawn) : option QString :=
  match drawn_what d with DrawText _ _ text => Some text | _ => None end.

(** The transform that moves the origin to a pixel. *)
Definition toPixel (p : QPoint) : QTransform :=
  translated (inject_Z (pt_x p)) (inject_Z (pt_y p)) Transform.identity.

(** The new drawings of the painter [p'], which has gone on from [p]. *)
Definition drawnSince (p p' : SavingPainter) : list Drawn :=
  skipn (length (drawn p)) (drawn p').

Definition withPen (pen : StyledPen) (s : PainterState) : PainterState :=
  mkPainterState pen (state_brush s) (state_transform s) (state_clip s) (state_font s).

(** The pen that [paintTiles] sets for a tile. *)
Definition whitePen (pen : StyledPen) : StyledPen := Pen.setWidth 1 (Pen.setColor Qt.white pen).

(** The transform that [paintTiles] passes on for the content of a tile: it
    scales the unit square to the size of a tile. *)
Definition unitToPixels (layout : TileLayout) : QTransform :=
  Transform.scale (inject_Z (largestDimension layout) * scale layout)
                  (inject_Z (largestDimension layout) * scale layout) Transform.identity.

(** The clip rectangle of a tile: its square of pixels, at its position. *)
Definition tileClip (layout : TileLayout) (tileCoord : TileCoord)
    : option (QRect * QTransform) :=
  Some (Rect.make 0 0 (tileSizePixels layout) (tileSizePixels layout),
        toPixel (tilePixelPos layout tileCoord)).

Section TilesNotions.
Context {geometry : QtGeometry}.

(** The drawing [d] belongs to the tile [tileCoord] in a run of [paintTiles]
    that was entered in the state [entry]: it is drawn at the position of
    the tile; and it is either a shape that a layer style asks for on the
    loaded tile, drawn with the tools of the style inside the clip rectangle
    of the tile, or a part of the debug overlay, drawn in green with the clip
    of the entry state, the text being the name of the tile. *)
Definition drawnForTile (layout : TileLayout) (mapZoomLevel : Z)
    (tileContainer : gmap TileCoord VectorTile) (styleSheet : StyleSheet)
    (entry : PainterState) (tileCoord : TileCoord) (d : Drawn) : Prop :=
  state_transform (drawn_state d) = toPixel (tilePixelPos layout tileCoord) /\
  state_font (drawn_state d) = state_font entry /\
  match drawn_what d with
  | FillRect _ _ | DrawPath _ =>
      state_clip (drawn_state d) = tileClip layout tileCoord /\
      exists tileData style,
        tileContainer !! tileCoord = Some tileData /\
        In style (m_layerStyles styleSheet) /\
        shapeForStyle tileData mapZoomLevel (unitToPixels layout) style (drawn_what d) /\
        toolsForStyle mapZoomLevel (whitePen (state_pen entry)) style (drawn_state d)
  | DrawLine _ _ | DrawRect _ =>
      state_clip (drawn_state d) = state_clip entry /\
      state_pen (drawn_state d) = Pen.ofColor Qt.green
  | DrawText tx ty text =>
      state_clip (drawn_state d) = state_clip entry /\
      state_pen (drawn_state d) = Pen.ofColor Qt.green /\
      tx = 10 /\ ty = 30 /\ text = TileCoord_toString tileCoord
  end.

End TilesNotions.

(** ** The output tester: OutputTester.cpp *)

Definition QByteArray := list Byte.byte.

(** What OutputTester.cpp takes from its surroundings: the directory of the
    baseline (a macro of the build), [QDir::separator], the content of a
    file when [QFile::open] succeeds, and [VectorTile::fromByteArray], which
    is declared in VectorTiles.h. *)
Class TesterFiles := {
  BACH_RENDEROUTPUT_BASELINE_DIR : QString;
  separator : QChar;
  readAll : QString -> option QByteArray;
  fromByteArray : QByteArray -> option VectorTile }.

(** [QString::number(int)] and [QString::arg(int)]: the number in decimal. *)
Definition number (n : Z) : QString := pretty n.

(** [QString + QChar]. *)
Definition appendChar (s : QString) (c : QChar) : QString := s +:+ String c "".

Section OutputTester.
Context {files : TesterFiles}.

Definition buildBaselinePath : QString := BACH_RENDEROUTPUT_BASELINE_DIR.

Definition buildBaselineExpectedOutputPath : QString :=
  appendChar buildBaselinePath separator +:+ "expected_output".

(** The overload [buildBaselineExpectedOutputPath(int testId)]. *)
Definition buildBaselineExpectedOutputPath_testId (testId : Z) : QString :=
  (appendChar buildBaselineExpectedOutputPath separator +:+ number testId) +:+ ".png".

Definition getStyleSheetPath : QString :=
  appendChar buildBaselinePath separator +:+ "/styleSheet.json".

(** The path that [loadTiles] builds for a tile: the markers of
    ["z%1x%2y%3.mvt"] are replaced by the three numbers. *)
Definition tileFilePath (tileCoord : TileCoord) : QString :=
  appendChar buildBaselinePath separator
  +:+ ("z" +:+ number (zoom tileCoord) +:+ "x" +:+ number (x tileCoord)
       +:+ "y" +:+ number (y tileCoord) +:+ ".mvt").

(** [std::map::insert]: an entry that is there is kept. *)
Definition insertNew (tileCoord : TileCoord) (tile : VectorTile)
    (tileStorage : gmap TileCoord VectorTile) : gmap TileCoord VectorTile :=
  match tileStorage !! tileCoord with
  | Some _ => tileStorage
  | None => <[tileCoord := tile]> tileStorage
  end.

(** The loop of [loadTiles], from the storage filled so far. *)
Fixpoint loadTilesInto (tileStorage : gmap TileCoord VectorTile)
    (tileCoords : list TileCoord) : option (gmap TileCoord VectorTile) :=
  match tileCoords with
  | [] => Some tileStorage
  | tileCoord :: rest =>
      let path := tileFilePath tileCoord in
      match readAll path with
      | None => None
      | Some bytes =>
          match fromByteArray bytes with
          | None => None
          | Some tileResult => loadTilesInto (insertNew tileCoord tileResult tileStorage) rest
          end
      end
  end.

Definition loadTiles (tileCoords : list TileCoord) : option (gmap TileCoord VectorTile) :=
  loadTilesInto ∅ tileCoords.

(** The tile that the file of a tile holds, when the file can be opened and
    parsed. *)
Definition tileOnDisk (tileCoord : TileCoord) : option VectorTile :=
  match readAll (tileFilePath tileCoord) with
  | Some bytes => fromByteArray bytes
  | None => None
  end.

End OutputTester.

(** A character of a number in decimal: a digit or the sign. *)
Definition numeric (c : QChar) : bool :=
  let n := nat_of_ascii c in ((48 <=? n) && (n <=? 57) || (n =? 45))%nat.

(** ** A tile, a style sheet and a directory for running examples *)

Module SampleTiles.

(** [mapRect] for a transform that scales and translates: the corner and
    the size are mapped, and rounded for a QRect. *)
Definition geometry : QtGeometry := {|
  mapRect t r :=
    Rect.make (qRound (m11 t * inject_Z (x1 r) + t_dx t))
              (qRound (m22 t * inject_Z (y1 r) + t_dy t))
              (qRound (m11 t * inject_Z (Rect.width r)))
              (qRound (m22 t * inject_Z (Rect.height r)));
  mapRectF t r :=
    mkQRectF (m11 t * rf_x r + t_dx t) (m22 t * rf_y r + t_dy t)
             (m11 t * rf_w r) (m22 t * rf_h r) |}.

Definition grey : QColor := mkQColor 200 200 200 1.
Definition blue : QColor := mkQColor 0 0 255 1.

Definition lake : PolygonFeature :=
  mkPolygonFeature (mkFeature FeaturePolygon ∅)
    [mkElement MoveToElement (mkQPointF 0 0);
     mkElement LineToElement (mkQPointF 4096 0);
     mkElement LineToElement (mkQPointF 4096 2048);
     mkElement LineToElement (mkQPointF 0 0)].

Definition road : LineFeature :=
  mkLineFeature (mkFeature FeatureLine ∅)
    [mkElement MoveToElement (mkQPointF 0 2048);
     mkElement LineToElement (mkQPointF 4096 2048)].

Definition town : PointFeature :=
  mkPointFeature (mkFeature FeaturePoint ∅) [mkQPoint 2048 2048].

(** A tile with a lake and a town in the layer [water] and a road in the
    layer [road]. *)
Definition tile : VectorTile :=
  mkVectorTile
    (<["water" := mkTileLayer [PolygonOf lake; PointOf town]]>
       (<["road" := mkTileLayer [LineOf road]]> ∅)).

(** A background, the water filled in blue, the roads drawn two pixels wide,
    a style of a type that is not painted, and a fill style whose layer the
    tile lacks. *)
Definition sheet : StyleSheet :=
  mkStyleSheet
    [mkLayerStyle "" (BackgroundStyle (fun _ => grey));
     mkLayerStyle "water" (FillStyle (fun _ => blue));
     mkLayerStyle "road" (LineStyle (fun _ => Qt.black) (fun _ => 2));
     mkLayerStyle "road" OtherStyle;
     mkLayerStyle "park" (FillStyle (fun _ => Qt.green))].

(** A painter on a device of 512 by 512 pixels, as it is constructed. *)
Definition painter : SavingPainter :=
  mkSavingPainter
    (mkPainterState (Pen.ofStyle StyleSolidLine) NoBrush Transform.identity None
                    (mkSizedFont (mkQFont "Sans" (-1)) 12))
    [] [] (Rect.make 0 0 512 512).

(** The tile of zoom level 0 is loaded. *)
Definition container : gmap TileCoord VectorTile := <[mkTileCoord 0 0 0 := tile]> ∅.

(** The lake as the tile painter draws it. *)
Definition lakeDrawn (transformIn : QTransform) (state : PainterState) : Drawn :=
  mkDrawn (DrawPath (featurePath transformIn (polygon lake)))
          (withPen (Pen.ofStyle StyleNoPen) (withBrush (SolidBrush blue) state)).

(** The viewport that shows the whole world at zoom level 0, and the lake
    as [paintTiles] draws it there. *)
Definition layout : TileLayout := @tileLayout pow_integral painter (1 # 2) (1 # 2) 0 0.


(** A directory that holds the file of the tile of zoom level 0, of one
    byte; every array of bytes that is not empty is parsed to [tile]. *)
Definition files : TesterFiles := {|
  BACH_RENDEROUTPUT_BASELINE_DIR := "baseline";
  separator := "/"%char;
  readAll path := if String.eqb path "baseline/z0x0y0.mvt" then Some [Byte.x1a] else None;
  fromByteArray bytes := match bytes with [] => None | _ => Some tile end |}.

End SampleTiles.

(** * Properties *)

(** ** Machine numbers *)

Lemma wrap32_id (z : Z) : int_range z -> wrap32 z = z.
Proof.
  unfold int_range, wrap32. intros Hz.
  rewrite Z.mod_small by lia. lia.
Qed.

Lemma Qtrunc_inject_Z (k : Z) : Qtrunc (inject_Z k) = k.
Proof. unfold Qtrunc. simpl. apply Z.quot_1_r. Qed.

Lemma to_int_inject_Z (k : Z) : int_range k -> to_int (inject_Z k) = k.
Proof. intros Hk. unfold to_int. rewrite Qtrunc_inject_Z. now apply wrap32_id. Qed.

Lemma clamp_between (v lo hi : Z) : lo <= hi -> lo <= clamp v lo hi <= hi.
Proof.
  intros Hle. unfold clamp.
  destruct (Z.ltb_spec v lo); [lia|]. destruct (Z.ltb_spec hi v); lia.
Qed.



Lemma qMaxInt_max (a b : Z) : qMaxInt a b = Z.max a b.
Proof. unfold qMaxInt. destruct (Z.ltb_spec a b); lia. Qed.

Lemma In_int_range_list (v lo hi : Z) : In v (int_range_list lo hi) <-> lo <= v <= hi.
Proof.
  unfold int_range_list. rewrite in_map_iff. split.
  - intros (k & <- & Hk). apply in_seq in Hk. lia.
  - intros Hv. exists (Z.to_nat (v - lo)). split; [lia|].
    apply in_seq. lia.
Qed.

(** For a zoom level up to 30 the tile count [1 << z] and [tileCount - 1]
    are computed without overflow. *)
Lemma tileCount_exact (z : Z) :
  0 <= z <= 30 ->
  wrap32 (Z.shiftl 1 z) = 2 ^ z /\ wrap32 (2 ^ z - 1) = 2 ^ z - 1 /\ 0 < 2 ^ z.
Proof.
  intros Hz. rewrite Z.shiftl_1_l.
  assert (0 < 2 ^ z) by (apply Z.pow_pos_nonneg; lia).
  assert (2 ^ z <= 2 ^ 30) by (apply Z.pow_le_mono_r; lia).
  repeat split; try apply wrap32_id; unfold int_range; lia.
Qed.

(** ** The visible-tile calculator *)

Section VisibleTilesFacts.
Context {libm : LibM} {arith : DoubleArith}.

(** The tiles of the result are those of the two nested loops. *)
Lemma calcVisibleTiles_In (vpX vpY a zv : Q) (zm : Z) (t : TileCoord) :
  In t (calcVisibleTiles vpX vpY a zv zm) <->
  let z := qMaxInt 0 zm in
  let n := wrap32 (Z.shiftl 1 z) in
  let g i := clamp i 0 (wrap32 (n - 1)) in
  zoom t = z /\
  g (to_int (floor (dmul (vpMinNormX vpX a zv) (inject_Z n)))) <= x t
    <= g (to_int (ceil (dmul (vpMaxNormX vpX a zv) (inject_Z n)))) /\
  g (to_int (floor (dmul (vpMinNormY vpY a zv) (inject_Z n)))) <= y t
    <= g (to_int (ceil (dmul (vpMaxNormY vpY a zv) (inject_Z n)))).
Proof.
  unfold calcVisibleTiles, vpMinNormX, vpMaxNormX, vpMinNormY, vpMaxNormY,
    halfWidthNorm, halfHeightNorm.
  destruct (calcViewportSizeNorm zv a) as [vpWidthNorm vpHeightNorm].
  cbv zeta. cbn [fst snd]. rewrite in_flat_map. split.
  - intros (y0 & Hy & Hin). apply in_map_iff in Hin as (x0 & <- & Hx).
    apply In_int_range_list in Hy, Hx. simpl. auto.
  - intros (Hz & Hx & Hy). exists (y t). split.
    + now apply In_int_range_list.
    + apply in_map_iff. exists (x t). split.
      * destruct t; simpl in *; now subst.
      * now apply In_int_range_list.
Qed.

Lemma calcVisibleTiles_in_grid (vpX vpY a zv : Q) (zm : Z) (t : TileCoord) :
  zm <= 30 -> In t (calcVisibleTiles vpX vpY a zv zm) -> in_grid (Z.max 0 zm) t.
Proof.
  intros Hzm Hin. apply calcVisibleTiles_In in Hin. cbv zeta in Hin.
  rewrite qMaxInt_max in Hin.
  destruct (tileCount_exact (Z.max 0 zm)) as (Hn & Hn1 & Hpos); [lia|].
  rewrite Hn, Hn1 in Hin. destruct Hin as (Hz & Hx & Hy).
  unfold in_grid. split; [assumption|].
  assert (Hg : forall v, 0 <= clamp v 0 (2 ^ Z.max 0 zm - 1) <= 2 ^ Z.max 0 zm - 1)
    by (intros v; apply clamp_between; lia).
  pose proof (Hg (to_int (floor (dmul (vpMinNormX vpX a zv)
                                      (inject_Z (2 ^ Z.max 0 zm)))))).
  pose proof (Hg (to_int (ceil (dmul (vpMaxNormX vpX a zv)
                                     (inject_Z (2 ^ Z.max 0 zm)))))).
  pose proof (Hg (to_int (floor (dmul (vpMinNormY vpY a zv)
                                      (inject_Z (2 ^ Z.max 0 zm)))))).
  pose proof (Hg (to_int (ceil (dmul (vpMaxNormY vpY a zv)
                                     (inject_Z (2 ^ Z.max 0 zm)))))).
  lia.
Qed.

Lemma calcVisibleTiles_negative_zoom (vpX vpY a zv : Q) (zm : Z) :
  zm < 0 -> calcVisibleTiles vpX vpY a zv zm = calcVisibleTiles vpX vpY a zv 0.
Proof.
  intros Hneg. unfold calcVisibleTiles.
  replace (qMaxInt 0 zm) with (qMaxInt 0 0); [reflexivity|].
  rewrite !qMaxInt_max. lia.
Qed.


(** C6. For a map zoom [zm] up to 30 (so that [1 << zm] does not overflow)
    every tile that calcVisibleTiles returns has zoom [max(zm, 0)] and
    [x], [y] between [0] and [2^max(zm,0) - 1]; for a negative [zm] the result
    is the one for zoom 0 and every tile in it is (0, 0, 0). *)
Theorem calcVisibleTiles_grid_bounds (vpX vpY a zv : Q) (zm : Z) :
  zm <= 30 ->
  (forall t, In t (calcVisibleTiles vpX vpY a zv zm) -> in_grid (Z.max zm 0) t) /\
  (zm < 0 ->
   calcVisibleTiles vpX vpY a zv zm = calcVisibleTiles vpX vpY a zv 0 /\
   forall t, In t (calcVisibleTiles vpX vpY a zv zm) -> t = mkTileCoord 0 0 0).
Proof.
  intros Hzm. split.
  - intros t Hin. rewrite Z.max_comm. eapply calcVisibleTiles_in_grid; eassumption.
  - intros Hneg. split; [now apply calcVisibleTiles_negative_zoom|].
    intros t Hin. apply calcVisibleTiles_in_grid in Hin; [|lia].
    rewrite Z.max_l in Hin by lia. destruct Hin as (Hz & Hx & Hy).
    destruct t as [tz tx ty]; simpl in *. f_equal; lia.
Qed.


End VisibleTilesFacts.

(** ** Polygon fill *)

Section PolygonFacts.
Context {qt : QtApi} {ev : EvaluatorApi}.

Lemma getFillColor_resolved (layerStyle : FillLayerStyle) (feature : AbstractLayerFeature)
    (mapZoom : Z) (vpZoom : Q) :
  getFillColor layerStyle feature mapZoom vpZoom =
  setAlphaF
    (toFloat (resolved (getFillOpacityAtZoom layerStyle mapZoom) feature mapZoom vpZoom)
     * alphaF (toColor (resolved (getFillColorAtZoom layerStyle mapZoom) feature mapZoom vpZoom)))
    (toColor (resolved (getFillColorAtZoom layerStyle mapZoom) feature mapZoom vpZoom)).
Proof.
  unfold getFillColor, resolved.
  destruct (getFillColorAtZoom layerStyle mapZoom),
           (getFillOpacityAtZoom layerStyle mapZoom); reflexivity.
Qed.

(** Scaling a transform by [(sx, sy)] and mapping a point is mapping the
    scaled point. *)
Lemma mapF_scale (t : QTransform) (sx sy : Q) (p : QPointF) :
  (ptf_x (Transform.mapF (Transform.scale sx sy t) p)
     == ptf_x (Transform.mapF t (mkQPointF (sx * ptf_x p) (sy * ptf_y p))))%Q /\
  (ptf_y (Transform.mapF (Transform.scale sx sy t) p)
     == ptf_y (Transform.mapF t (mkQPointF (sx * ptf_x p) (sy * ptf_y p))))%Q.
Proof. unfold Transform.mapF, Transform.scale. simpl. split; ring. Qed.

(** C4. paintSingleTileFeature_Polygon leaves the painter with a brush of
    the resolved fill colour whose alpha is multiplied by the resolved fill
    opacity and with no pen, and it has drawn, with that brush and no pen, one
    more path: the path of the feature mapped through the incoming transform
    scaled by 1/4096, so that every point [(x, y)] of the feature is drawn at
    the image of [(x / 4096, y / 4096)] under the incoming transform. *)
Theorem paintSingleTileFeature_Polygon_fill (details : PaintingDetailsPolygon)
    (painter : QPainter) :
  let layerStyle := polygon_layerStyle details in
  let feature := polygon_base (polygon_feature details) in
  let mapZoom := polygon_mapZoom details in
  let vpZoom := polygon_vpZoom details in
  let color := toColor (resolved (getFillColorAtZoom layerStyle mapZoom) feature mapZoom vpZoom) in
  let opacity :=
    toFloat (resolved (getFillOpacityAtZoom layerStyle mapZoom) feature mapZoom vpZoom) in
  let brush := SolidBrush (mkQColor (red color) (green color) (blue color)
                                    (opacity * alphaF color)) in
  let newPath :=
    Path.map (Transform.scale (1 / 4096) (1 / 4096) (polygon_transformIn details))
             (polygon (polygon_feature details)) in
  let painter' := paintSingleTileFeature_Polygon details painter in
  painter_brush painter' = brush /\
  painter_pen painter' = NoPen /\
  painter_drawn painter' =
    painter_drawn painter ++ [mkDrawCall newPath brush NoPen (m_antialias layerStyle)] /\
  Forall2
    (fun e e' =>
       el_type e' = el_type e /\
       (ptf_x (el_point e')
          == ptf_x (Transform.mapF (polygon_transformIn details)
                      (mkQPointF (ptf_x (el_point e) / 4096) (ptf_y (el_point e) / 4096))))%Q /\
       (ptf_y (el_point e')
          == ptf_y (Transform.mapF (polygon_transformIn details)
                      (mkQPointF (ptf_x (el_point e) / 4096) (ptf_y (el_point e) / 4096))))%Q)
    (polygon (polygon_feature details)) newPath.
Proof.
  cbv zeta. unfold paintSingleTileFeature_Polygon. rewrite getFillColor_resolved.
  repeat split.
  unfold Path.map. induction (polygon (polygon_feature details)) as [|e path IH].
  - constructor.
  - simpl. constructor; [|exact IH]. split; [reflexivity|].
    destruct (mapF_scale (polygon_transformIn details) (1 / 4096) (1 / 4096) (el_point e))
      as [Hx Hy].
    simpl in *. split.
    + rewrite Hx. unfold Transform.mapF. simpl. field.
    + rewrite Hy. unfold Transform.mapF. simpl. field.
Qed.

End PolygonFacts.

(** ** Word wrap *)

Section WordWrapFacts.
Context {qt : QtApi}.

(** A part of a split contains no separator. *)
Lemma split_no_separator (sep : QChar) (s part : QString) :
  In part (Str.split sep s) -> ~ In sep (Str.chars part).
Proof.
  revert part. induction s as [|c rest IH]; intros part Hin.
  - simpl in Hin. destruct Hin as [<-|[]]. simpl. tauto.
  - simpl in Hin. destruct (Ascii.eqb_spec c sep) as [->|Hne].
    + destruct Hin as [<-|Hin]; [simpl; tauto|now apply IH].
    + destruct (Str.split sep rest) as [|w ws] eqn:E.
      * destruct Hin as [<-|[]]. simpl. intros [H|[]]. congruence.
      * destruct Hin as [<-|Hin].
        -- simpl. intros [H|H]; [congruence|]. apply (IH w); [now left|exact H].
        -- apply IH. now right.
Qed.

(** The loop of getCorrectedText keeps this invariant: a line is no wider
    than the limit, or it is a word of the text standing alone. *)
Lemma wrapWords_lines (font : QFont) (limit : Z) (all words : list QString)
    (currentCluster : QString) (wordClusters : list QString) :
  let fits line := horizontalAdvance font line <= limit \/ In line all in
  incl words all -> fits currentCluster -> Forall fits wordClusters ->
  Forall fits (wrapWords font limit words currentCluster wordClusters).
Proof.
  cbv zeta. revert currentCluster wordClusters.
  induction words as [|word rest IH]; intros cur acc Hincl Hcur Hacc; simpl.
  - apply List.Forall_app. split; [assumption|]. constructor; [assumption|constructor].
  - assert (Hrest : incl rest all) by (intros w Hw; apply Hincl; now right).
    destruct (Z.ltb_spec limit (horizontalAdvance font (cur +:+ " " +:+ word))) as [Hwide|Hfit].
    + apply IH; [assumption| |].
      * right. apply Hincl. now left.
      * apply List.Forall_app. split; [assumption|]. constructor; [assumption|constructor].
    + apply IH; [assumption| |assumption]. now left.
Qed.

(** C5 (amended). When the width limit [maxTextWidth * pixelSize] is
    representable, every line of the word wrap has a horizontal advance of
    at most that limit, or it is a single word of the text (a part of the
    split at spaces, containing no space) that is wider than the limit and
    is kept unbroken on a line of its own. *)
Theorem getCorrectedText_lines (text : QString) (font : QFont) (maxTextWidth : Z)
    (line : QString) :
  int_range (pixelSize font * maxTextWidth) ->
  In line (getCorrectedText text font maxTextWidth) ->
  horizontalAdvance font line <= maxTextWidth * pixelSize font \/
  (maxTextWidth * pixelSize font < horizontalAdvance font line /\
   In line (Str.split " "%char text) /\ ~ In " "%char (Str.chars line)).
Proof.
  intros Hfit Hin.
  destruct (Z.le_gt_cases (horizontalAdvance font line) (maxTextWidth * pixelSize font))
    as [Hle|Hgt]; [now left|right].
  split; [lia|].
  assert (Hword : In line (Str.split " "%char text)).
  { unfold getCorrectedText in Hin. rewrite (wrap32_id _ Hfit) in Hin.
    destruct (Z.leb_spec (horizontalAdvance font text) (pixelSize font * maxTextWidth))
      as [Hshort|Hlong].
    - destruct Hin as [<-|[]]. lia.
    - destruct (Str.split " "%char text) as [|first words] eqn:E; [destruct Hin|].
      pose proof (wrapWords_lines font (pixelSize font * maxTextWidth)
                    (first :: words) words first []) as Hinv.
      cbv zeta in Hinv.
      specialize (Hinv ltac:(intros w Hw; now right) ltac:(right; now left)
                       ltac:(constructor)).
      destruct (proj1 (List.Forall_forall _ _) Hinv line Hin) as [Hle|Hw]; [lia|exact Hw]. }
  split; [exact Hword|]. now apply (split_no_separator _ text).
Qed.

End WordWrapFacts.

(** The second line of a place name wrapped at 80 pixels. *)
Lemma getCorrectedText_lines_witness :
  @horizontalAdvance Sample.qt (mkQFont "Open Sans" 10) "name of" <= 8 * 10 \/
  (8 * 10 < @horizontalAdvance Sample.qt (mkQFont "Open Sans" 10) "name of" /\
   In "name of" (Str.split " "%char "a long name of a place") /\
   ~ In " "%char (Str.chars "name of")).
Proof.
  apply (@getCorrectedText_lines Sample.qt "a long name of a place"
           (mkQFont "Open Sans" 10) 8 "name of").
  - unfold int_range. simpl. lia.
  - vm_compute. tauto.
Defined.

(** C5 as stated fails: with glyphs 10 pixels wide, a font of 10 pixels and
    a maximum width of 8, the limit is 80 pixels, and the single word of 20
    letters is returned on one line of 200 pixels. *)
Lemma getCorrectedText_long_word :
  @getCorrectedText Sample.qt "Supercalifragilistic" (mkQFont "Open Sans" 10) 8
    = ["Supercalifragilistic"] /\
  ~ (@horizontalAdvance Sample.qt (mkQFont "Open Sans" 10) "Supercalifragilistic"
       <= 8 * 10).
Proof. split; [reflexivity|]. vm_compute. intros H. now apply H. Qed.

(** ** Rectangles *)

Lemma span_ordered (a1 a2 : Z) : a1 <= a2 -> Rect.span a1 a2 = (a1, a2).
Proof. intros H. unfold Rect.span. destruct (Z.ltb_spec a2 (a1 - 1)); [lia|reflexivity]. Qed.

(** Two rectangles of at least one pixel intersect exactly when they have a
    pixel in common. *)
Lemma intersects_common_pixel (a b : QRect) :
  Rect.valid a -> Rect.valid b ->
  (Rect.intersects a b = true <-> exists px py, Rect.covers a px py /\ Rect.covers b px py).
Proof.
  intros [Hax Hay] [Hbx Hby]. unfold Rect.intersects, Rect.isNull, Rect.covers.
  rewrite !span_ordered by assumption.
  destruct (Z.eqb_spec (x2 a) (x1 a - 1)); [lia|].
  destruct (Z.eqb_spec (x2 b) (x1 b - 1)); [lia|]. simpl.
  destruct (Z.ltb_spec (x2 b) (x1 a)), (Z.ltb_spec (x2 a) (x1 b)),
           (Z.ltb_spec (y2 b) (y1 a)), (Z.ltb_spec (y2 a) (y1 b)); simpl;
    split; try discriminate; try reflexivity;
    try (intros (px & py & ? & ?); lia).
  intros _. exists (Z.max (x1 a) (x1 b)), (Z.max (y1 a) (y1 b)). lia.
Qed.

(** Which of two rectangles is asked about the other does not matter. *)
Lemma intersects_sym (a b : QRect) : Rect.intersects a b = Rect.intersects b a.
Proof.
  unfold Rect.intersects. rewrite (orb_comm (Rect.isNull a)).
  destruct (Rect.isNull b || Rect.isNull a); [reflexivity|].
  destruct (Rect.span (x1 a) (x2 a)) as [l1 r1], (Rect.span (x1 b) (x2 b)) as [l2 r2],
           (Rect.span (y1 a) (y2 a)) as [t1 b1], (Rect.span (y1 b) (y2 b)) as [t2 b2].
  rewrite (orb_comm (r2 <? l1)), (orb_comm (b2 <? t1)). reflexivity.
Qed.

(** ** Collision avoidance *)

Section CollisionFacts.
Context {qt : QtApi} {ev : EvaluatorApi}.

Lemma isOverlapping_false (r : QRect) (rects : list QRect) :
  isOverlapping r rects = false <-> disjointFromAll r rects.
Proof.
  unfold disjointFromAll. induction rects as [|r0 rest IH]; simpl.
  - split; [constructor|reflexivity].
  - destruct (Rect.intersects r0 r) eqn:E.
    + split; [discriminate|]. intros H. inversion H; subst. congruence.
    + rewrite IH. split.
      * intros H. now constructor.
      * intros H. now inversion H.
Qed.

Lemma isOverlapping_true (r : QRect) (rects : list QRect) :
  isOverlapping r rects = true <->
  exists earlier, In earlier rects /\ Rect.intersects earlier r = true.
Proof.
  induction rects as [|r0 rest IH]; simpl.
  - split; [discriminate|]. intros (e & [] & _).
  - destruct (Rect.intersects r0 r) eqn:E.
    + split; [|reflexivity]. intros _. exists r0. auto.
    + rewrite IH. split.
      * intros (e & Hin & He). exists e. auto.
      * intros (e & [<-|Hin] & He); [congruence|]. exists e. auto.
Qed.

(** Appending a rectangle that intersects none of the list keeps the list
    free of overlaps. *)
Lemma noKeptOverlap_app (rects : list QRect) (r : QRect) :
  noKeptOverlap rects -> disjointFromAll r rects -> noKeptOverlap (rects ++ [r]).
Proof.
  unfold noKeptOverlap, disjointFromAll. intros Hrects Hr.
  induction Hrects as [|r0 rest Hr0 Hrest IH]; simpl.
  - constructor; constructor.
  - inversion Hr; subst. constructor.
    + apply List.Forall_app. split; [assumption|]. constructor; [assumption|constructor].
    + now apply IH.
Qed.

Lemma keptOrDropped_noKeptOverlap {A : Type} (rects rects' : list QRect)
    (labels labels' : list A) :
  keptOrDropped rects labels rects' labels' -> noKeptOverlap rects -> noKeptOverlap rects'.
Proof.
  intros [[-> _]|(r & e & -> & _ & Hr)] Hrects; [assumption|].
  now apply noKeptOverlap_app.
Qed.

(** processSimpleText drops the label when its rectangle intersects one of
    the list, and else appends the rectangle and one render entry. *)
Lemma processSimpleText_collision (text : QString) (coordinate : QPoint) (outlineSize : Z)
    (outlineColor : QColor) (textFont : QFont) (rects : list QRect)
    (feature : PointFeature) (layerStyle : SymbolLayerStyle) (mapZoom : Z) (vpZoom : Q)
    (tileOriginX tileOriginY : Z) (vpTextList : list vpGlobalText) :
  let globalRect :=
    simpleGlobalRect text coordinate outlineSize textFont tileOriginX tileOriginY in
  let result :=
    processSimpleText text coordinate outlineSize outlineColor textFont rects feature
                      layerStyle mapZoom vpZoom tileOriginX tileOriginY vpTextList in
  ((exists earlier, In earlier rects /\ Rect.intersects earlier globalRect = true) ->
   result = (rects, vpTextList)) /\
  (disjointFromAll globalRect rects ->
   exists entry,
     result = (rects ++ [globalRect], vpTextList ++ [entry]) /\ text_texts entry = [text]).
Proof.
  cbv zeta. unfold processSimpleText. split.
  - intros H. apply isOverlapping_true in H. now rewrite H.
  - intros H. apply isOverlapping_false in H. rewrite H. eexists. split; reflexivity.
Qed.

Lemma processSimpleText_keptOrDropped (text : QString) (coordinate : QPoint)
    (outlineSize : Z) (outlineColor : QColor) (textFont : QFont) (rects : list QRect)
    (feature : PointFeature) (layerStyle : SymbolLayerStyle) (mapZoom : Z) (vpZoom : Q)
    (tileOriginX tileOriginY : Z) (vpTextList : list vpGlobalText) (rects' : list QRect)
    (vpTextList' : list vpGlobalText) :
  processSimpleText text coordinate outlineSize outlineColor textFont rects feature
                    layerStyle mapZoom vpZoom tileOriginX tileOriginY vpTextList
    = (rects', vpTextList') ->
  keptOrDropped rects vpTextList rects' vpTextList'.
Proof.
  unfold processSimpleText.
  destruct (isOverlapping _ rects) eqn:E; intros [= <- <-].
  - now left.
  - right. do 2 eexists. repeat split. now apply isOverlapping_false.
Qed.

Lemma processCompositeText_keptOrDropped (texts : list QString) (coordinates : QPoint)
    (outlineSize : Z) (outlineColor : QColor) (textFont : QFont) (rects : list QRect)
    (feature : PointFeature) (layerStyle : SymbolLayerStyle) (mapZoom : Z) (vpZoom : Q)
    (tileOriginX tileOriginY : Z) (vpTextList : list vpGlobalText) (rects' : list QRect)
    (vpTextList' : list vpGlobalText) :
  processCompositeText texts coordinates outlineSize outlineColor textFont rects feature
                       layerStyle mapZoom vpZoom tileOriginX tileOriginY vpTextList
    = Some (rects', vpTextList') ->
  keptOrDropped rects vpTextList rects' vpTextList'.
Proof.
  unfold processCompositeText.
  destruct (compositeLines _ _ _ _ _ _ _ _ _) as [paths pts].
  destruct paths as [|first others]; [discriminate|].
  destruct (isOverlapping _ rects) eqn:E; intros [= <- <-].
  - now left.
  - right. do 2 eexists. repeat split. now apply isOverlapping_false.
Qed.

Lemma placePointLabel_keptOrDropped (coordinates : QPoint) (correctedText : list QString)
    (outlineSize : Z) (outlineColor : QColor) (textFont : QFont)
    (details : PaintingDetailsPoint) (tileSize tileOriginX tileOriginY : Z)
    (rects : list QRect) (vpTextList : list vpGlobalText) (rects' : list QRect)
    (vpTextList' : list vpGlobalText) :
  placePointLabel coordinates correctedText outlineSize outlineColor textFont details
                  tileSize tileOriginX tileOriginY rects vpTextList
    = Some (rects', vpTextList') ->
  keptOrDropped rects vpTextList rects' vpTextList'.
Proof.
  unfold placePointLabel.
  destruct (_ || _); [intros [= <- <-]; now left|].
  destruct correctedText as [|text [|text' more]].
  - apply processCompositeText_keptOrDropped.
  - intros [= H]. revert H. apply processSimpleText_keptOrDropped.
  - apply processCompositeText_keptOrDropped.
Qed.

Lemma processSingleTileFeature_Point_unfold (details : PaintingDetailsPoint)
    (tileSize tileOriginX tileOriginY : Z) (forceNoChangeFontType : bool)
    (painter : QPainter) (rects : list QRect) (vpTextList : list vpGlobalText) :
  processSingleTileFeature_Point details tileSize tileOriginX tileOriginY
                                 forceNoChangeFontType painter rects vpTextList =
  if String.eqb (pointTextToDraw details) "" then Some (painter, (rects, vpTextList))
  else
    match pointAnchor (points (point_feature details)) with
    | None => None
    | Some coordinates =>
        option_map (pair (pointPainter details painter))
          (placePointLabel coordinates
             (getCorrectedText (pointTextToDraw details)
                (pointTextFont details forceNoChangeFontType painter)
                (toInt (m_textMaxWidth (point_layerStyle details))))
             (toInt (m_textHaloWidth (point_layerStyle details)))
             (toColor (m_textHaloColor (point_layerStyle details)))
             (pointTextFont details forceNoChangeFontType painter)
             details tileSize tileOriginX tileOriginY rects vpTextList)
    end.
Proof.
  unfold processSingleTileFeature_Point, pointTextToDraw, pointTextFont, pointPainter.
  destruct (String.eqb _ ""); [reflexivity|].
  destruct (pointAnchor _); [|reflexivity].
  destruct (placePointLabel _ _ _ _ _ _ _ _ _ _ _); reflexivity.
Qed.

Lemma processSingleTileFeature_Point_keptOrDropped (details : PaintingDetailsPoint)
    (tileSize tileOriginX tileOriginY : Z) (forceNoChangeFontType : bool)
    (painter : QPainter) (rects : list QRect) (vpTextList : list vpGlobalText)
    (painter' : QPainter) (rects' : list QRect) (vpTextList' : list vpGlobalText) :
  processSingleTileFeature_Point details tileSize tileOriginX tileOriginY
                                 forceNoChangeFontType painter rects vpTextList
    = Some (painter', (rects', vpTextList')) ->
  keptOrDropped rects vpTextList rects' vpTextList'.
Proof.
  rewrite processSingleTileFeature_Point_unfold.
  destruct (String.eqb _ ""); [intros [= _ <- <-]; now left|].
  destruct (pointAnchor _) as [coordinates|]; [|discriminate].
  destruct (placePointLabel _ _ _ _ _ _ _ _ _ _ _) as [[r l]|] eqn:E; [|discriminate].
  intros [= _ <- <-]. revert E. apply placePointLabel_keptOrDropped.
Qed.

Lemma processSingleTileFeature_Point_Curved_keptOrDropped
    (details : PaintingDetailsPointCurved) (tileSize tileOriginX tileOriginY : Z)
    (rects : list QRect) (vpCurvedTextList : list vpGlobalCurvedText) :
  keptOrDropped rects vpCurvedTextList
    (fst (processSingleTileFeature_Point_Curved details tileSize tileOriginX tileOriginY
            rects vpCurvedTextList))
    (snd (processSingleTileFeature_Point_Curved details tileSize tileOriginX tileOriginY
            rects vpCurvedTextList)).
Proof.
  unfold processSingleTileFeature_Point_Curved.
  destruct (Str.toUpper _) as [|firstChar more]; [now left|].
  destruct (Qlt_bool _ _); [now left|].
  destruct (placeGlyphs _ _ _ _ _ _ _ _ _ _ _) as [[charsVector textRect]|]; [|now left].
  destruct (isOverlapping _ rects) eqn:E; [now left|].
  right. do 2 eexists. repeat split. now apply isOverlapping_false.
Qed.

(** In every state of a collision pass no kept rectangle intersects one kept
    after it, and there is one rectangle for every queued label. *)
Lemma collisionPass_invariant (rects : list QRect) (vpTextList : list vpGlobalText)
    (vpCurvedTextList : list vpGlobalCurvedText) :
  collisionPass rects vpTextList vpCurvedTextList ->
  noKeptOverlap rects /\
  length rects = (length vpTextList + length vpCurvedTextList)%nat.
Proof.
  induction 1 as [|? ? ? ? ? ? ? ? ? ? ? ? Hpass [IHover IHlen] Hrun
                  |? ? ? ? ? ? ? ? ? Hpass [IHover IHlen] Hrun].
  - split; [constructor|reflexivity].
  - apply processSingleTileFeature_Point_keptOrDropped in Hrun.
    split; [eapply keptOrDropped_noKeptOverlap; eassumption|].
    destruct Hrun as [[-> ->]|(r & e & -> & -> & _)]; [assumption|].
    rewrite !length_app. simpl. lia.
  - pose proof (processSingleTileFeature_Point_Curved_keptOrDropped
                  details tileSize tileOriginX tileOriginY rects vpCurvedTextList) as Hstep.
    rewrite Hrun in Hstep. simpl in Hstep.
    split; [eapply keptOrDropped_noKeptOverlap; eassumption|].
    destruct Hstep as [[-> ->]|(r & e & -> & -> & _)]; [assumption|].
    rewrite !length_app. simpl. lia.
Qed.

(** C2. Whatever processSingleTileFeature_Point (simple and composite
    labels) and processSingleTileFeature_Point_Curved (curved labels) do to
    the rectangle list and to their render list is one of two things: both
    lists stay as they were (the label is dropped entirely), or the world
    rectangle of the label is appended to the one and its render entry to the
    other, and that rectangle intersects none of the rectangles kept before.
    Hence in every state of a collision pass no kept rectangle intersects one
    kept after it. *)
Theorem kept_labels_do_not_intersect
    (details : PaintingDetailsPoint) (curved : PaintingDetailsPointCurved)
    (tileSize tileOriginX tileOriginY : Z) (forceNoChangeFontType : bool)
    (painter : QPainter) (rects : list QRect)
    (vpTextList : list vpGlobalText) (vpCurvedTextList : list vpGlobalCurvedText) :
  (forall painter' rects' vpTextList',
     processSingleTileFeature_Point details tileSize tileOriginX tileOriginY
                                    forceNoChangeFontType painter rects vpTextList
       = Some (painter', (rects', vpTextList')) ->
     keptOrDropped rects vpTextList rects' vpTextList') /\
  (forall rects' vpCurvedTextList',
     processSingleTileFeature_Point_Curved curved tileSize tileOriginX tileOriginY
                                           rects vpCurvedTextList
       = (rects', vpCurvedTextList') ->
     keptOrDropped rects vpCurvedTextList rects' vpCurvedTextList') /\
  (collisionPass rects vpTextList vpCurvedTextList -> noKeptOverlap rects).
Proof.
  split; [|split].
  - intros painter' rects' vpTextList'.
    apply processSingleTileFeature_Point_keptOrDropped.
  - intros rects' vpCurvedTextList' Hrun.
    pose proof (processSingleTileFeature_Point_Curved_keptOrDropped
                  curved tileSize tileOriginX tileOriginY rects vpCurvedTextList) as Hstep.
    rewrite Hrun in Hstep. exact Hstep.
  - intros Hpass. now apply collisionPass_invariant in Hpass.
Qed.

(** ** Labels that are skipped *)

(** C7. When the resolved text content is the empty string,
    processSingleTileFeature_Point returns with the painter, the rectangle
    list and the text list as they were, and
    processSingleTileFeature_Point_Curved with the rectangle list and the
    curved-text list as they were. *)
Theorem empty_text_is_skipped
    (details : PaintingDetailsPoint) (curved : PaintingDetailsPointCurved)
    (tileSize tileOriginX tileOriginY : Z) (forceNoChangeFontType : bool)
    (painter : QPainter) (rects : list QRect)
    (vpTextList : list vpGlobalText) (vpCurvedTextList : list vpGlobalCurvedText) :
  (pointTextToDraw details = "" ->
   processSingleTileFeature_Point details tileSize tileOriginX tileOriginY
                                  forceNoChangeFontType painter rects vpTextList
     = Some (painter, (rects, vpTextList))) /\
  (curvedContent curved = "" ->
   processSingleTileFeature_Point_Curved curved tileSize tileOriginX tileOriginY
                                         rects vpCurvedTextList
     = (rects, vpCurvedTextList)).
Proof.
  split.
  - intros Hempty. rewrite processSingleTileFeature_Point_unfold, Hempty. reflexivity.
  - unfold curvedContent, processSingleTileFeature_Point_Curved. intros ->. reflexivity.
Qed.

(** C8. For a point feature with a text to draw, the anchor the label is
    laid out at is the point at index 1 when the feature has more than one
    point, and the point at index 0 when it has exactly one. *)
Theorem point_label_anchor
    (details : PaintingDetailsPoint) (tileSize tileOriginX tileOriginY : Z)
    (forceNoChangeFontType : bool) (painter : QPainter) (rects : list QRect)
    (vpTextList : list vpGlobalText) (anchor : QPoint) :
  pointTextToDraw details <> "" ->
  (1 < length (points (point_feature details)))%nat /\
    nth_error (points (point_feature details)) 1 = Some anchor \/
  length (points (point_feature details)) = 1%nat /\
    nth_error (points (point_feature details)) 0 = Some anchor ->
  pointAnchor (points (point_feature details)) = Some anchor /\
  processSingleTileFeature_Point details tileSize tileOriginX tileOriginY
                                 forceNoChangeFontType painter rects vpTextList =
  option_map (pair (pointPainter details painter))
    (placePointLabel anchor
       (getCorrectedText (pointTextToDraw details)
          (pointTextFont details forceNoChangeFontType painter)
          (toInt (m_textMaxWidth (point_layerStyle details))))
       (toInt (m_textHaloWidth (point_layerStyle details)))
       (toColor (m_textHaloColor (point_layerStyle details)))
       (pointTextFont details forceNoChangeFontType painter)
       details tileSize tileOriginX tileOriginY rects vpTextList).
Proof.
  intros Htext Hpoints.
  assert (Hanchor : pointAnchor (points (point_feature details)) = Some anchor).
  { unfold pointAnchor. destruct Hpoints as [[Hlen Hnth]|[Hlen Hnth]].
    - destruct (Z.ltb_spec 1 (Z.of_nat (length (points (point_feature details))))); [assumption|lia].
    - rewrite Hlen. exact Hnth. }
  split; [exact Hanchor|].
  rewrite processSingleTileFeature_Point_unfold, Hanchor.
  destruct (String.eqb_spec (pointTextToDraw details) ""); [contradiction|reflexivity].
Qed.

(** C9. When the anchor of a point feature, mapped into the tile by the
    scale [tileSize / 4096], has [x] or [y] below 0 or above [tileSize],
    processSingleTileFeature_Point returns with the rectangle list and the
    text list as they were. *)
Theorem label_outside_tile_is_dropped
    (details : PaintingDetailsPoint) (tileSize tileOriginX tileOriginY : Z)
    (forceNoChangeFontType : bool) (painter : QPainter) (rects : list QRect)
    (vpTextList : list vpGlobalText) (anchor : QPoint) :
  pointAnchor (points (point_feature details)) = Some anchor ->
  pt_x (Transform.map (tileTransform tileSize) anchor) < 0 \/
  tileSize < pt_x (Transform.map (tileTransform tileSize) anchor) \/
  pt_y (Transform.map (tileTransform tileSize) anchor) < 0 \/
  tileSize < pt_y (Transform.map (tileTransform tileSize) anchor) ->
  exists painter',
    processSingleTileFeature_Point details tileSize tileOriginX tileOriginY
                                   forceNoChangeFontType painter rects vpTextList
      = Some (painter', (rects, vpTextList)).
Proof.
  intros Hanchor Hout.
  rewrite processSingleTileFeature_Point_unfold, Hanchor.
  destruct (String.eqb _ ""); [eexists; reflexivity|].
  unfold placePointLabel.
  set (newCoordinates := Transform.map (tileTransform tileSize) anchor) in *.
  replace ((pt_x newCoordinates <? 0) || (tileSize <? pt_x newCoordinates) ||
           (pt_y newCoordinates <? 0) || (tileSize <? pt_y newCoordinates)) with true.
  - eexists. reflexivity.
  - symmetry. rewrite !orb_true_iff, !Z.ltb_lt. tauto.
Qed.

End CollisionFacts.

(** ** Curved labels *)


Lemma toUpperChar_idempotent (c : QChar) :
  Str.toUpperChar (Str.toUpperChar c) = Str.toUpperChar c.
Proof. destruct c as [[] [] [] [] [] [] [] []]; reflexivity. Qed.

Lemma chars_toUpper (s : QString) :
  Str.chars (Str.toUpper s) = List.map Str.toUpperChar (Str.chars s).
Proof. induction s as [|c rest IH]; simpl; [reflexivity|]. now rewrite <- IH. Qed.

Section CurvedFacts.
Context {qt : QtApi} {ev : EvaluatorApi}.




(** The glyphs committed by the loop are the characters it was given, in
    their order. *)
Lemma placeGlyphs_characters (path : QPainterPath) (font : QFont) (spacing : Q)
    (maxAngle : Z) (flipText : bool) (chars : list QChar) (length percentage preAngle : Q)
    (charsVector charsVector' : list singleCurvedTextCharacter) (textRect textRect' : QRect) :
  placeGlyphs path font spacing maxAngle flipText chars length percentage preAngle
              charsVector textRect = Some (charsVector', textRect') ->
  List.map character charsVector' = List.map character charsVector ++ chars.
Proof.
  revert length percentage preAngle charsVector textRect.
  induction chars as [|c rest IH]; intros length percentage preAngle charsVector textRect;
    cbn [placeGlyphs].
  - intros [= <- _]. now rewrite app_nil_r.
  - destruct (Qlt_bool _ _); [discriminate|]. intros Hrun. apply IH in Hrun.
    rewrite Hrun, List.map_app. simpl. now rewrite <- app_assoc.
Qed.

Lemma wrap32_in_range (z : Z) : int_range (wrap32 z).
Proof.
  unfold int_range, wrap32.
  pose proof (Z.mod_pos_bound (z + 2 ^ 31) (2 ^ 32) ltac:(lia)). lia.
Qed.

Lemma wrap32_add_l (a b : Z) : wrap32 (wrap32 a + b) = wrap32 (a + b).
Proof.
  unfold wrap32. f_equal.
  replace ((a + 2 ^ 31) mod 2 ^ 32 - 2 ^ 31 + b + 2 ^ 31)
    with ((a + 2 ^ 31) mod 2 ^ 32 + b) by lia.
  rewrite Zplus_mod_idemp_l. f_equal. lia.
Qed.

(** A sum accumulated in an [int] is the sum, wrapped once. *)
Lemma fold_left_wrap32 {A : Type} (f : A -> Z) (l : list A) (a : Z) :
  int_range a ->
  fold_left (fun total w => wrap32 (total + f w)) l a
    = wrap32 (a + list_sum_Z (List.map f l)).
Proof.
  revert a. induction l as [|w rest IH]; intros a Ha; simpl.
  - rewrite Z.add_0_r. symmetry. now apply wrap32_id.
  - rewrite IH by apply wrap32_in_range. rewrite wrap32_add_l. f_equal. lia.
Qed.

Lemma list_sum_Z_cons (a : Z) (l : list Z) : list_sum_Z (a :: l) = a + list_sum_Z l.
Proof. reflexivity. Qed.

(** The words of a text hold its characters but the spaces, and there is
    one word more than there are spaces. *)
Lemma split_space_sizes (s : QString) :
  list_sum_Z (List.map Str.size (Str.split " "%char s)) = countLetters s /\
  Z.of_nat (length (Str.split " "%char s)) = countSpaces s + 1.
Proof.
  unfold countLetters, countSpaces, Str.size, Str.chars.
  induction s as [|c rest [IHsum IHlen]]; [split; reflexivity|].
  cbn [Str.split String.list_ascii_of_string String.length count_occ].
  destruct (Ascii.eqb_spec c " "%char) as [->|Hne].
  - destruct (ascii_dec " " " ") as [_|Hne]; [|congruence].
    cbn [List.map length String.length]. rewrite list_sum_Z_cons. split; lia.
  - destruct (ascii_dec c " ") as [Heq|_]; [congruence|].
    destruct (Str.split " "%char rest) as [|w ws]; [simpl in IHlen; lia|].
    cbn [List.map length String.length] in *. rewrite list_sum_Z_cons in *. split; lia.
Qed.

Lemma list_sum_Z_add {A : Type} (f g : A -> Z) (l : list A) :
  list_sum_Z (List.map (fun w => f w + g w) l)
    = list_sum_Z (List.map f l) + list_sum_Z (List.map g l).
Proof. induction l as [|w rest IH]; simpl; lia. Qed.

Lemma list_sum_Z_scale {A : Type} (k : Z) (f : A -> Z) (l : list A) :
  list_sum_Z (List.map (fun w => k * f w) l) = k * list_sum_Z (List.map f l).
Proof. induction l as [|w rest IH]; simpl; lia. Qed.

(** calctotalTextHorizontalAdvance computes the total advance of the text,
    wrapped to an [int]. *)
Lemma calctotalTextHorizontalAdvance_total (font : QFont) (text : QString)
    (letterSpacing : Z) :
  calctotalTextHorizontalAdvance font text letterSpacing
    = wrap32 (totalAdvance font text letterSpacing).
Proof.
  unfold calctotalTextHorizontalAdvance, totalAdvance.
  rewrite (fold_left_wrap32
             (fun word => horizontalAdvance font word + letterSpacing * Str.size word))
    by (unfold int_range; lia).
  rewrite wrap32_add_l, list_sum_Z_add, list_sum_Z_scale.
  destruct (split_space_sizes text) as [-> ->]. f_equal. lia.
Qed.


(** C10. The characters of a curved label that is queued are those of the
    resolved text content converted to upper case, first to last, or last to
    first when the text is flipped; each of them occurs in the upper-cased
    string and is its own upper-case form. *)
Theorem curved_label_is_upper_case
    (details : PaintingDetailsPointCurved) (tileSize tileOriginX tileOriginY : Z)
    (rects : list QRect) (vpCurvedTextList : list vpGlobalCurvedText) :
  let upper := Str.chars (Str.toUpper (curvedContent details)) in
  let queued :=
    snd (processSingleTileFeature_Point_Curved details tileSize tileOriginX tileOriginY
           rects vpCurvedTextList) in
  queued = vpCurvedTextList \/
  exists entry,
    queued = vpCurvedTextList ++ [entry] /\
    List.map character (curved_textList entry)
      = (if curvedFlipText details then rev upper else upper) /\
    Forall (fun glyph => In (character glyph) upper /\
                         Str.toUpperChar (character glyph) = character glyph)
           (curved_textList entry).
Proof.
  cbv zeta.
  unfold curvedFlipText, curvedPath, curvedContent, processSingleTileFeature_Point_Curved.
  destruct (Str.toUpper _) as [|firstChar more] eqn:Etext; [now left|].
  destruct (Qlt_bool _ _); [now left|].
  destruct (placeGlyphs _ _ _ _ _ _ _ _ _ _ _) as [[charsVector textRect]|] eqn:Erun;
    [|now left].
  destruct (isOverlapping _ rects); [now left|].
  right. eexists. split; [reflexivity|]. cbn [snd curved_textList].
  apply placeGlyphs_characters in Erun. cbn [List.map app] in Erun.
  split; [exact Erun|].
  apply List.Forall_forall. intros glyph Hglyph.
  assert (Hin : In (character glyph) (Str.chars (String firstChar more))).
  { apply (List.in_map character) in Hglyph. rewrite Erun in Hglyph.
    destruct (isTextFlipped _); [now apply List.in_rev in Hglyph|exact Hglyph]. }
  split; [exact Hin|].
  rewrite <- Etext, chars_toUpper in Hin. apply List.in_map_iff in Hin as (c & <- & _).
  apply toUpperChar_idempotent.
Qed.

End CurvedFacts.

(** ** The properties on examples *)

(** Scenario S6: two point labels one pixel apart (16 tile units in a tile
    of 256 pixels) with the text LONGWORD in a font of 16 pixels.  The first
    is queued; the second is dropped. *)
Example S6_first_label_kept :
  option_map (fun r => (fst (snd r), List.map text_texts (snd (snd r))))
    (@processSingleTileFeature_Point Sample.qt Sample.evaluator
       (Sample.pointLabel "LONGWORD" [mkQPoint 2048 2048] 16 10) 256 0 0 false
       Sample.painter [] [])
  = Some ([mkQRect 63 119 192 136], [["LONGWORD"]]).
Proof. vm_compute. reflexivity. Qed.

Example S6_second_label_dropped :
  option_map snd
    (@processSingleTileFeature_Point Sample.qt Sample.evaluator
       (Sample.pointLabel "LONGWORD" [mkQPoint 2064 2048] 16 10) 256 0 0 false
       Sample.painter [mkQRect 63 119 192 136] [])
  = Some ([mkQRect 63 119 192 136], []).
Proof. vm_compute. reflexivity. Qed.

(** A path with a right angle after 30 pixels: the label is given up at the
    glyph behind the corner. *)
Example curved_label_at_corner :
  @processSingleTileFeature_Point_Curved Sample.qt Sample.evaluator
    (Sample.lineLabel "Main st" [mkQPointF 0 0; mkQPointF 30 0; mkQPointF 30 100] 10)
    256 0 0 [] []
  = ([], []).
Proof. vm_compute. reflexivity. Qed.

Example curved_label_on_straight_path :
  List.map (fun entry => List.map character (curved_textList entry))
    (snd (@processSingleTileFeature_Point_Curved Sample.qt Sample.evaluator
            (Sample.lineLabel "Main st" [mkQPointF 0 0; mkQPointF 200 0] 10)
            256 0 0 [] []))
  = [["M"; "A"; "I"; "N"; " "; "S"; "T"]%char].
Proof. vm_compute. reflexivity. Qed.

(** The second label of scenario S6 is dropped, and the pass starts without
    overlaps. *)
Lemma kept_labels_do_not_intersect_witness :
  keptOrDropped [mkQRect 63 119 192 136] (@nil vpGlobalText)
                [mkQRect 63 119 192 136] (@nil vpGlobalText) /\
  @noKeptOverlap [].
Proof.
  split.
  - apply (proj1 (@kept_labels_do_not_intersect Sample.qt Sample.evaluator
                    (Sample.pointLabel "LONGWORD" [mkQPoint 2064 2048] 16 10)
                    (Sample.lineLabel "Main st" [mkQPointF 0 0; mkQPointF 200 0] 10)
                    256 0 0 false Sample.painter [mkQRect 63 119 192 136] [] [])
                 (@pointPainter Sample.qt Sample.evaluator
                    (Sample.pointLabel "LONGWORD" [mkQPoint 2064 2048] 16 10)
                    Sample.painter)).
    vm_compute. reflexivity.
  - apply (proj2 (proj2 (@kept_labels_do_not_intersect Sample.qt Sample.evaluator
                    (Sample.pointLabel "LONGWORD" [mkQPoint 2064 2048] 16 10)
                    (Sample.lineLabel "Main st" [mkQPointF 0 0; mkQPointF 200 0] 10)
                    256 0 0 false Sample.painter [] [] []))).
    apply pass_start.
Defined.

(** Features without the metadata entry the style names have no text. *)
Lemma empty_text_is_skipped_witness :
  @processSingleTileFeature_Point Sample.qt Sample.evaluator
    (mkPaintingDetailsPoint (Sample.symbolStyle 16 10)
       (mkPointFeature (mkFeature FeaturePoint ∅) [mkQPoint 2048 2048]) 2 2)
    256 0 0 false Sample.painter [] []
  = Some (Sample.painter, ([], [])) /\
  @processSingleTileFeature_Point_Curved Sample.qt Sample.evaluator
    (mkPaintingDetailsPointCurved (Sample.symbolStyle 16 10)
       (mkLineFeature (mkFeature FeatureLine ∅) []) 2 2 Transform.identity)
    256 0 0 [] []
  = ([], []).
Proof.
  destruct (@empty_text_is_skipped Sample.qt Sample.evaluator
              (mkPaintingDetailsPoint (Sample.symbolStyle 16 10)
                 (mkPointFeature (mkFeature FeaturePoint ∅) [mkQPoint 2048 2048]) 2 2)
              (mkPaintingDetailsPointCurved (Sample.symbolStyle 16 10)
                 (mkLineFeature (mkFeature FeatureLine ∅) []) 2 2 Transform.identity)
              256 0 0 false Sample.painter [] [] []) as [Hpoint Hcurved].
  split; [apply Hpoint|apply Hcurved]; reflexivity.
Defined.

(** The anchor of a feature with three points and of one with a single
    point. *)
Lemma point_label_anchor_witness :
  @pointAnchor [mkQPoint 0 0; mkQPoint 2048 2048; mkQPoint 4096 4096]
    = Some (mkQPoint 2048 2048) /\
  @pointAnchor [mkQPoint 2048 2048] = Some (mkQPoint 2048 2048).
Proof.
  split.
  - apply (@point_label_anchor Sample.qt Sample.evaluator
             (Sample.pointLabel "LONGWORD"
                [mkQPoint 0 0; mkQPoint 2048 2048; mkQPoint 4096 4096] 16 10)
             256 0 0 false Sample.painter [] [] (mkQPoint 2048 2048)).
    + vm_compute. discriminate.
    + left. split; [simpl; lia|reflexivity].
  - apply (@point_label_anchor Sample.qt Sample.evaluator
             (Sample.pointLabel "LONGWORD" [mkQPoint 2048 2048] 16 10)
             256 0 0 false Sample.painter [] [] (mkQPoint 2048 2048)).
    + vm_compute. discriminate.
    + right. split; reflexivity.
Defined.

(** A point at tile coordinate 4200 is mapped to pixel 263 of a tile of 256
    pixels. *)
Lemma label_outside_tile_is_dropped_witness :
  exists painter',
    @processSingleTileFeature_Point Sample.qt Sample.evaluator
      (Sample.pointLabel "LONGWORD" [mkQPoint 4200 2048] 16 10) 256 0 0 false
      Sample.painter [] []
    = Some (painter', ([], [])).
Proof.
  apply (@label_outside_tile_is_dropped Sample.qt Sample.evaluator
           (Sample.pointLabel "LONGWORD" [mkQPoint 4200 2048] 16 10) 256 0 0 false
           Sample.painter [] [] (mkQPoint 4200 2048)).
  - reflexivity.
  - right. left. vm_compute. reflexivity.
Defined.


(** C3 (code bug). The label "MAIN ST" with a letter spacing of 2.5 pixels
    has a total advance of 85 pixels: seven glyphs of 10 pixels and the
    spacing after each of the six letters.  Its path is 82.2 pixels long and
    straight.  The claim has the label given up; the code queues it with all
    its glyphs, the last of them at arc length 72.5: the length is tested
    against calctotalTextHorizontalAdvance, whose parameter of type [int]
    takes the letter spacing as 2 and which returns 82. *)
Lemma curved_label_longer_than_its_path_is_queued :
  (@pathLength Sample.qt (@curvedPath SampleSpacing.mainSt)
   < @specTotalAdvance Sample.qt
       (@curvedTextFont Sample.qt Sample.evaluator SampleSpacing.mainSt)
       (@curvedSpacing Sample.qt Sample.evaluator SampleSpacing.mainSt)
       (@curvedTextToDraw Sample.qt Sample.evaluator SampleSpacing.mainSt))%Q /\
  (@pathLength Sample.qt (@curvedPath SampleSpacing.mainSt) == 822 # 10)%Q /\
  (@specTotalAdvance Sample.qt
     (@curvedTextFont Sample.qt Sample.evaluator SampleSpacing.mainSt)
     (@curvedSpacing Sample.qt Sample.evaluator SampleSpacing.mainSt)
     (@curvedTextToDraw Sample.qt Sample.evaluator SampleSpacing.mainSt) == 85)%Q /\
  @calctotalTextHorizontalAdvance Sample.qt
    (@curvedTextFont Sample.qt Sample.evaluator SampleSpacing.mainSt)
    (@curvedTextToDraw Sample.qt Sample.evaluator SampleSpacing.mainSt)
    (to_int (@curvedSpacing Sample.qt Sample.evaluator SampleSpacing.mainSt)) = 82 /\
  List.map (fun entry => List.map character (curved_textList entry))
    (snd (@processSingleTileFeature_Point_Curved Sample.qt Sample.evaluator
            SampleSpacing.mainSt 256 0 0 [] []))
    = [["M"; "A"; "I"; "N"; " "; "S"; "T"]%char] /\
  List.map (fun entry => List.map (fun glyph => ptf_x (position glyph))
                                  (curved_textList entry))
    (snd (@processSingleTileFeature_Point_Curved Sample.qt Sample.evaluator
            SampleSpacing.mainSt 256 0 0 [] []))
    = [[0; 25 # 2; 25; 75 # 2; 50; 60; 145 # 2]%Q] /\
  length (fst (@processSingleTileFeature_Point_Curved Sample.qt Sample.evaluator
                 SampleSpacing.mainSt 256 0 0 [] [])) = 1%nat.
Proof. vm_compute. repeat split. Qed.

(** The grid bounds at map zoom 2 and at the negative map zoom -1. *)
Lemma calcVisibleTiles_grid_bounds_witness :
  (forall t, In t (@calcVisibleTiles pow_integral binary64 (1 # 2) (1 # 2) 1 2 2) ->
             in_grid 2 t) /\
  (forall t, In t (@calcVisibleTiles pow_integral binary64 (1 # 2) (1 # 2) 1 2 (-1)) ->
             t = mkTileCoord 0 0 0).
Proof.
  split.
  - exact (proj1 (@calcVisibleTiles_grid_bounds pow_integral binary64 (1 # 2) (1 # 2) 1 2 2
                    ltac:(lia))).
  - exact (proj2 (proj2 (@calcVisibleTiles_grid_bounds pow_integral binary64
                           (1 # 2) (1 # 2) 1 2 (-1) ltac:(lia)) ltac:(lia))).
Defined.



Example S4_run_exact :
  @calcVisibleTiles pow_integral exact_arith (1 # 2) (1 # 2) 1 2 2
  = @calcVisibleTiles pow_integral binary64 (1 # 2) (1 # 2) 1 2 2.
Proof. vm_compute. reflexivity. Qed.




(** * Properties of the rest of the code *)

(** ** Lists of tile coordinates *)

Lemma NoDup_int_range_list (lo hi : Z) : NoDup (int_range_list lo hi).
Proof.
  unfold int_range_list.
  assert (Hinj : Inj eq eq (fun k : nat => lo + Z.of_nat k)) by (intros i j H; lia).
  apply (NoDup_fmap_2 _), NoDup_seq.
Qed.

Lemma length_int_range_list (lo hi : Z) :
  length (int_range_list lo hi) = Z.to_nat (hi - lo + 1).
Proof. unfold int_range_list. now rewrite List.length_map, List.length_seq. Qed.

(** A list built row by row has no element twice when the rows have none and
    no element lies in two rows. *)
Lemma NoDup_flat_map {A B : Type} (row : A -> list B) (l : list A) :
  NoDup l -> (forall a, NoDup (row a)) ->
  (forall a b e, In e (row a) -> In e (row b) -> a = b) ->
  NoDup (flat_map row l).
Proof.
  intros Hl Hrow Hsep. induction Hl as [|a rest Hnotin Hrest IH]; simpl.
  - constructor.
  - apply NoDup_app. split; [apply Hrow|]. split; [|exact IH].
    intros e Hin Hin'. apply list_elem_of_In, in_flat_map in Hin' as (b & Hb & Hin').
    apply list_elem_of_In in Hin.
    rewrite (Hsep a b e Hin Hin') in Hnotin. now apply Hnotin, list_elem_of_In.
Qed.

Lemma length_flat_map_constant {A B : Type} (row : A -> list B) (l : list A) (n : nat) :
  (forall a, length (row a) = n) -> length (flat_map row l) = (length l * n)%nat.
Proof.
  intros Hrow. induction l as [|a rest IH]; simpl; [reflexivity|].
  rewrite List.length_app, Hrow, IH. reflexivity.
Qed.

(** X1. genTileCoordList lists exactly the tiles of the given zoom with
    [minX <= x < maxX] and [minY <= y < maxY], each of them once; the list is
    empty when one of the ranges is. *)
Theorem genTileCoordList_spec (zoomLevel minX maxX minY maxY : Z) :
  (forall t, In t (genTileCoordList zoomLevel minX maxX minY maxY) <->
             zoom t = zoomLevel /\ minX <= x t < maxX /\ minY <= y t < maxY) /\
  NoDup (genTileCoordList zoomLevel minX maxX minY maxY) /\
  length (genTileCoordList zoomLevel minX maxX minY maxY)
    = (Z.to_nat (maxX - minX) * Z.to_nat (maxY - minY))%nat.
Proof.
  unfold genTileCoordList. split; [|split].
  - intros t. rewrite in_flat_map. split.
    + intros (x0 & Hx & Hin). apply in_map_iff in Hin as (y0 & <- & Hy).
      apply In_int_range_list in Hx, Hy. simpl. lia.
    + intros (Hz & Hx & Hy). exists (x t). split; [apply In_int_range_list; lia|].
      apply in_map_iff. exists (y t). split; [|apply In_int_range_list; lia].
      destruct t; simpl in *; now subst.
  - apply NoDup_flat_map.
    + apply NoDup_int_range_list.
    + intros x0.
      assert (Hinj : Inj eq eq (fun y0 => mkTileCoord zoomLevel x0 y0))
        by (intros i j H; now inversion H).
      apply (NoDup_fmap_2 _), NoDup_int_range_list.
    + intros x0 x0' t Hin Hin'.
      apply in_map_iff in Hin as (? & <- & _). apply in_map_iff in Hin' as (? & H & _).
      now inversion H.
  - rewrite (length_flat_map_constant _ _ (Z.to_nat (maxY - minY))).
    + rewrite length_int_range_list. f_equal. lia.
    + intros x0. rewrite List.length_map, length_int_range_list. f_equal. lia.
Qed.

(** ** The arithmetic of IEEE 754

    Rounding to the nearest [double] keeps the order, leaves a [double] as it
    is, and commutes with the scaling by a power of two. *)

Lemma roundHalfEven_mono (n1 d1 n2 d2 : Z) :
  0 < d1 -> 0 < d2 -> n1 * d2 <= n2 * d1 ->
  roundHalfEven n1 d1 <= roundHalfEven n2 d2.
Proof.
  intros Hd1 Hd2 Hle. unfold roundHalfEven.
  pose proof (Z.div_mod n1 d1 ltac:(lia)) as E1.
  pose proof (Z.div_mod n2 d2 ltac:(lia)) as E2.
  pose proof (Z.mod_pos_bound n1 d1 Hd1) as B1.
  pose proof (Z.mod_pos_bound n2 d2 Hd2) as B2.
  set (q1 := n1 / d1) in *. set (r1 := n1 mod d1) in *.
  set (q2 := n2 / d2) in *. set (r2 := n2 mod d2) in *.
  assert (Hq : q1 <= q2).
  { assert (H1 : q1 * (d1 * d2) <= n1 * d2) by nia.
    assert (H2 : n2 * d1 < (q2 + 1) * (d1 * d2)) by nia.
    assert (H3 : q1 * (d1 * d2) < (q2 + 1) * (d1 * d2)) by lia.
    apply Z.mul_lt_mono_pos_r in H3; nia. }
  destruct (Z.eq_dec q1 q2) as [Heq|Hne].
  - assert (Hr : r1 * d2 <= r2 * d1) by nia.
    rewrite Heq.
    destruct (Z.compare_spec (2 * r1) d1), (Z.compare_spec (2 * r2) d2);
      destruct (Z.even q2); try lia; exfalso; nia.
  - destruct (Z.compare_spec (2 * r1) d1), (Z.compare_spec (2 * r2) d2);
      destruct (Z.even q1), (Z.even q2); lia.
Qed.

Lemma roundHalfEvenQ_mono (a b : Q) : (a <= b)%Q -> roundHalfEvenQ a <= roundHalfEvenQ b.
Proof. intros H. apply roundHalfEven_mono; [lia|lia|exact H]. Qed.

Lemma roundHalfEvenQ_comp (a b : Q) : (a == b)%Q -> roundHalfEvenQ a = roundHalfEvenQ b.
Proof.
  intros H. apply Z.le_antisymm; apply roundHalfEvenQ_mono; rewrite H; apply Qle_refl.
Qed.

Lemma roundHalfEvenQ_inject_Z (z : Z) : roundHalfEvenQ (inject_Z z) = z.
Proof.
  unfold roundHalfEvenQ, roundHalfEven. cbn [Qnum Qden inject_Z].
  rewrite Z.div_1_r, Z.mod_1_r. reflexivity.
Qed.

Lemma pow2_pos (e : Z) : (0 < pow2 e)%Q.
Proof. apply Qpower_0_lt. reflexivity. Qed.

Lemma pow2_add (a b : Z) : (pow2 (a + b) == pow2 a * pow2 b)%Q.
Proof. apply Qpower_plus. discriminate. Qed.

Lemma pow2_le (a b : Z) : a <= b -> (pow2 a <= pow2 b)%Q.
Proof. intros H. apply Qpower_le_compat_l; [exact H|discriminate]. Qed.

Lemma pow2_inject_Z (e : Z) : 0 <= e -> (pow2 e == inject_Z (2 ^ e))%Q.
Proof. intros H. symmetry. apply (Zpower_Qpower 2 e H). Qed.

Lemma pow2_opp_r (e : Z) : (pow2 e * pow2 (- e) == 1)%Q.
Proof. rewrite <- pow2_add. now rewrite Z.add_opp_diag_r. Qed.

Lemma pow2_lt_le (a b : Z) : (pow2 a < pow2 (b + 1))%Q -> a <= b.
Proof.
  intros H. destruct (Z_le_gt_dec a b) as [|Hgt]; [assumption|].
  exfalso. apply (Qlt_not_le _ _ H). apply pow2_le. lia.
Qed.

Lemma Qnum_pos (q : Q) : (0 < q)%Q <-> 0 < Qnum q.
Proof. unfold Qlt. cbn [Qnum Qden]. lia. Qed.

Lemma exponent_spec (q : Q) :
  (0 < q)%Q -> (pow2 (exponent q) <= q < pow2 (exponent q + 1))%Q.
Proof.
  intros Hq. destruct q as [n d]. apply Qnum_pos in Hq. cbn [Qnum] in Hq.
  unfold exponent. cbn [Qnum Qden].
  destruct (Z.log2_spec n Hq) as [Hn1 Hn2].
  destruct (Z.log2_spec (Zpos d) ltac:(lia)) as [Hd1 Hd2].
  pose proof (Z.log2_nonneg n) as Hln. pose proof (Z.log2_nonneg (Zpos d)) as Hld.
  set (ln := Z.log2 n) in *. set (ld := Z.log2 (Zpos d)) in *.
  assert (Hdq : (0 < inject_Z (Zpos d))%Q) by reflexivity.
  assert (Hnd : ((n # d) * inject_Z (Zpos d) == inject_Z n)%Q).
  { unfold Qeq, Qmult, inject_Z. cbn [Qnum Qden]. lia. }
  assert (Hup : (n # d < pow2 (ln - ld + 1))%Q).
  { apply (Qmult_lt_r _ _ _ Hdq). rewrite Hnd.
    apply Qlt_le_trans with (pow2 (Z.succ ln)).
    - rewrite pow2_inject_Z by lia. now rewrite <- Zlt_Qlt.
    - apply Qle_trans with (pow2 (ln - ld + 1) * pow2 ld)%Q.
      + rewrite <- pow2_add. apply pow2_le. lia.
      + apply Qmult_le_l; [apply pow2_pos|].
        rewrite pow2_inject_Z by lia. now rewrite <- Zle_Qle. }
  assert (Hlow : (pow2 (ln - ld - 1) <= n # d)%Q).
  { apply (Qmult_le_r _ _ _ Hdq). rewrite Hnd.
    apply Qle_trans with (pow2 ln).
    - apply Qle_trans with (pow2 (ln - ld - 1) * pow2 (Z.succ ld))%Q.
      + apply Qmult_le_l; [apply pow2_pos|].
        rewrite pow2_inject_Z by lia. rewrite <- Zle_Qle. lia.
      + rewrite <- pow2_add. apply pow2_le. lia.
    - rewrite pow2_inject_Z by lia. now rewrite <- Zle_Qle. }
  destruct (Qle_bool (pow2 (ln - ld)) (n # d)) eqn:Htest.
  - apply Qle_bool_iff in Htest. split; assumption.
  - split; [assumption|].
    replace (ln - ld - 1 + 1) with (ln - ld) by lia.
    apply Qnot_le_lt. intros H. apply Qle_bool_iff in H. congruence.
Qed.

Lemma exponent_unique (q : Q) (k : Z) :
  (pow2 k <= q < pow2 (k + 1))%Q -> exponent q = k.
Proof.
  intros [H1 H2].
  assert (Hq : (0 < q)%Q) by (eapply Qlt_le_trans; [apply (pow2_pos k)|exact H1]).
  destruct (exponent_spec q Hq) as [E1 E2].
  apply Z.le_antisymm; apply pow2_lt_le; eapply Qle_lt_trans; eassumption.
Qed.

Lemma exponent_le (q1 q2 : Q) : (0 < q1)%Q -> (q1 <= q2)%Q -> exponent q1 <= exponent q2.
Proof.
  intros H1 Hle.
  assert (H2 : (0 < q2)%Q) by (eapply Qlt_le_trans; eassumption).
  destruct (exponent_spec q1 H1) as [E1 _]. destruct (exponent_spec q2 H2) as [_ E2].
  apply pow2_lt_le. eapply Qle_lt_trans; [|exact E2]. eapply Qle_trans; eassumption.
Qed.

(** The significand lies between [2^52] and [2^53]. *)
Lemma significand_bounds (q : Q) :
  (0 < q)%Q ->
  2 ^ 52 <= roundHalfEvenQ (q * pow2 (- (exponent q - 52))) <= 2 ^ 53.
Proof.
  intros Hq. destruct (exponent_spec q Hq) as [E1 E2].
  set (k := exponent q) in *.
  pose proof (pow2_pos (- (k - 52))) as Hp.
  split.
  - rewrite <- (roundHalfEvenQ_inject_Z (2 ^ 52)). apply roundHalfEvenQ_mono.
    rewrite <- pow2_inject_Z by lia.
    apply Qle_trans with (pow2 k * pow2 (- (k - 52)))%Q.
    + rewrite <- pow2_add. apply pow2_le. lia.
    + now apply Qmult_le_r.
  - rewrite <- (roundHalfEvenQ_inject_Z (2 ^ 53)). apply roundHalfEvenQ_mono.
    rewrite <- pow2_inject_Z by lia.
    apply Qle_trans with (pow2 (k + 1) * pow2 (- (k - 52)))%Q.
    + apply Qlt_le_weak. now apply Qmult_lt_r.
    + rewrite <- pow2_add. apply pow2_le. lia.
Qed.

Lemma round_positive_bounds (q : Q) :
  (0 < q)%Q ->
  (pow2 (exponent q) <= round_positive q <= pow2 (exponent q + 1))%Q.
Proof.
  intros Hq. destruct (significand_bounds q Hq) as [M1 M2].
  unfold round_positive. set (k := exponent q) in *.
  set (m := roundHalfEvenQ (q * pow2 (- (k - 52)))) in *.
  pose proof (pow2_pos (k - 52)) as Hp.
  split.
  - apply Qle_trans with (pow2 52 * pow2 (k - 52))%Q.
    + rewrite <- pow2_add. apply pow2_le. lia.
    + apply Qmult_le_r; [assumption|].
      rewrite pow2_inject_Z by lia. now rewrite <- Zle_Qle.
  - apply Qle_trans with (pow2 53 * pow2 (k - 52))%Q.
    + apply Qmult_le_r; [assumption|].
      rewrite pow2_inject_Z by lia. now rewrite <- Zle_Qle.
    + rewrite <- pow2_add. apply pow2_le. lia.
Qed.

Lemma round_positive_pos (q : Q) : (0 < q)%Q -> (0 < round_positive q)%Q.
Proof.
  intros Hq. eapply Qlt_le_trans; [apply (pow2_pos (exponent q))|].
  now apply round_positive_bounds.
Qed.

Lemma round_positive_mono (q1 q2 : Q) :
  (0 < q1)%Q -> (q1 <= q2)%Q -> (round_positive q1 <= round_positive q2)%Q.
Proof.
  intros H1 Hle.
  assert (H2 : (0 < q2)%Q) by (eapply Qlt_le_trans; eassumption).
  pose proof (exponent_le q1 q2 H1 Hle) as Hk.
  destruct (Z.eq_dec (exponent q1) (exponent q2)) as [Heq|Hne].
  - unfold round_positive. rewrite Heq.
    apply Qmult_le_r; [apply pow2_pos|].
    rewrite <- Zle_Qle. apply roundHalfEvenQ_mono.
    apply Qmult_le_r; [apply pow2_pos|exact Hle].
  - eapply Qle_trans; [apply (round_positive_bounds q1 H1)|].
    eapply Qle_trans; [|apply (round_positive_bounds q2 H2)].
    apply pow2_le. lia.
Qed.

Lemma Qnum_sign (q : Q) :
  match Qnum q with
  | Z0 => (q == 0)%Q
  | Zpos _ => (0 < q)%Q
  | Zneg _ => (0 < - q)%Q
  end.
Proof. destruct q as [[|p|p] d]; reflexivity. Qed.

(** Rounding to the nearest [double] keeps the order. *)
Lemma round_binary64_mono (q1 q2 : Q) :
  (q1 <= q2)%Q -> (round_binary64 q1 <= round_binary64 q2)%Q.
Proof.
  intros Hle. unfold round_binary64.
  pose proof (Qnum_sign q1) as S1. pose proof (Qnum_sign q2) as S2.
  destruct (Qnum q1), (Qnum q2); rewrite ?Qred_correct; try (exfalso; lra).
  - apply Qle_refl.
  - apply Qlt_le_weak. now apply round_positive_pos.
  - now apply round_positive_mono.
  - pose proof (round_positive_pos _ S1). lra.
  - pose proof (round_positive_pos _ S1). pose proof (round_positive_pos _ S2). lra.
  - apply Qopp_le_compat. apply round_positive_mono; [assumption|lra].
Qed.

Lemma round_positive_comp (q1 q2 : Q) :
  (0 < q1)%Q -> (q1 == q2)%Q -> (round_positive q1 == round_positive q2)%Q.
Proof.
  intros H1 Heq. assert (H2 : (0 < q2)%Q) by lra.
  apply Qle_antisym; apply round_positive_mono; lra.
Qed.

(** Scaling by a power of two commutes with rounding. *)
Lemma round_positive_scale (q : Q) (z : Z) :
  (0 < q)%Q -> (round_positive (q * pow2 z) == round_positive q * pow2 z)%Q.
Proof.
  intros Hq. destruct (exponent_spec q Hq) as [E1 E2].
  pose proof (pow2_pos z) as Hz.
  assert (Hk : exponent (q * pow2 z) = exponent q + z).
  { apply exponent_unique. split.
    - rewrite pow2_add. now apply Qmult_le_r.
    - replace (exponent q + z + 1) with ((exponent q + 1) + z) by lia.
      rewrite pow2_add. now apply Qmult_lt_r. }
  unfold round_positive. rewrite Hk. set (k := exponent q).
  assert (Hx : (q * pow2 z * pow2 (- (k + z - 52)) == q * pow2 (- (k - 52)))%Q).
  { replace (- (k + z - 52)) with (- z + - (k - 52)) by lia.
    rewrite pow2_add. pose proof (pow2_opp_r z) as Ho.
    rewrite <- (Qmult_1_r q) at 2. rewrite <- Ho. ring. }
  rewrite (roundHalfEvenQ_comp _ _ Hx).
  replace (k + z - 52) with ((k - 52) + z) by lia. rewrite pow2_add. ring.
Qed.

(** An integer of 53 bits is a [double]. *)
Lemma round_positive_significand (m : Z) :
  2 ^ 52 <= m <= 2 ^ 53 -> (round_positive (inject_Z m) == inject_Z m)%Q.
Proof.
  intros [H1 H2]. destruct (Z.eq_dec m (2 ^ 53)) as [->|Hne].
  - vm_compute. reflexivity.
  - assert (Hk : exponent (inject_Z m) = 52).
    { apply exponent_unique. rewrite !pow2_inject_Z by lia.
      rewrite <- Zle_Qle, <- Zlt_Qlt. change (52 + 1) with 53. lia. }
    unfold round_positive. rewrite Hk. change (- (52 - 52)) with 0.
    change (52 - 52) with 0. change (pow2 0) with 1%Q.
    rewrite (roundHalfEvenQ_comp _ (inject_Z m)) by ring.
    rewrite roundHalfEvenQ_inject_Z. ring.
Qed.

Lemma round_positive_idem (q : Q) :
  (0 < q)%Q -> (round_positive (round_positive q) == round_positive q)%Q.
Proof.
  intros Hq. pose proof (significand_bounds q Hq) as Hm.
  unfold round_positive at 2 3.
  set (m := roundHalfEvenQ _) in *. set (e := exponent q - 52).
  assert (Hmq : (0 < inject_Z m)%Q).
  { change 0%Q with (inject_Z 0). rewrite <- Zlt_Qlt. lia. }
  rewrite round_positive_scale by assumption.
  now rewrite round_positive_significand.
Qed.

Lemma round_binary64_pos (q : Q) :
  (0 < q)%Q -> (round_binary64 q == round_positive q)%Q.
Proof.
  intros Hq. unfold round_binary64. pose proof (Qnum_sign q) as S.
  destruct (Qnum q); rewrite ?Qred_correct; try reflexivity; exfalso; lra.
Qed.

Lemma round_binary64_neg (q : Q) :
  (q < 0)%Q -> (round_binary64 q == - round_positive (- q))%Q.
Proof.
  intros Hq. unfold round_binary64. pose proof (Qnum_sign q) as S.
  destruct (Qnum q); rewrite ?Qred_correct; try reflexivity; exfalso; lra.
Qed.

Lemma round_binary64_zero (q : Q) : (q == 0)%Q -> (round_binary64 q == 0)%Q.
Proof.
  intros Hq. unfold round_binary64. pose proof (Qnum_sign q) as S.
  destruct (Qnum q); rewrite ?Qred_correct; try reflexivity; exfalso; lra.
Qed.

Lemma round_binary64_comp (q1 q2 : Q) :
  (q1 == q2)%Q -> (round_binary64 q1 == round_binary64 q2)%Q.
Proof. intros H. apply Qle_antisym; apply round_binary64_mono; lra. Qed.

(** A [double] is rounded to itself. *)
Lemma round_binary64_idem (q : Q) :
  (round_binary64 (round_binary64 q) == round_binary64 q)%Q.
Proof.
  destruct (Q_dec q 0) as [[Hneg|Hpos]|Hz].
  - assert (Hq : (0 < - q)%Q) by lra.
    pose proof (round_positive_pos _ Hq) as Hr.
    rewrite (round_binary64_comp _ _ (round_binary64_neg q Hneg)).
    rewrite (round_binary64_neg q Hneg).
    rewrite round_binary64_neg by lra.
    apply Qopp_comp.
    rewrite (round_positive_comp (- - round_positive (- q)) (round_positive (- q)))
      by (try lra; apply Qopp_involutive).
    now apply round_positive_idem.
  - pose proof (round_positive_pos _ Hpos) as Hr.
    rewrite (round_binary64_comp _ _ (round_binary64_pos q Hpos)).
    rewrite (round_binary64_pos q Hpos).
    rewrite round_binary64_pos by assumption.
    now apply round_positive_idem.
  - rewrite (round_binary64_comp _ _ (round_binary64_zero q Hz)).
    rewrite (round_binary64_zero q Hz). reflexivity.
Qed.

(** The product of a [double] with a power of two is a [double]: the
    exponent is not bounded. *)
Lemma round_binary64_scale (q : Q) (z : Z) :
  (round_binary64 (q * pow2 z) == round_binary64 q * pow2 z)%Q.
Proof.
  pose proof (pow2_pos z) as Hz.
  destruct (Q_dec q 0) as [[Hneg|Hpos]|Hzero].
  - assert (Hq : (0 < - q)%Q) by lra.
    assert (Hp : (q * pow2 z < 0)%Q).
    { pose proof (Qmult_lt_0_compat _ _ Hq Hz) as H.
      assert (E : (- q * pow2 z == - (q * pow2 z))%Q) by ring.
      rewrite E in H. lra. }
    rewrite (round_binary64_neg _ Hp), (round_binary64_neg _ Hneg).
    rewrite (round_positive_comp (- (q * pow2 z)) (- q * pow2 z)) by (try lra; ring).
    rewrite round_positive_scale by assumption. ring.
  - pose proof (Qmult_lt_0_compat _ _ Hpos Hz) as Hp.
    rewrite (round_binary64_pos _ Hp), (round_binary64_pos _ Hpos).
    now apply round_positive_scale.
  - rewrite (round_binary64_zero q Hzero).
    rewrite round_binary64_zero; [ring|]. rewrite Hzero. ring.
Qed.

Lemma round_binary64_scale_exact (q : Q) (z : Z) :
  (round_binary64 (round_binary64 q * pow2 z) == round_binary64 q * pow2 z)%Q.
Proof. now rewrite round_binary64_scale, round_binary64_idem. Qed.

Lemma round_binary64_scale_int (q : Q) (z : Z) :
  0 <= z ->
  (round_binary64 (round_binary64 q * inject_Z (2 ^ z))
   == round_binary64 q * inject_Z (2 ^ z))%Q.
Proof.
  intros Hz.
  rewrite (round_binary64_comp _ (round_binary64 q * pow2 z))
    by (now rewrite pow2_inject_Z).
  rewrite round_binary64_scale_exact. now rewrite pow2_inject_Z.
Qed.

(** Exact arithmetic keeps the order, and so does the arithmetic of
    IEEE 754. *)
Lemma exact_arith_monotone : @monotone_arith exact_arith.
Proof.
  unfold monotone_arith. cbn [dsub dadd dmul exact_arith]. split.
  - intros v e He. lra.
  - intros v w n Hn Hvw. now apply Qmult_le_compat_r.
Qed.

Lemma binary64_monotone : @monotone_arith binary64.
Proof.
  unfold monotone_arith. cbn [dsub dadd dmul binary64]. split.
  - intros v e He. apply round_binary64_mono. lra.
  - intros v w n Hn Hvw. apply round_binary64_mono. now apply Qmult_le_compat_r.
Qed.

(** In the arithmetic of IEEE 754 the four bounds of the viewport are scaled
    by the tile count without rounding, whatever the viewport. *)
Lemma binary64_scaling_exact {libm : LibM} (vpX vpY a zv : Q) (zm : Z) :
  0 <= zm -> @scaling_exact libm binary64 vpX vpY a zv zm.
Proof.
  intros Hzm. unfold scaling_exact, vpMinNormX, vpMaxNormX, vpMinNormY, vpMaxNormY.
  cbn [dsub dadd dmul binary64].
  repeat split; now apply round_binary64_scale_int.
Qed.

(** ** More on the visible tiles *)

Section MoreVisibleTilesFacts.
Context {libm : LibM} {arith : DoubleArith}.

Lemma clamp_max_min (v hi : Z) : 0 <= hi -> clamp v 0 hi = Z.max 0 (Z.min hi v).
Proof.
  intros Hhi. unfold clamp.
  destruct (Z.ltb_spec v 0); [lia|]. destruct (Z.ltb_spec hi v); lia.
Qed.

(** X2. For a map zoom up to 30 and a viewport whose scaled bounds fit in
    [int], calcVisibleTiles returns exactly the tiles of zoom [z = max(zm, 0)]
    whose column lies between the floor of [vpMinNormX * 2^z] and the ceiling
    of [vpMaxNormX * 2^z], both pulled into [0, 2^z - 1], and whose row lies
    between the same bounds taken for [vpMinNormY] and [vpMaxNormY]; the
    bounds and the products are those the code computes in [double]
    arithmetic, whatever its rounding. *)
Theorem calcVisibleTiles_index_ranges (vpX vpY a zv : Q) (zm : Z) (t : TileCoord) :
  zm <= 30 -> conversions_fit vpX vpY a zv (Z.max zm 0) ->
  let z := Z.max zm 0 in
  let n := inject_Z (2 ^ z) in
  let pull v := Z.max 0 (Z.min (2 ^ z - 1) v) in
  In t (calcVisibleTiles vpX vpY a zv zm) <->
  zoom t = z /\
  pull (Qfloor (dmul (vpMinNormX vpX a zv) n)) <= x t
    <= pull (Qceiling (dmul (vpMaxNormX vpX a zv) n)) /\
  pull (Qfloor (dmul (vpMinNormY vpY a zv) n)) <= y t
    <= pull (Qceiling (dmul (vpMaxNormY vpY a zv) n)).
Proof.
  intros Hzm (Hf1 & Hc1 & Hf2 & Hc2). cbv zeta.
  rewrite calcVisibleTiles_In. cbv zeta. rewrite qMaxInt_max, (Z.max_comm 0 zm).
  destruct (tileCount_exact (Z.max zm 0)) as (Hn & Hn1 & Hpos); [lia|].
  rewrite Hn, Hn1. unfold floor, ceil.
  rewrite !to_int_inject_Z by assumption.
  rewrite !clamp_max_min by lia. reflexivity.
Qed.

(** X3. For a map zoom up to 30 and a viewport of non-negative extents whose
    scaled bounds fit in [int], calcVisibleTiles returns at least one tile,
    wherever the viewport lies: its bounds are pulled into the grid.  The
    rounding of the arithmetic has to keep the order, as exact arithmetic
    and that of IEEE 754 do ([exact_arith_monotone], [binary64_monotone]);
    the extents are the half sizes as the code computes them. *)
Theorem calcVisibleTiles_never_empty (vpX vpY a zv : Q) (zm : Z) :
  monotone_arith ->
  zm <= 30 -> conversions_fit vpX vpY a zv (Z.max zm 0) ->
  (0 <= halfWidthNorm a zv)%Q -> (0 <= halfHeightNorm a zv)%Q ->
  calcVisibleTiles vpX vpY a zv zm <> [].
Proof.
  intros (Hsub & Hmul) Hzm Hfit Hw Hh Hempty.
  destruct (tileCount_exact (Z.max zm 0)) as (_ & _ & Hpos); [lia|].
  assert (Hnq : (0 <= inject_Z (2 ^ Z.max zm 0))%Q).
  { change 0%Q with (inject_Z 0). rewrite <- Zle_Qle. lia. }
  assert (Hspan : forall c e : Q, (0 <= e)%Q ->
            Qfloor (dmul (dsub c e) (inject_Z (2 ^ Z.max zm 0)))
              <= Qceiling (dmul (dadd c e) (inject_Z (2 ^ Z.max zm 0)))).
  { intros c e He. rewrite Zle_Qle.
    eapply Qle_trans; [apply Qfloor_le|]. eapply Qle_trans; [|apply Qle_ceiling].
    apply Hmul; [exact Hnq|]. apply Hsub. exact He. }
  set (col := Z.max 0 (Z.min (2 ^ Z.max zm 0 - 1)
                (Qfloor (dmul (vpMinNormX vpX a zv) (inject_Z (2 ^ Z.max zm 0)))))).
  set (row := Z.max 0 (Z.min (2 ^ Z.max zm 0 - 1)
                (Qfloor (dmul (vpMinNormY vpY a zv) (inject_Z (2 ^ Z.max zm 0)))))).
  assert (Hin : In (mkTileCoord (Z.max zm 0) col row) (calcVisibleTiles vpX vpY a zv zm)).
  { destruct Hfit as (Hf1 & Hc1 & Hf2 & Hc2).
    destruct (tileCount_exact (Z.max zm 0)) as (Hn & Hn1 & _); [lia|].
    rewrite calcVisibleTiles_In. cbv zeta. rewrite qMaxInt_max, (Z.max_comm 0 zm).
    rewrite Hn, Hn1. unfold floor, ceil.
    rewrite !to_int_inject_Z by assumption. rewrite !clamp_max_min by lia.
    cbn [zoom x y].
    pose proof (Hspan vpX _ Hw) as Hcols. pose proof (Hspan vpY _ Hh) as Hrows.
    fold (vpMinNormX vpX a zv) (vpMaxNormX vpX a zv) in Hcols.
    fold (vpMinNormY vpY a zv) (vpMaxNormY vpY a zv) in Hrows.
    subst col row. lia. }
  rewrite Hempty in Hin. destruct Hin.
Qed.

(** X4. calcVisibleTiles lists no tile twice. *)
Theorem calcVisibleTiles_NoDup (vpX vpY a zv : Q) (zm : Z) :
  NoDup (calcVisibleTiles vpX vpY a zv zm).
Proof.
  unfold calcVisibleTiles. destruct (calcViewportSizeNorm zv a) as [w h].
  cbv zeta. apply NoDup_flat_map.
  - apply NoDup_int_range_list.
  - intros y0.
    assert (Hinj : Inj eq eq (fun x0 => mkTileCoord (qMaxInt 0 zm) x0 y0))
      by (intros i j H; now inversion H).
    apply (NoDup_fmap_2 _), NoDup_int_range_list.
  - intros y0 y0' t Hin Hin'.
    apply in_map_iff in Hin as (? & <- & _). apply in_map_iff in Hin' as (? & H & _).
    now inversion H.
Qed.

End MoreVisibleTilesFacts.

(** The viewport of scenario S4 moved far to the right of the world still
    gets the last column of tiles. *)
Lemma calcVisibleTiles_never_empty_witness :
  @calcVisibleTiles pow_integral binary64 5 (1 # 2) 1 2 2 <> [].
Proof.
  exact (@calcVisibleTiles_never_empty pow_integral binary64 5 (1 # 2) 1 2 2
           binary64_monotone
           ltac:(lia)
           ltac:(vm_compute; repeat split; discriminate)
           ltac:(vm_compute; discriminate)
           ltac:(vm_compute; discriminate)).
Defined.

(** Tile (2, 3, 1) is among the tiles of scenario S4. *)
Lemma calcVisibleTiles_index_ranges_witness :
  In (mkTileCoord 2 3 1) (@calcVisibleTiles pow_integral binary64 (1 # 2) (1 # 2) 1 2 2).
Proof.
  exact (proj2 (@calcVisibleTiles_index_ranges pow_integral binary64 (1 # 2) (1 # 2) 1 2 2
                  (mkTileCoord 2 3 1) ltac:(lia)
                  ltac:(vm_compute; repeat split; discriminate))
               ltac:(vm_compute; repeat split; discriminate)).
Defined.

(** ** The map zoom for a tile size *)

Section MapZoomFacts.
Context {libmlog : LibMLog} {zoomRange : ZoomRange}.

(** X5. With a non-negative [maxZoomLevel], the map zoom that
    calcMapZoomLevelForTileSizePixels returns lies between 0 and
    [maxZoomLevel], whatever the viewport, the zoom and the [log2] of libm
    are; and it depends on the larger side of the viewport only, so that
    width and height may be exchanged. *)
Theorem calcMapZoomLevelForTileSizePixels_range (vpWidth vpHeight : Z) (vpZoom : Q)
    (desiredTileWidth : Z) :
  0 <= maxZoomLevel ->
  0 <= calcMapZoomLevelForTileSizePixels vpWidth vpHeight vpZoom desiredTileWidth
    <= maxZoomLevel /\
  calcMapZoomLevelForTileSizePixels vpWidth vpHeight vpZoom desiredTileWidth
    = calcMapZoomLevelForTileSizePixels vpHeight vpWidth vpZoom desiredTileWidth.
Proof.
  intros Hmax. unfold calcMapZoomLevelForTileSizePixels. split.
  - now apply clamp_between.
  - rewrite !qMaxInt_max, (Z.max_comm vpWidth vpHeight). reflexivity.
Qed.

End MapZoomFacts.

(** At a viewport of 1024 by 768 pixels and zoom 3, tiles of 256 pixels are
    those of map zoom 5, whichever side is the larger one. *)
Lemma calcMapZoomLevelForTileSizePixels_range_witness :
  0 <= @calcMapZoomLevelForTileSizePixels log2_dyadic zoomRange16 1024 768 3 256 <= 16 /\
  @calcMapZoomLevelForTileSizePixels log2_dyadic zoomRange16 1024 768 3 256
    = @calcMapZoomLevelForTileSizePixels log2_dyadic zoomRange16 768 1024 3 256.
Proof.
  apply (@calcMapZoomLevelForTileSizePixels_range log2_dyadic zoomRange16 1024 768 3 256).
  simpl. lia.
Defined.

Example calcMapZoomLevelForTileSizePixels_run :
  @calcMapZoomLevelForTileSizePixels log2_dyadic zoomRange16 1024 768 3 256 = 5.
Proof. vm_compute. reflexivity. Qed.

(** ** More on the word wrap *)

Lemma append_cons (c : QChar) (s t : QString) : String c s +:+ t = String c (s +:+ t).
Proof. reflexivity. Qed.

Lemma append_assoc (s t u : QString) : (s +:+ t) +:+ u = s +:+ t +:+ u.
Proof.
  induction s as [|c s IH]; [reflexivity|]. rewrite !append_cons. now f_equal.
Qed.

Lemma split_not_nil (sep : QChar) (s : QString) : Str.split sep s <> [].
Proof.
  destruct s as [|c rest]; simpl; [discriminate|].
  destruct (Ascii.eqb c sep); [discriminate|].
  destruct (Str.split sep rest); discriminate.
Qed.

Lemma joinWith_cons (sep part : QString) (rest : list QString) :
  rest <> [] -> joinWith sep (part :: rest) = part +:+ sep +:+ joinWith sep rest.
Proof. destruct rest; [contradiction|reflexivity]. Qed.

(** Splitting at spaces and joining with spaces gives the text back. *)
Lemma joinWith_split (s : QString) : joinWith " " (Str.split " "%char s) = s.
Proof.
  induction s as [|c rest IH]; [reflexivity|].
  cbn [Str.split]. destruct (Ascii.eqb_spec c " "%char) as [->|Hne].
  - rewrite joinWith_cons by apply split_not_nil. now rewrite IH.
  - pose proof (split_not_nil " "%char rest) as Hnil.
    destruct (Str.split " "%char rest) as [|w ws]; [contradiction|].
    destruct ws as [|w' ws].
    + cbn [joinWith] in *. now rewrite IH.
    + rewrite joinWith_cons by discriminate. rewrite joinWith_cons in IH by discriminate.
      rewrite append_cons. now rewrite IH.
Qed.

(** Joining is not changed when two neighbours are first joined by the
    separator. *)
Lemma joinWith_merge (sep a b : QString) (before after : list QString) :
  joinWith sep (before ++ (a +:+ sep +:+ b) :: after)
    = joinWith sep (before ++ a :: b :: after).
Proof.
  induction before as [|p before IH].
  - cbn [app]. destruct after as [|q after]; [reflexivity|].
    rewrite !joinWith_cons by discriminate. now rewrite !append_assoc.
  - cbn [app]. rewrite !joinWith_cons by (destruct before; discriminate).
    now rewrite IH.
Qed.

Section MoreWordWrapFacts.
Context {qt : QtApi}.

Lemma wrapWords_join (font : QFont) (limit : Z) (words : list QString)
    (currentCluster : QString) (wordClusters : list QString) :
  joinWith " " (wrapWords font limit words currentCluster wordClusters)
    = joinWith " " (wordClusters ++ currentCluster :: words).
Proof.
  revert currentCluster wordClusters.
  induction words as [|word rest IH]; intros cur acc; cbn [wrapWords]; [reflexivity|].
  destruct (limit <? horizontalAdvance font (cur +:+ " " +:+ word)).
  - rewrite IH, <- app_assoc. reflexivity.
  - rewrite IH. apply joinWith_merge.
Qed.

Lemma wrapWords_not_nil (font : QFont) (limit : Z) (words : list QString)
    (currentCluster : QString) (wordClusters : list QString) :
  wrapWords font limit words currentCluster wordClusters <> [].
Proof.
  revert currentCluster wordClusters.
  induction words as [|word rest IH]; intros cur acc; cbn [wrapWords].
  - destruct acc; discriminate.
  - destruct (limit <? _); apply IH.
Qed.

Lemma getCorrectedText_not_nil (text : QString) (font : QFont) (rectWidth : Z) :
  getCorrectedText text font rectWidth <> [].
Proof.
  unfold getCorrectedText. destruct (_ <=? _); [discriminate|].
  pose proof (split_not_nil " "%char text).
  destruct (Str.split " "%char text); [contradiction|]. apply wrapWords_not_nil.
Qed.

(** X6. The word wrap loses nothing: it returns at least one line, the
    lines joined by single spaces are the text it was given, and a text that
    fits the width comes back as its only line. *)
Theorem getCorrectedText_keeps_text (text : QString) (font : QFont) (rectWidth : Z) :
  getCorrectedText text font rectWidth <> [] /\
  joinWith " " (getCorrectedText text font rectWidth) = text /\
  (horizontalAdvance font text <= wrap32 (pixelSize font * rectWidth) ->
   getCorrectedText text font rectWidth = [text]).
Proof.
  split; [apply getCorrectedText_not_nil|]. unfold getCorrectedText. split.
  - destruct (_ <=? _); [reflexivity|].
    pose proof (joinWith_split text) as Hjoin.
    destruct (Str.split " "%char text) as [|first words]; [exact Hjoin|].
    now rewrite wrapWords_join.
  - intros Hfits. destruct (Z.leb_spec (horizontalAdvance font text)
                                       (wrap32 (pixelSize font * rectWidth))); [reflexivity|lia].
Qed.

End MoreWordWrapFacts.

(** A place name wrapped at 80 pixels and joined again. *)
Lemma getCorrectedText_keeps_text_witness :
  @getCorrectedText Sample.qt "a b" (mkQFont "Open Sans" 10) 8 = ["a b"].
Proof.
  apply (@getCorrectedText_keeps_text Sample.qt "a b" (mkQFont "Open Sans" 10) 8).
  vm_compute. discriminate.
Defined.

(** ** More on the text of a label *)

Lemma remove_absent (c : QChar) (s : QString) :
  ~ In c (Str.chars s) -> Str.remove c s = s.
Proof.
  induction s as [|d rest IH]; [reflexivity|]. cbn [Str.remove Str.chars]. intros Hnot.
  destruct (Ascii.eqb_spec d c) as [->|Hne].
  - exfalso. apply Hnot. now left.
  - f_equal. apply IH. intros Hin. apply Hnot. now right.
Qed.

Lemma remove_append (c : QChar) (s t : QString) :
  Str.remove c (s +:+ t) = Str.remove c s +:+ Str.remove c t.
Proof.
  induction s as [|d rest IH]; [reflexivity|].
  rewrite append_cons. cbn [Str.remove]. destruct (Ascii.eqb d c); [exact IH|].
  rewrite append_cons. now f_equal.
Qed.

Lemma append_empty_r (s : QString) : s +:+ "" = s.
Proof. induction s as [|c rest IH]; [reflexivity|]. rewrite append_cons. now f_equal. Qed.

(** Removing the braces from the template of a key gives the key. *)
Lemma unbrace_template (key : QString) :
  ~ In "{"%char (Str.chars key) -> ~ In "}"%char (Str.chars key) ->
  Str.remove "}"%char (Str.remove "{"%char ("{" +:+ key +:+ "}")) = key.
Proof.
  intros Hopen Hclose.
  change ("{" +:+ key +:+ "}") with (String "{"%char (key +:+ "}")).
  change (Str.remove "{"%char (String "{"%char (key +:+ "}")))
    with (Str.remove "{"%char (key +:+ "}")).
  rewrite remove_append, (remove_absent _ _ Hopen).
  change (Str.remove "{"%char "}") with "}".
  rewrite remove_append, (remove_absent _ _ Hclose).
  change (Str.remove "}"%char "}") with "". apply append_empty_r.
Qed.

Section TextContentFacts.
Context {qt : QtApi} {ev : EvaluatorApi}.

(** X7. A text field that is null or invalid gives the empty text.  A
    text field that is the template [{key}], for a key without braces, gives
    the metadata entry [key] of the feature as a string, and the empty text
    when the feature has no such entry (here [toString] is assumed to give a
    string variant back as it is). *)
Theorem getTextContent_template (layerStyle : SymbolLayerStyle)
    (feature : AbstractLayerFeature) (mapZoom : Z) (vpZoom : Q) (key : QString) :
  (isNull (m_textField layerStyle) = true ->
   getTextContent layerStyle feature mapZoom vpZoom = "") /\
  (toString (VString ("{" +:+ key +:+ "}")) = "{" +:+ key +:+ "}" ->
   ~ In "{"%char (Str.chars key) -> ~ In "}"%char (Str.chars key) ->
   m_textField layerStyle = VString ("{" +:+ key +:+ "}") ->
   getTextContent layerStyle feature mapZoom vpZoom
     = match featureMetaData feature !! key with
       | Some value => toString value
       | None => ""
       end).
Proof.
  unfold getTextContent. split.
  - intros ->. reflexivity.
  - intros HtoString Hopen Hclose ->. cbn [isNull isValid orb negb].
    rewrite HtoString, unbrace_template by assumption. reflexivity.
Qed.

End TextContentFacts.

(** The sample style shows the metadata entry [name]. *)
Lemma getTextContent_template_witness :
  @getTextContent Sample.qt Sample.evaluator (Sample.symbolStyle 16 10)
    (Sample.named FeaturePoint "Oslo") 2 2 = "Oslo" /\
  @getTextContent Sample.qt Sample.evaluator (Sample.symbolStyle 16 10)
    (mkFeature FeaturePoint ∅) 2 2 = "".
Proof.
  split.
  - apply (proj2 (@getTextContent_template Sample.qt Sample.evaluator
                    (Sample.symbolStyle 16 10) (Sample.named FeaturePoint "Oslo") 2 2 "name"));
      [reflexivity|vm_compute; intuition discriminate..|reflexivity].
  - exact (proj2 (@getTextContent_template Sample.qt Sample.evaluator
                    (Sample.symbolStyle 16 10) (mkFeature FeaturePoint ∅) 2 2 "name")
                 eq_refl ltac:(vm_compute; intuition discriminate)
                 ltac:(vm_compute; intuition discriminate) eq_refl).
Defined.

(** ** More on the collision test and the point labels *)

Section MoreCollisionFacts.
Context {qt : QtApi} {ev : EvaluatorApi}.

(** X8. Whether a rectangle overlaps the kept rectangles does not depend on
    the order in which they were kept, and a rectangle overlaps a list put
    together from two exactly when it overlaps one of the two. *)
Theorem isOverlapping_order (textRect : QRect) (rects rects' more : list QRect) :
  (Permutation rects rects' ->
   isOverlapping textRect rects = isOverlapping textRect rects') /\
  isOverlapping textRect (rects ++ more)
    = isOverlapping textRect rects || isOverlapping textRect more.
Proof.
  split.
  - induction 1 as [|r l l' _ IH|r r' l|l l' l'' _ IH _ IH']; simpl.
    + reflexivity.
    + now rewrite IH.
    + destruct (Rect.intersects r' textRect), (Rect.intersects r textRect); reflexivity.
    + congruence.
  - induction rects as [|r rest IH]; simpl; [reflexivity|].
    destruct (Rect.intersects r textRect); [reflexivity|exact IH].
Qed.

Lemma compositeLines_lengths (textFont : QFont) (outlineSize : Z) (coordinates : QPoint)
    (size : Z) (height : Q) (i : Z) (texts : list QString)
    (paths : list QPainterPath) (pts : list QPoint) :
  let result :=
    compositeLines textFont outlineSize coordinates size height i texts paths pts in
  length (fst result) = (length paths + length texts)%nat /\
  length (snd result) = (length pts + length texts)%nat.
Proof.
  cbv zeta. revert i paths pts.
  induction texts as [|text rest IH]; intros i paths pts; cbn [compositeLines].
  - simpl. lia.
  - destruct (IH (i + 1) (paths ++ [Path.translate (inject_Z (pt_x coordinates))
                 (inject_Z (pt_y coordinates))
                 (Path.translate
                    (- rf_w (outlinedBoundingRect text outlineSize textFont) / 2)
                    (rf_h (outlinedBoundingRect text outlineSize textFont) / 2
                     + (inject_Z i - inject_Z size / 2) * height)
                    (textOutline textFont text))])
              (pts ++ [mkQPoint
                 (to_int (inject_Z (pt_x coordinates)
                          + - rf_w (outlinedBoundingRect text outlineSize textFont) / 2))
                 (to_int (inject_Z (pt_y coordinates)
                          + (rf_h (outlinedBoundingRect text outlineSize textFont) / 2
                             + (inject_Z i - inject_Z size / 2) * height)))]))
      as [Hpaths Hpts].
    rewrite Hpaths, Hpts, !length_app. simpl. lia.
Qed.

(** X9. processCompositeText fails on an empty list of lines.  On one or
    more lines it computes one rectangle: when that rectangle intersects a
    kept one, both lists stay as they were; else it is appended, together
    with one render entry that holds the lines and the font as given, the
    origin of the tile, and one path and one position for every line. *)
Theorem processCompositeText_entry (texts : list QString) (coordinates : QPoint)
    (outlineSize : Z) (outlineColor : QColor) (textFont : QFont) (rects : list QRect)
    (feature : PointFeature) (layerStyle : SymbolLayerStyle) (mapZoom : Z) (vpZoom : Q)
    (tileOriginX tileOriginY : Z) (vpTextList : list vpGlobalText) :
  let result :=
    processCompositeText texts coordinates outlineSize outlineColor textFont rects feature
                         layerStyle mapZoom vpZoom tileOriginX tileOriginY vpTextList in
  (texts = [] -> result = None) /\
  (texts <> [] ->
   exists globalRect,
     ((exists earlier, In earlier rects /\ Rect.intersects earlier globalRect = true) ->
      result = Some (rects, vpTextList)) /\
     (disjointFromAll globalRect rects ->
      exists entry,
        result = Some (rects ++ [globalRect], vpTextList ++ [entry]) /\
        text_texts entry = texts /\ text_font entry = textFont /\
        text_tileOrigin entry = mkQPoint tileOriginX tileOriginY /\
        length (text_paths entry) = length texts /\
        length (text_positions entry) = length texts)).
Proof.
  cbv zeta. unfold processCompositeText. split.
  - intros ->. reflexivity.
  - intros Hne.
    pose proof (compositeLines_lengths textFont outlineSize coordinates
                  (Z.of_nat (length texts)) (fontHeightF textFont) 0 texts [] [])
      as [Hpaths Hpts].
    cbv zeta in Hpaths, Hpts.
    destruct (compositeLines _ _ _ _ _ _ _ _ _) as [paths pts]. simpl in Hpaths, Hpts.
    destruct paths as [|first others].
    { destruct texts; [contradiction|discriminate]. }
    eexists. split.
    + intros H. apply isOverlapping_true in H. now rewrite H.
    + intros H. apply isOverlapping_false in H. rewrite H.
      eexists. split; [reflexivity|]. simpl. auto.
Qed.

Lemma pointAnchor_Some (pts : list QPoint) :
  pts <> [] -> exists anchor, pointAnchor pts = Some anchor.
Proof.
  unfold pointAnchor. destruct pts as [|p [|q rest]]; [contradiction| |]; intros _.
  - exists p. reflexivity.
  - exists q. destruct (Z.ltb_spec 1 (Z.of_nat (length (p :: q :: rest)))); [reflexivity|].
    simpl in *. lia.
Qed.

Lemma placePointLabel_Some (coordinates : QPoint) (correctedText : list QString)
    (outlineSize : Z) (outlineColor : QColor) (textFont : QFont)
    (details : PaintingDetailsPoint) (tileSize tileOriginX tileOriginY : Z)
    (rects : list QRect) (vpTextList : list vpGlobalText) :
  correctedText <> [] ->
  placePointLabel coordinates correctedText outlineSize outlineColor textFont details
                  tileSize tileOriginX tileOriginY rects vpTextList <> None.
Proof.
  intros Hne. unfold placePointLabel. destruct (_ || _); [discriminate|].
  destruct correctedText as [|text [|text' more]]; [contradiction|discriminate|].
  unfold processCompositeText.
  pose proof (compositeLines_lengths textFont outlineSize
                (Transform.map (tileTransform tileSize) coordinates)
                (Z.of_nat (length (text :: text' :: more))) (fontHeightF textFont) 0
                (text :: text' :: more) [] []) as [Hpaths _].
  cbv zeta in Hpaths.
  destruct (compositeLines _ _ _ _ _ _ _ _ _) as [paths pts]. simpl in Hpaths.
  destruct paths; [discriminate|]. destruct (isOverlapping _ rects); discriminate.
Qed.

(** X10. For a feature with a text to draw, processSingleTileFeature_Point
    fails exactly when the feature has no point at all. *)
Theorem processSingleTileFeature_Point_needs_a_point (details : PaintingDetailsPoint)
    (tileSize tileOriginX tileOriginY : Z) (forceNoChangeFontType : bool)
    (painter : QPainter) (rects : list QRect) (vpTextList : list vpGlobalText) :
  pointTextToDraw details <> "" ->
  (processSingleTileFeature_Point details tileSize tileOriginX tileOriginY
                                  forceNoChangeFontType painter rects vpTextList = None
   <-> points (point_feature details) = []).
Proof.
  intros Htext. rewrite processSingleTileFeature_Point_unfold.
  destruct (String.eqb_spec (pointTextToDraw details) ""); [contradiction|].
  split.
  - intros Hnone.
    destruct (points (point_feature details)) as [|p rest] eqn:Epts; [reflexivity|].
    destruct (pointAnchor_Some (p :: rest) ltac:(discriminate)) as [anchor Hanchor].
    rewrite Hanchor in Hnone.
    destruct (placePointLabel _ _ _ _ _ _ _ _ _ _ _) eqn:Eplace; [discriminate|].
    exfalso. revert Eplace. apply placePointLabel_Some, getCorrectedText_not_nil.
  - intros ->. reflexivity.
Qed.

(** X11. processSingleTileFeature_Point draws nothing and leaves the font
    and the pen of the painter alone; for a text to draw it takes the brush
    off, sets the opacity to the resolved text opacity and turns
    antialiasing on, whether the label is then kept or dropped. *)
Theorem processSingleTileFeature_Point_painter (details : PaintingDetailsPoint)
    (tileSize tileOriginX tileOriginY : Z) (forceNoChangeFontType : bool)
    (painter painter' : QPainter) (rects rects' : list QRect)
    (vpTextList vpTextList' : list vpGlobalText) :
  processSingleTileFeature_Point details tileSize tileOriginX tileOriginY
                                 forceNoChangeFontType painter rects vpTextList
    = Some (painter', (rects', vpTextList')) ->
  painter_drawn painter' = painter_drawn painter /\
  painter_font painter' = painter_font painter /\
  painter_pen painter' = painter_pen painter /\
  (pointTextToDraw details <> "" ->
   painter_brush painter' = NoBrush /\
   painter_antialiasing painter' = true /\
   painter_opacity painter'
     = getTextOpacity (point_layerStyle details) (point_base (point_feature details))
                      (point_mapZoom details) (point_vpZoom details)).
Proof.
  rewrite processSingleTileFeature_Point_unfold.
  destruct (String.eqb_spec (pointTextToDraw details) "") as [Hempty|Htext].
  - intros [= <- _ _]. repeat split; contradiction.
  - destruct (pointAnchor _); [|discriminate].
    destruct (placePointLabel _ _ _ _ _ _ _ _ _ _ _); [|discriminate].
    intros [= <- _]. repeat split.
Qed.

(** X12. In every state of a collision pass there are as many kept
    rectangles as there are queued labels, straight and curved together. *)
Theorem collisionPass_one_rectangle_per_label (rects : list QRect)
    (vpTextList : list vpGlobalText) (vpCurvedTextList : list vpGlobalCurvedText) :
  collisionPass rects vpTextList vpCurvedTextList ->
  length rects = (length vpTextList + length vpCurvedTextList)%nat.
Proof. intros Hpass. now apply collisionPass_invariant in Hpass. Qed.

End MoreCollisionFacts.

(** ** More on the curved labels *)

Lemma span_valid (r : QRect) :
  Rect.valid r ->
  Rect.isNull r = false /\
  Rect.span (x1 r) (x2 r) = (x1 r, x2 r) /\ Rect.span (y1 r) (y2 r) = (y1 r, y2 r).
Proof.
  intros [Hx Hy]. unfold Rect.isNull. rewrite !span_ordered by assumption.
  destruct (Z.eqb_spec (x2 r) (x1 r - 1)); [lia|]. auto.
Qed.

(** The union of two rectangles of at least one pixel is such a rectangle
    and covers the pixels of both. *)
Lemma united_covers (a b : QRect) :
  Rect.valid a -> Rect.valid b ->
  Rect.valid (Rect.united a b) /\
  forall px py, Rect.covers a px py \/ Rect.covers b px py ->
                Rect.covers (Rect.united a b) px py.
Proof.
  intros Ha Hb.
  destruct (span_valid a Ha) as (Hna & Hax & Hay), (span_valid b Hb) as (Hnb & Hbx & Hby).
  unfold Rect.united. rewrite Hna, Hnb, Hax, Hay, Hbx, Hby.
  destruct Ha, Hb. unfold Rect.valid, Rect.covers. simpl. split; [lia|].
  intros px py. lia.
Qed.

Section MoreCurvedFacts.
Context {qt : QtApi} {ev : EvaluatorApi}.


(** The rectangle the loop ends with covers the rectangle it starts with
    and the rectangle of every glyph it commits. *)
Lemma placeGlyphs_rect (path : QPainterPath) (font : QFont) (spacing : Q) (maxAngle : Z)
    (flipText : bool) (chars : list QChar) (length percentage preAngle : Q)
    (charsVector charsVector' : list singleCurvedTextCharacter) (textRect textRect' : QRect) :
  0 < fontHeight font -> (forall c, 0 < horizontalAdvanceChar font c) ->
  Rect.valid textRect ->
  placeGlyphs path font spacing maxAngle flipText chars length percentage preAngle
              charsVector textRect = Some (charsVector', textRect') ->
  Rect.valid textRect' /\
  (forall px py, Rect.covers textRect px py -> Rect.covers textRect' px py) /\
  exists committed,
    charsVector' = charsVector ++ committed /\
    forall glyph px py,
      In glyph committed ->
      Rect.covers (charRect font (position glyph) (character glyph)) px py ->
      Rect.covers textRect' px py.
Proof.
  intros Hheight Hadvance. revert length percentage preAngle charsVector textRect.
  induction chars as [|c rest IH];
    intros length percentage preAngle charsVector textRect Hvalid; cbn [placeGlyphs].
  - intros [= <- <-]. split; [assumption|]. split; [auto|].
    exists []. split; [now rewrite app_nil_r|]. intros ? ? ? [].
  - destruct (Qlt_bool _ _); [discriminate|]. intros Hrun.
    assert (Hchar : Rect.valid (charRect font (pointAtPercent path percentage) c)).
    { pose proof (Hadvance c). unfold charRect, Rect.make, Rect.valid. simpl. lia. }
    destruct (united_covers textRect _ Hvalid Hchar) as [Hvalid' Hcovers].
    apply IH in Hrun as (Hfinal & Hkeeps & committed & -> & Hglyphs); [|exact Hvalid'].
    split; [exact Hfinal|]. split.
    + intros px py Hin. apply Hkeeps, Hcovers. now left.
    + eexists. split; [now rewrite <- app_assoc|].
      intros glyph px py [<-|Hlater] Hcov.
      * apply Hkeeps, Hcovers. right. exact Hcov.
      * eapply Hglyphs; eassumption.
Qed.


(** X14. For a font with a positive height and positive advances, the
    rectangle kept for a queued curved label covers, moved by the origin of
    the tile, every pixel of the rectangle of each of its glyphs. *)
Theorem curved_label_rect_covers_glyphs
    (details : PaintingDetailsPointCurved) (tileSize tileOriginX tileOriginY : Z)
    (rects rects' : list QRect) (vpCurvedTextList vpCurvedTextList' : list vpGlobalCurvedText) :
  0 < fontHeight (curvedTextFont details) ->
  (forall c, 0 < horizontalAdvanceChar (curvedTextFont details) c) ->
  processSingleTileFeature_Point_Curved details tileSize tileOriginX tileOriginY
                                        rects vpCurvedTextList
    = (rects', vpCurvedTextList') ->
  vpCurvedTextList' <> vpCurvedTextList ->
  exists entry textRect,
    vpCurvedTextList' = vpCurvedTextList ++ [entry] /\
    rects' = rects ++ [textRect] /\
    forall glyph px py,
      In glyph (curved_textList entry) ->
      Rect.covers (charRect (curvedTextFont details) (position glyph) (character glyph))
                  px py ->
      Rect.covers textRect (px + tileOriginX) (py + tileOriginY).
Proof.
  unfold curvedTextFont, curvedTextSize, processSingleTileFeature_Point_Curved.
  intros Hheight Hadvance.
  destruct (Str.toUpper _) as [|firstChar more] eqn:Etext;
    [intros [= _ <-] Hne; contradiction|].
  destruct (Qlt_bool _ _) eqn:Eshort; [intros [= _ <-] Hne; contradiction|].
  destruct (placeGlyphs _ _ _ _ _ _ _ _ _ _ _) as [[charsVector textRect]|] eqn:Erun;
    [|intros [= _ <-] Hne; contradiction].
  destruct (isOverlapping _ rects); [intros [= _ <-] Hne; contradiction|].
  intros [= <- <-] _. do 2 eexists. split; [reflexivity|]. split; [reflexivity|].
  cbn [curved_textList].
  apply placeGlyphs_rect in Erun as (_ & _ & committed & -> & Hglyphs);
    [|assumption|assumption|].
  - intros glyph px py Hin Hcov. specialize (Hglyphs glyph px py Hin Hcov).
    unfold Rect.covers, Rect.translate in *. simpl. lia.
  - pose proof (Hadvance firstChar). unfold Rect.make, Rect.valid. simpl. lia.
Qed.

End MoreCurvedFacts.

(** ** The further properties on examples *)

(** A feature with a name and no point. *)
Lemma processSingleTileFeature_Point_needs_a_point_witness :
  @processSingleTileFeature_Point Sample.qt Sample.evaluator
    (Sample.pointLabel "LONGWORD" [] 16 10) 256 0 0 false Sample.painter [] [] = None.
Proof.
  apply (@processSingleTileFeature_Point_needs_a_point Sample.qt Sample.evaluator
           (Sample.pointLabel "LONGWORD" [] 16 10) 256 0 0 false Sample.painter [] []).
  - vm_compute. discriminate.
  - reflexivity.
Defined.

(** The painter after the second label of scenario S6, which is dropped. *)
Lemma processSingleTileFeature_Point_painter_witness :
  painter_drawn
    (@pointPainter Sample.qt Sample.evaluator
       (Sample.pointLabel "LONGWORD" [mkQPoint 2064 2048] 16 10) Sample.painter)
    = painter_drawn Sample.painter.
Proof.
  apply (@processSingleTileFeature_Point_painter Sample.qt Sample.evaluator
           (Sample.pointLabel "LONGWORD" [mkQPoint 2064 2048] 16 10) 256 0 0 false
           Sample.painter
           (@pointPainter Sample.qt Sample.evaluator
              (Sample.pointLabel "LONGWORD" [mkQPoint 2064 2048] 16 10) Sample.painter)
           [mkQRect 63 119 192 136] [mkQRect 63 119 192 136] [] []).
  vm_compute. reflexivity.
Defined.

(** The pass that has seen the first label of scenario S6. *)
Lemma collisionPass_one_rectangle_per_label_witness :
  match @processSingleTileFeature_Point Sample.qt Sample.evaluator
          (Sample.pointLabel "LONGWORD" [mkQPoint 2048 2048] 16 10) 256 0 0 false
          Sample.painter [] [] with
  | Some (_, (rects, vpTextList)) =>
      length rects = (length vpTextList + length (@nil vpGlobalCurvedText))%nat
  | None => False
  end.
Proof.
  destruct (@processSingleTileFeature_Point Sample.qt Sample.evaluator
              (Sample.pointLabel "LONGWORD" [mkQPoint 2048 2048] 16 10) 256 0 0 false
              Sample.painter [] []) as [[painter' [rects vpTextList]]|] eqn:Erun.
  - apply (@collisionPass_one_rectangle_per_label Sample.qt Sample.evaluator).
    eapply pass_point; [apply pass_start|exact Erun].
  - vm_compute in Erun. discriminate Erun.
Defined.


Lemma curved_label_rect_covers_glyphs_witness :
  exists entry textRect,
    snd (@processSingleTileFeature_Point_Curved Sample.qt Sample.evaluator
           (Sample.lineLabel "Main st" [mkQPointF 0 0; mkQPointF 200 0] 10) 256 0 0 [] [])
      = [] ++ [entry] /\
    fst (@processSingleTileFeature_Point_Curved Sample.qt Sample.evaluator
           (Sample.lineLabel "Main st" [mkQPointF 0 0; mkQPointF 200 0] 10) 256 0 0 [] [])
      = [] ++ [textRect].
Proof.
  destruct (@curved_label_rect_covers_glyphs Sample.qt Sample.evaluator
              (Sample.lineLabel "Main st" [mkQPointF 0 0; mkQPointF 200 0] 10) 256 0 0
              [] _ [] _ ltac:(vm_compute; reflexivity)
              ltac:(intros c; vm_compute; reflexivity)
              (surjective_pairing _) ltac:(vm_compute; discriminate))
    as (entry & textRect & Hentry & Hrect & _).
  exists entry, textRect. split; assumption.
Defined.

(** ** The tile painter *)

Lemma restore_cons (state top : PainterState) (rest : list PainterState)
    (done : list Drawn) (win : QRect) :
  Saving.restore (mkSavingPainter state (top :: rest) done win)
    = mkSavingPainter top rest done win.
Proof. reflexivity. Qed.

Lemma fold_left_cons {A B : Type} (f : A -> B -> A) (b : B) (l : list B) (a : A) :
  fold_left f (b :: l) a = fold_left f l (f a b).
Proof. reflexivity. Qed.

Section TilePainterFacts.
Context {libm : LibM} {arith : DoubleArith} {geometry : QtGeometry}.

(** A feature that the loop passes over changes neither the painter nor the
    features that are drawn. *)
Ltac pass_over_feature IH p :=
  let new := fresh "new" in
  let Hrun := fresh "Hrun" in
  let Hnew := fresh "Hnew" in
  destruct (IH p) as (new & Hrun & Hnew); exists new; (split; [exact Hrun|]);
  let d := fresh "d" in
  let g := fresh "g" in
  let Hin := fresh "Hin" in
  let Heq := fresh "Heq" in
  intros d; rewrite Hnew; split; intros (g & Hin & ->); exists g; (split; [|reflexivity]);
  [right; exact Hin|destruct Hin as [Heq|Hin]; [discriminate Heq|exact Hin]].

Lemma paintPolygons_run (transformIn : QTransform) (features : list LayerFeature)
    (p : SavingPainter) :
  exists new,
    paintPolygons transformIn features p
      = mkSavingPainter (current p) (saved p) (drawn p ++ new) (window p) /\
    (forall d, In d new <->
       exists feature,
         In (PolygonOf feature) features /\
         d = mkDrawn (DrawPath (featurePath transformIn (polygon feature)))
                     (withPen (Pen.ofStyle StyleNoPen) (current p))).
Proof.
  revert p. induction features as [|f rest IH]; intros p.
  - exists []. split; [destruct p; simpl; now rewrite app_nil_r|].
    intros d. split; [intros []|intros (? & [] & _)].
  - unfold paintPolygons. cbn [fold_left]. fold (paintPolygons transformIn rest).
    destruct f as [feature|feature|feature|feature].
    + destruct (IH (mkSavingPainter (current p) (saved p)
                      (drawn p ++
                       [mkDrawn (DrawPath (featurePath transformIn (polygon feature)))
                                (withPen (Pen.ofStyle StyleNoPen) (current p))])
                      (window p)))
        as (new & Hrun & Hnew).
      eexists. split.
      * etransitivity; [exact Hrun|]. cbn [current saved drawn window].
        rewrite <- app_assoc. reflexivity.
      * intros d. cbn [app In]. rewrite Hnew. cbn [current]. split.
        -- intros [<-|(g & Hin & ->)]; [exists feature|exists g]; split; auto.
        -- intros (g & [[= ->]|Hin] & ->); [now left|right; exists g; auto].
    + pass_over_feature IH p.
    + pass_over_feature IH p.
    + pass_over_feature IH p.
Qed.

Lemma paintLines_run (transformIn : QTransform) (features : list LayerFeature)
    (p : SavingPainter) :
  exists new,
    paintLines transformIn features p
      = mkSavingPainter (current p) (saved p) (drawn p ++ new) (window p) /\
    (forall d, In d new <->
       exists feature,
         In (LineOf feature) features /\
         d = mkDrawn (DrawPath (featurePath transformIn (line feature))) (current p)).
Proof.
  revert p. induction features as [|f rest IH]; intros p.
  - exists []. split; [destruct p; simpl; now rewrite app_nil_r|].
    intros d. split; [intros []|intros (? & [] & _)].
  - unfold paintLines. cbn [fold_left]. fold (paintLines transformIn rest).
    destruct f as [feature|feature|feature|feature].
    + pass_over_feature IH p.
    + destruct (IH (mkSavingPainter (current p) (saved p)
                      (drawn p ++
                       [mkDrawn (DrawPath (featurePath transformIn (line feature)))
                                (current p)])
                      (window p)))
        as (new & Hrun & Hnew).
      eexists. split.
      * etransitivity; [exact Hrun|]. cbn [current saved drawn window].
        rewrite <- app_assoc. reflexivity.
      * intros d. cbn [app In]. rewrite Hnew. cbn [current]. split.
        -- intros [<-|(g & Hin & ->)]; [exists feature|exists g]; split; auto.
        -- intros (g & [[= ->]|Hin] & ->); [now left|right; exists g; auto].
    + pass_over_feature IH p.
    + pass_over_feature IH p.
Qed.

Lemma paintLayerStyle_run (tileData : VectorTile) (mapZoomLevel : Z)
    (transformIn : QTransform) (p : SavingPainter) (style : AbstractLayereStyle) :
  exists brush new,
    paintLayerStyle tileData mapZoomLevel transformIn p style
      = mkSavingPainter (withBrush brush (current p)) (saved p) (drawn p ++ new) (window p) /\
    (brush = state_brush (current p) \/
     exists getFillColorAtZoom,
       subclass style = FillStyle getFillColorAtZoom /\
       is_Some (m_layers tileData !! m_sourceLayer style) /\
       brush = SolidBrush (getFillColorAtZoom mapZoomLevel)) /\
    (forall d, In d new ->
       shapeForStyle tileData mapZoomLevel transformIn style (drawn_what d) /\
       toolsForStyle mapZoomLevel (state_pen (current p)) style (drawn_state d) /\
       state_transform (drawn_state d) = state_transform (current p) /\
       state_clip (drawn_state d) = state_clip (current p) /\
       state_font (drawn_state d) = state_font (current p)) /\
    (forall what, shapeForStyle tileData mapZoomLevel transformIn style what ->
       exists d, In d new /\ drawn_what d = what).
Proof.
  assert (Hsame : forall q : SavingPainter,
            q = mkSavingPainter (withBrush (state_brush (current q)) (current q)) (saved q)
                                (drawn q ++ []) (window q)).
  { intros [[] ? ? ?]. unfold withBrush. simpl. now rewrite app_nil_r. }
  unfold paintLayerStyle, shapeForStyle, toolsForStyle.
  destruct (subclass style) as [getColor|getFill|getLineColor getLineWidth|] eqn:Eclass.
  - exists (state_brush (current p)). eexists. split; [|split; [now left|split]].
    + unfold Saving.fillRect, Saving.draw. destruct p as [[] ? ? ?]. reflexivity.
    + intros d [<-|[]]. simpl. auto.
    + intros what ->. eexists. split; [now left|reflexivity].
  - destruct (m_layers tileData !! m_sourceLayer style) as [layer|] eqn:Elayer.
    + destruct (paintPolygons_run transformIn (m_features layer)
                  (Saving.setBrush (SolidBrush (getFill mapZoomLevel)) p))
        as (new & Hrun & Hnew).
      exists (SolidBrush (getFill mapZoomLevel)), new. split; [exact Hrun|].
      split; [right; exists getFill; eauto|]. split.
      * intros d Hin. apply Hnew in Hin as (feature & Hin & ->). simpl.
        split; [exists layer, feature; auto|auto].
      * intros what (layer' & feature & [= <-] & Hin & ->).
        eexists. split; [apply Hnew; exists feature; split; [exact Hin|reflexivity]|reflexivity].
    + exists (state_brush (current p)), []. split; [apply Hsame|].
      split; [now left|]. split; [intros d []|].
      intros what (layer & ? & [=] & _).
  - destruct (m_layers tileData !! m_sourceLayer style) as [layer|] eqn:Elayer.
    + destruct (paintLines_run transformIn (m_features layer)
                  (Saving.setBrush NoBrush
                     (Saving.setPen
                        (Pen.setWidth (getLineWidth mapZoomLevel)
                           (Pen.setColor (getLineColor mapZoomLevel)
                              (state_pen (current (Saving.save p)))))
                        (Saving.save p))))
        as (new & Hrun & Hnew).
      exists (state_brush (current p)), new. split.
      * cbv zeta. rewrite Hrun. destruct p as [[] ? ? ?]. reflexivity.
      * split; [now left|]. split.
        -- intros d Hin. apply Hnew in Hin as (feature & Hin & ->). simpl.
           split; [exists layer, feature; auto|auto].
        -- intros what (layer' & feature & [= <-] & Hin & ->).
           eexists. split; [apply Hnew; exists feature; split; [exact Hin|reflexivity]|].
           reflexivity.
    + exists (state_brush (current p)), []. split; [apply Hsame|].
      split; [now left|]. split; [intros d []|].
      intros what (layer & ? & [=] & _).
  - exists (state_brush (current p)), []. split.
    + destruct (m_layers tileData !! m_sourceLayer style); apply Hsame.
    + split; [now left|]. split; [intros d []|intros what []].
Qed.

Lemma paintSingleTile_run (tileData : VectorTile) (p : SavingPainter) (mapZoomLevel : Z)
    (viewportZoomLevel : Q) (styleSheet : StyleSheet) (transformIn : QTransform) :
  exists brush new,
    paintSingleTile tileData p mapZoomLevel viewportZoomLevel styleSheet transformIn
      = mkSavingPainter (withBrush brush (current p)) (saved p) (drawn p ++ new) (window p) /\
    (brush = state_brush (current p) \/
     exists style getFillColorAtZoom,
       In style (m_layerStyles styleSheet) /\
       subclass style = FillStyle getFillColorAtZoom /\
       is_Some (m_layers tileData !! m_sourceLayer style) /\
       brush = SolidBrush (getFillColorAtZoom mapZoomLevel)) /\
    (forall d, In d new ->
       (exists style,
          In style (m_layerStyles styleSheet) /\
          shapeForStyle tileData mapZoomLevel transformIn style (drawn_what d) /\
          toolsForStyle mapZoomLevel (state_pen (current p)) style (drawn_state d)) /\
       state_transform (drawn_state d) = state_transform (current p) /\
       state_clip (drawn_state d) = state_clip (current p) /\
       state_font (drawn_state d) = state_font (current p)) /\
    (forall style what,
       In style (m_layerStyles styleSheet) ->
       shapeForStyle tileData mapZoomLevel transformIn style what ->
       exists d, In d new /\ drawn_what d = what).
Proof.
  unfold paintSingleTile. destruct styleSheet as [styles]. cbn [m_layerStyles].
  revert p. induction styles as [|style rest IH]; intros p.
  - exists (state_brush (current p)), []. split.
    + destruct p as [[] ? ? ?]. unfold withBrush. simpl. now rewrite app_nil_r.
    + split; [now left|]. split; [intros d []|intros ? ? []].
  - rewrite fold_left_cons.
    destruct (paintLayerStyle_run tileData mapZoomLevel transformIn p style)
      as (brush1 & new1 & -> & Hbrush1 & Hsound1 & Hcomplete1).
    destruct (IH (mkSavingPainter (withBrush brush1 (current p)) (saved p)
                                  (drawn p ++ new1) (window p)))
      as (brush2 & new2 & -> & Hbrush2 & Hsound2 & Hcomplete2).
    cbn [current saved drawn window] in *.
    exists brush2, (new1 ++ new2). split; [now rewrite <- app_assoc|]. split; [|split].
    + destruct Hbrush2 as [->|(style2 & g & Hin & Hclass & Hlayer & ->)].
      * destruct Hbrush1 as [->|(g & Hclass & Hlayer & ->)]; [now left|].
        right. exists style, g. cbn [In]. auto.
      * right. exists style2, g. cbn [In]. auto.
    + intros d Hin. apply in_app_or in Hin as [Hin|Hin].
      * apply Hsound1 in Hin as (Hshape & Htools & Hrest).
        split; [exists style; cbn [In]; auto|exact Hrest].
      * apply Hsound2 in Hin as ((style2 & Hin & Hshape & Htools) & Hrest).
        split; [exists style2; cbn [In]; auto|exact Hrest].
    + intros style' what [<-|Hin] Hshape.
      * apply Hcomplete1 in Hshape as (d & Hin & Hwhat).
        exists d. split; [apply in_or_app; now left|exact Hwhat].
      * apply (Hcomplete2 _ _ Hin) in Hshape as (d & Hin' & Hwhat).
        exists d. split; [apply in_or_app; now right|exact Hwhat].
Qed.

Lemma paintSingleTileDebug_run (p : SavingPainter) (tileCoord : TileCoord)
    (pixelPos : QPoint) (transform : QTransform) :
  paintSingleTileDebug p tileCoord pixelPos transform
    = mkSavingPainter (withPen (Pen.ofColor Qt.green) (current p)) (saved p)
        (drawn p ++
         [mkDrawn (DrawLine (Transform.mapF transform (mkQPointF (45 # 100) (45 # 100)))
                            (Transform.mapF transform (mkQPointF (55 # 100) (55 # 100))))
                  (withPen (Pen.ofColor Qt.green) (current p));
          mkDrawn (DrawLine (Transform.mapF transform (mkQPointF (55 # 100) (45 # 100)))
                            (Transform.mapF transform (mkQPointF (45 # 100) (55 # 100))))
                  (withPen (Pen.ofColor Qt.green) (current p));
          mkDrawn (DrawRect (mapRectF transform (mkQRectF 0 0 1 1)))
                  (withPen (Pen.ofColor Qt.green) (current p));
          mkDrawn (DrawText 10 30 (TileCoord_toString tileCoord))
                  (mkPainterState (Pen.ofColor Qt.green) (state_brush (current p))
                     (toPixel pixelPos) (state_clip (current p)) (state_font (current p)))])
        (window p).
Proof.
  destruct p as [[pen brush transform0 clip font] stack done win].
  cbv [paintSingleTileDebug withPen toPixel Saving.restore Saving.drawText Saving.drawRect
       Saving.drawLine Saving.draw Saving.save Saving.setTransform Saving.setPen
       Saving.setState current saved drawn window state_pen state_brush state_transform
       state_clip state_font].
  rewrite <- !app_assoc. reflexivity.
Qed.

Lemma paintVisibleTile_run (layout : TileLayout) (viewportZoomLevel : Q) (mapZoomLevel : Z)
    (tileContainer : gmap TileCoord VectorTile) (styleSheet : StyleSheet)
    (p : SavingPainter) (tileCoord : TileCoord) :
  exists new,
    paintVisibleTile layout viewportZoomLevel mapZoomLevel tileContainer styleSheet p tileCoord
      = mkSavingPainter (current p) (saved p) (drawn p ++ new) (window p) /\
    omap drawnText new = [TileCoord_toString tileCoord] /\
    (forall d, In d new ->
       drawnForTile layout mapZoomLevel tileContainer styleSheet (current p) tileCoord d) /\
    (forall tileData style what,
       tileContainer !! tileCoord = Some tileData ->
       In style (m_layerStyles styleSheet) ->
       shapeForStyle tileData mapZoomLevel (unitToPixels layout) style what ->
       exists d,
         In d new /\ drawn_what d = what /\
         state_transform (drawn_state d) = toPixel (tilePixelPos layout tileCoord)).
Proof.
  unfold paintVisibleTile. cbv zeta.
  destruct (tileContainer !! tileCoord) as [tileData|] eqn:Etile.
  - destruct (paintSingleTile_run tileData
                (Saving.setClipRect 0 0 (tileSizePixels layout) (tileSizePixels layout)
                   (Saving.save
                      (Saving.setPen
                         (Pen.setWidth 1
                            (Pen.setColor Qt.white
                               (state_pen
                                  (current
                                     (Saving.setTransform
                                        (translated
                                           (inject_Z (pt_x (tilePixelPos layout tileCoord)))
                                           (inject_Z (pt_y (tilePixelPos layout tileCoord)))
                                           Transform.identity)
                                        (Saving.save p))))))
                         (Saving.setTransform
                            (translated (inject_Z (pt_x (tilePixelPos layout tileCoord)))
                               (inject_Z (pt_y (tilePixelPos layout tileCoord)))
                               Transform.identity)
                            (Saving.save p)))))
                mapZoomLevel viewportZoomLevel styleSheet (unitToPixels layout))
      as (brush & new & Hrun & _ & Hsound & Hcomplete).
    unfold unitToPixels in Hrun. rewrite Hrun. clear Hrun.
    destruct p as [[pen brush0 transform clip font] stack done win].
    cbn [current saved drawn window Saving.save Saving.setTransform Saving.setPen
         Saving.setClipRect Saving.setState state_pen state_brush state_transform
         state_clip state_font] in *.
    eexists. split.
    { rewrite restore_cons, paintSingleTileDebug_run.
      cbn [current saved drawn window]. rewrite restore_cons.
      rewrite <- !app_assoc. reflexivity. }
    split; [|split].
    + rewrite omap_app.
      assert (Hnone : omap drawnText new = []).
      { clear Hcomplete. induction new as [|d rest IH]; [reflexivity|].
        cbn [omap list_omap]. destruct (Hsound d (or_introl eq_refl))
          as ((style & _ & Hshape & _) & _).
        unfold drawnText. unfold shapeForStyle in Hshape.
        destruct (subclass style); [rewrite Hshape| | |contradiction].
        - apply IH. intros d' Hin. apply Hsound. now right.
        - destruct Hshape as (? & ? & _ & _ & ->). apply IH. intros d' Hin.
          apply Hsound. now right.
        - destruct Hshape as (? & ? & _ & _ & ->). apply IH. intros d' Hin.
          apply Hsound. now right. }
      rewrite Hnone. reflexivity.
    + intros d Hin. apply in_app_or in Hin as [Hin|Hin].
      * apply Hsound in Hin as ((style & Hstyle & Hshape & Htools) & Htransform & Hclip & Hfont).
        unfold drawnForTile. cbn [state_font state_pen state_clip].
        split; [exact Htransform|]. split; [exact Hfont|].
        assert (Hcontent : state_clip (drawn_state d) = tileClip layout tileCoord /\
                  exists tileData0 style0,
                    tileContainer !! tileCoord = Some tileData0 /\
                    In style0 (m_layerStyles styleSheet) /\
                    shapeForStyle tileData0 mapZoomLevel (unitToPixels layout) style0
                                  (drawn_what d) /\
                    toolsForStyle mapZoomLevel (whitePen pen) style0 (drawn_state d)).
        { split; [exact Hclip|]. exists tileData, style. auto. }
        unfold shapeForStyle in Hshape.
        destruct (subclass style); [rewrite Hshape in *; exact Hcontent| | |contradiction].
        -- destruct Hshape as (? & ? & _ & _ & Hwhat). rewrite Hwhat in *. exact Hcontent.
        -- destruct Hshape as (? & ? & _ & _ & Hwhat). rewrite Hwhat in *. exact Hcontent.
      * unfold drawnForTile.
        destruct Hin as [<-|[<-|[<-|[<-|[]]]]];
        cbn [drawn_what drawn_state state_transform state_font state_clip state_pen];
        unfold toPixel; auto 10.
    + intros tileData' style what [= <-] Hstyle Hshape.
      destruct (Hcomplete style what Hstyle Hshape) as (d & Hin & Hwhat).
      exists d. split; [apply in_or_app; now left|]. split; [exact Hwhat|].
      now apply Hsound in Hin as (_ & Htransform & _).
  - rewrite paintSingleTileDebug_run.
    destruct p as [[pen brush0 transform clip font] stack done win].
    eexists. split; [reflexivity|]. split; [reflexivity|]. split.
    + intros d Hin. unfold drawnForTile.
      destruct Hin as [<-|[<-|[<-|[<-|[]]]]];
        cbn [drawn_what drawn_state state_transform state_font state_clip state_pen];
        unfold toPixel; auto 10.
    + intros ? ? ? [=].
Qed.

Lemma paintVisibleTiles_run (layout : TileLayout) (viewportZoomLevel : Q) (mapZoomLevel : Z)
    (tileContainer : gmap TileCoord VectorTile) (styleSheet : StyleSheet)
    (visibleTiles : list TileCoord) (p : SavingPainter) :
  exists new,
    fold_left
      (paintVisibleTile layout viewportZoomLevel mapZoomLevel tileContainer styleSheet)
      visibleTiles p
      = mkSavingPainter (current p) (saved p) (drawn p ++ new) (window p) /\
    omap drawnText new = List.map TileCoord_toString visibleTiles /\
    (forall d, In d new ->
       exists tileCoord,
         In tileCoord visibleTiles /\
         drawnForTile layout mapZoomLevel tileContainer styleSheet (current p) tileCoord d) /\
    (forall tileCoord tileData style what,
       In tileCoord visibleTiles ->
       tileContainer !! tileCoord = Some tileData ->
       In style (m_layerStyles styleSheet) ->
       shapeForStyle tileData mapZoomLevel (unitToPixels layout) style what ->
       exists d,
         In d new /\ drawn_what d = what /\
         state_transform (drawn_state d) = toPixel (tilePixelPos layout tileCoord)).
Proof.
  revert p. induction visibleTiles as [|tileCoord rest IH]; intros p.
  - exists []. split; [destruct p; simpl; now rewrite app_nil_r|].
    split; [reflexivity|]. split; [intros d []|intros ? ? ? ? []].
  - rewrite fold_left_cons.
    destruct (paintVisibleTile_run layout viewportZoomLevel mapZoomLevel tileContainer
                styleSheet p tileCoord) as (new1 & -> & Htext1 & Hsound1 & Hcomplete1).
    destruct (IH (mkSavingPainter (current p) (saved p) (drawn p ++ new1) (window p)))
      as (new2 & -> & Htext2 & Hsound2 & Hcomplete2).
    cbn [current saved drawn window] in *.
    exists (new1 ++ new2). split; [now rewrite <- app_assoc|]. split; [|split].
    + rewrite omap_app, Htext1, Htext2. reflexivity.
    + intros d Hin. apply in_app_or in Hin as [Hin|Hin].
      * exists tileCoord. split; [now left|now apply Hsound1].
      * apply Hsound2 in Hin as (tile & Hin & Hfor). exists tile. split; [now right|exact Hfor].
    + intros tile tileData style what [<-|Hin] Htile Hstyle Hshape.
      * destruct (Hcomplete1 _ _ _ Htile Hstyle Hshape) as (d & Hin & Hrest).
        exists d. split; [apply in_or_app; now left|exact Hrest].
      * destruct (Hcomplete2 _ _ _ _ Hin Htile Hstyle Hshape) as (d & Hin' & Hrest).
        exists d. split; [apply in_or_app; now right|exact Hrest].
Qed.

Lemma drawnSince_app (p : SavingPainter) (state : PainterState) (stack : list PainterState)
    (new : list Drawn) (win : QRect) :
  drawnSince p (mkSavingPainter state stack (drawn p ++ new) win) = new.
Proof. unfold drawnSince. cbn [drawn]. apply drop_app_length. Qed.

(** X15. paintSingleTile leaves the painter as it found it but for the
    brush: the stack of saved states, the window, the pen, the transform, the
    clip and the font are those at the entry, and nothing that was drawn
    before is lost.  The brush is the one at the entry or the fill colour of
    a fill style of the sheet whose source layer the tile has. *)
Theorem paintSingleTile_keeps_state (tileData : VectorTile) (painter : SavingPainter)
    (mapZoomLevel : Z) (viewportZoomLevel : Q) (styleSheet : StyleSheet)
    (transformIn : QTransform) :
  let painter' :=
    paintSingleTile tileData painter mapZoomLevel viewportZoomLevel styleSheet transformIn in
  saved painter' = saved painter /\
  window painter' = window painter /\
  drawn painter' = drawn painter ++ drawnSince painter painter' /\
  exists brush,
    current painter' = withBrush brush (current painter) /\
    (brush = state_brush (current painter) \/
     exists style getFillColorAtZoom,
       In style (m_layerStyles styleSheet) /\
       subclass style = FillStyle getFillColorAtZoom /\
       is_Some (m_layers tileData !! m_sourceLayer style) /\
       brush = SolidBrush (getFillColorAtZoom mapZoomLevel)).
Proof.
  cbv zeta.
  destruct (paintSingleTile_run tileData painter mapZoomLevel viewportZoomLevel styleSheet
              transformIn) as (brush & new & -> & Hbrush & _).
  rewrite drawnSince_app. cbn [current saved drawn window].
  split; [reflexivity|]. split; [reflexivity|]. split; [reflexivity|].
  exists brush. split; [reflexivity|exact Hbrush].
Qed.

(** X16. The shapes that paintSingleTile draws are those the layer styles
    of the sheet ask for, and all of them: the unit square for every
    background style, the polygons of the source layer for every fill style
    and the lines of the source layer for every line style.  Features of
    other classes, styles of other types and styles whose source layer the
    tile lacks draw nothing. *)
Theorem paintSingleTile_shapes (tileData : VectorTile) (painter : SavingPainter)
    (mapZoomLevel : Z) (viewportZoomLevel : Q) (styleSheet : StyleSheet)
    (transformIn : QTransform) (what : Drawing) :
  let painter' :=
    paintSingleTile tileData painter mapZoomLevel viewportZoomLevel styleSheet transformIn in
  In what (List.map drawn_what (drawnSince painter painter')) <->
  exists style,
    In style (m_layerStyles styleSheet) /\
    shapeForStyle tileData mapZoomLevel transformIn style what.
Proof.
  cbv zeta.
  destruct (paintSingleTile_run tileData painter mapZoomLevel viewportZoomLevel styleSheet
              transformIn) as (brush & new & -> & _ & Hsound & Hcomplete).
  rewrite drawnSince_app, in_map_iff. split.
  - intros (d & <- & Hin). apply Hsound in Hin as ((style & Hstyle & Hshape & _) & _).
    exists style. auto.
  - intros (style & Hstyle & Hshape).
    destruct (Hcomplete style what Hstyle Hshape) as (d & Hin & Hwhat). exists d. auto.
Qed.

(** X17. Whatever paintSingleTile draws, it draws under the transform, the
    clip and the font of the entry state, and with the tools of a layer
    style that asks for the shape: a polygon without a pen and with the fill
    colour as the brush, a line without a brush and with the pen of the entry
    state in the colour and the width of the style. *)
Theorem paintSingleTile_tools (tileData : VectorTile) (painter : SavingPainter)
    (mapZoomLevel : Z) (viewportZoomLevel : Q) (styleSheet : StyleSheet)
    (transformIn : QTransform) (d : Drawn) :
  let painter' :=
    paintSingleTile tileData painter mapZoomLevel viewportZoomLevel styleSheet transformIn in
  In d (drawnSince painter painter') ->
  state_transform (drawn_state d) = state_transform (current painter) /\
  state_clip (drawn_state d) = state_clip (current painter) /\
  state_font (drawn_state d) = state_font (current painter) /\
  exists style,
    In style (m_layerStyles styleSheet) /\
    shapeForStyle tileData mapZoomLevel transformIn style (drawn_what d) /\
    toolsForStyle mapZoomLevel (state_pen (current painter)) style (drawn_state d).
Proof.
  cbv zeta.
  destruct (paintSingleTile_run tileData painter mapZoomLevel viewportZoomLevel styleSheet
              transformIn) as (brush & new & -> & _ & Hsound & _).
  rewrite drawnSince_app. intros Hin.
  apply Hsound in Hin as (Hstyle & Htransform & Hclip & Hfont). auto.
Qed.

(** X18. paintTiles leaves the painter as it found it but for the font,
    whose size it sets to 18 points: the stack of saved states, the window,
    the pen, the brush, the transform and the clip are those at the entry,
    and nothing that was drawn before is lost. *)
Theorem paintTiles_keeps_state (painter : SavingPainter) (vpX vpY viewportZoomLevel : Q)
    (mapZoomLevel : Z) (tileContainer : gmap TileCoord VectorTile)
    (styleSheet : StyleSheet) :
  let painter' :=
    paintTiles painter vpX vpY viewportZoomLevel mapZoomLevel tileContainer styleSheet in
  saved painter' = saved painter /\
  window painter' = window painter /\
  drawn painter' = drawn painter ++ drawnSince painter painter' /\
  current painter'
    = withFont (setPointSize 18 (state_font (current painter))) (current painter).
Proof.
  cbv zeta. unfold paintTiles. cbv zeta.
  destruct (paintVisibleTiles_run
              (tileLayout painter vpX vpY viewportZoomLevel mapZoomLevel)
              viewportZoomLevel mapZoomLevel tileContainer styleSheet
              (calcVisibleTiles vpX vpY
                 (inject_Z (Rect.width (window painter))
                  / inject_Z (Rect.height (window painter)))
                 viewportZoomLevel mapZoomLevel)
              (Saving.setFont (setPointSize 18 (state_font (current painter))) painter))
    as (new & -> & _).
  cbn [Saving.setFont Saving.setState current saved drawn window].
  rewrite drawnSince_app. repeat split.
Qed.

(** X19. paintTiles writes the name of every visible tile, in the order of
    calcVisibleTiles and whether the tile is loaded or not, and it writes
    nothing else. *)
Theorem paintTiles_names_every_tile (painter : SavingPainter)
    (vpX vpY viewportZoomLevel : Q) (mapZoomLevel : Z)
    (tileContainer : gmap TileCoord VectorTile) (styleSheet : StyleSheet) :
  let painter' :=
    paintTiles painter vpX vpY viewportZoomLevel mapZoomLevel tileContainer styleSheet in
  omap drawnText (drawnSince painter painter')
    = List.map TileCoord_toString
        (calcVisibleTiles vpX vpY
           (inject_Z (Rect.width (window painter)) / inject_Z (Rect.height (window painter)))
           viewportZoomLevel mapZoomLevel).
Proof.
  cbv zeta. unfold paintTiles. cbv zeta.
  destruct (paintVisibleTiles_run
              (tileLayout painter vpX vpY viewportZoomLevel mapZoomLevel)
              viewportZoomLevel mapZoomLevel tileContainer styleSheet
              (calcVisibleTiles vpX vpY
                 (inject_Z (Rect.width (window painter))
                  / inject_Z (Rect.height (window painter)))
                 viewportZoomLevel mapZoomLevel)
              (Saving.setFont (setPointSize 18 (state_font (current painter))) painter))
    as (new & -> & Htext & _).
  cbn [Saving.setFont Saving.setState current saved drawn window].
  rewrite drawnSince_app. exact Htext.
Qed.



End TilePainterFacts.

(** ** The output tester *)

Lemma append_inv_head (s t t' : QString) : s +:+ t = s +:+ t' -> t = t'.
Proof.
  induction s as [|c s IH]; [auto|]. rewrite !append_cons. intros [= H]. auto.
Qed.

(** Two strings that go on after a separator agree before and after it, when
    the separator does not occur before it. *)
Lemma append_separator_inj (c : QChar) (s s' t t' : QString) :
  ~ In c (Str.chars s) -> ~ In c (Str.chars s') ->
  s +:+ String c t = s' +:+ String c t' -> s = s' /\ t = t'.
Proof.
  revert s'. induction s as [|d s IH]; intros [|d' s'] Hs Hs'.
  - intros [= ->]. auto.
  - rewrite append_cons. intros [= -> _]. exfalso. apply Hs'. now left.
  - rewrite append_cons. intros [= -> _]. exfalso. apply Hs. now left.
  - rewrite !append_cons. intros [= -> H].
    apply IH in H as [-> ->]; [auto| |].
    + intros Hin. apply Hs. now right.
    + intros Hin. apply Hs'. now right.
Qed.

Lemma pretty_N_char_numeric (n : N) : numeric (pretty_N_char n) = true.
Proof. unfold pretty_N_char. repeat case_match; reflexivity. Qed.

Lemma pretty_N_go_numeric (n : N) (s : QString) :
  List.Forall (fun c => numeric c = true) (Str.chars s) ->
  List.Forall (fun c => numeric c = true) (Str.chars (pretty_N_go n s)).
Proof.
  revert s. induction (N.lt_wf_0 n) as [n _ IH]. intros s Hs.
  destruct (N.eq_dec n 0%N) as [->|Hn]; [exact Hs|].
  rewrite pretty_N_go_step by lia. apply IH.
  - apply N.div_lt; lia.
  - constructor; [apply pretty_N_char_numeric|exact Hs].
Qed.

Lemma number_numeric (n : Z) : List.Forall (fun c => numeric c = true) (Str.chars (number n)).
Proof.
  assert (HN : forall m : N,
            List.Forall (fun c => numeric c = true) (Str.chars (pretty m))).
  { intros m. unfold pretty, pretty_N. case_decide.
    - repeat constructor.
    - apply pretty_N_go_numeric. constructor. }
  unfold number, pretty, pretty_Z. destruct n as [|q|q].
  - repeat constructor.
  - apply HN.
  - constructor; [reflexivity|apply HN].
Qed.

Lemma number_without (c : QChar) (n : Z) : numeric c = false -> ~ In c (Str.chars (number n)).
Proof.
  intros Hc Hin. pose proof (number_numeric n) as Hall.
  rewrite List.Forall_forall in Hall. apply Hall in Hin. congruence.
Qed.

Lemma number_inj (n m : Z) : number n = number m -> n = m.
Proof. apply pretty_Z_inj. Qed.

Section OutputTesterFacts.
Context {files : TesterFiles}.

Lemma loadTilesInto_None (tileStorage : gmap TileCoord VectorTile)
    (tileCoords : list TileCoord) :
  loadTilesInto tileStorage tileCoords = None <->
  exists tileCoord, In tileCoord tileCoords /\ tileOnDisk tileCoord = None.
Proof.
  revert tileStorage. induction tileCoords as [|c rest IH]; intros tileStorage.
  - split; [discriminate|intros (? & [] & _)].
  - cbn [loadTilesInto]. cbv zeta. unfold tileOnDisk in *.
    destruct (readAll (tileFilePath c)) as [bytes|] eqn:Eread.
    + destruct (fromByteArray bytes) as [tile|] eqn:Eparse.
      * rewrite IH. split.
        -- intros (c' & Hin & Hnone). exists c'. split; [now right|exact Hnone].
        -- intros (c' & [<-|Hin] & Hnone); [|exists c'; auto].
           rewrite Eread, Eparse in Hnone. discriminate.
      * split; [intros _|reflexivity]. exists c. split; [now left|].
        now rewrite Eread, Eparse.
    + split; [intros _|reflexivity]. exists c. split; [now left|]. now rewrite Eread.
Qed.

Lemma loadTilesInto_Some (tileStorage : gmap TileCoord VectorTile)
    (tileCoords : list TileCoord) (loaded : gmap TileCoord VectorTile) :
  loadTilesInto tileStorage tileCoords = Some loaded ->
  forall tileCoord,
    loaded !! tileCoord
      = match tileStorage !! tileCoord with
        | Some tile => Some tile
        | None => if in_dec TileCoord_eq_dec tileCoord tileCoords then tileOnDisk tileCoord else None
        end.
Proof.
  revert tileStorage. induction tileCoords as [|c rest IH]; intros tileStorage.
  - intros [= <-] tileCoord. destruct (tileStorage !! tileCoord); [reflexivity|].
    destruct (in_dec TileCoord_eq_dec tileCoord []) as [[]|]; reflexivity.
  - cbn [loadTilesInto]. cbv zeta.
    destruct (readAll (tileFilePath c)) as [bytes|] eqn:Eread; [|discriminate].
    destruct (fromByteArray bytes) as [tile|] eqn:Eparse; [|discriminate].
    intros Hrun tileCoord. rewrite (IH _ Hrun tileCoord). unfold insertNew.
    assert (Hdisk : tileOnDisk c = Some tile) by (unfold tileOnDisk; now rewrite Eread).
    destruct (decide (tileCoord = c)) as [->|Hne].
    + destruct (tileStorage !! c) as [old|] eqn:Eold.
      * now rewrite Eold.
      * rewrite lookup_insert_eq.
        destruct (in_dec TileCoord_eq_dec c (c :: rest)) as [_|Hnot]; [now rewrite Hdisk|].
        exfalso. apply Hnot. now left.
    + assert (Hsame : (match tileStorage !! c with
                       | Some _ => tileStorage
                       | None => <[c:=tile]> tileStorage
                       end) !! tileCoord = tileStorage !! tileCoord).
      { destruct (tileStorage !! c); [reflexivity|]. now apply lookup_insert_ne. }
      rewrite Hsame. destruct (tileStorage !! tileCoord); [reflexivity|].
      destruct (in_dec TileCoord_eq_dec tileCoord rest) as [Hin|Hnot];
        destruct (in_dec TileCoord_eq_dec tileCoord (c :: rest)) as [Hin'|Hnot']; try reflexivity.
      * exfalso. apply Hnot'. now right.
      * exfalso. destruct Hin' as [->|Hin']; [now apply Hne|now apply Hnot].
Qed.

(** X22. loadTiles loads all the tiles or none: it fails exactly when the
    file of one of the tiles cannot be opened or cannot be parsed, and else
    the storage it returns holds, for every tile of the list, the tile that
    its file holds, and nothing for any other tile. *)
Theorem loadTiles_all_or_nothing (tileCoords : list TileCoord) :
  (loadTiles tileCoords = None <->
   exists tileCoord, In tileCoord tileCoords /\ tileOnDisk tileCoord = None) /\
  (forall loaded tileCoord,
     loadTiles tileCoords = Some loaded ->
     (In tileCoord tileCoords ->
      is_Some (loaded !! tileCoord) /\ loaded !! tileCoord = tileOnDisk tileCoord) /\
     (~ In tileCoord tileCoords -> loaded !! tileCoord = None)).
Proof.
  unfold loadTiles. split; [apply loadTilesInto_None|].
  intros loaded tileCoord Hrun.
  pose proof (loadTilesInto_Some _ _ _ Hrun tileCoord) as Hlookup.
  rewrite lookup_empty in Hlookup.
  destruct (in_dec TileCoord_eq_dec tileCoord tileCoords) as [Hin|Hnot]; split; try contradiction.
  - intros _. split; [|exact Hlookup]. rewrite Hlookup.
    destruct (tileOnDisk tileCoord) as [tile|] eqn:Edisk; [eauto|].
    assert (Hnone : loadTilesInto ∅ tileCoords = None)
      by (apply loadTilesInto_None; eauto).
    congruence.
  - intros _. exact Hlookup.
Qed.

(** X23. The files of two tiles differ, and so do the files of the expected
    output of two tests: the name of a file gives the numbers it was built
    from. *)
Theorem tester_paths_differ :
  (forall a b : TileCoord, tileFilePath a = tileFilePath b -> a = b) /\
  (forall i j : Z,
     buildBaselineExpectedOutputPath_testId i = buildBaselineExpectedOutputPath_testId j ->
     i = j).
Proof.
  split.
  - intros [za xa ya] [zb xb yb]. unfold tileFilePath. cbn [zoom x y].
    intros H. apply append_inv_head in H.
    change ("z" +:+ ?t) with (String "z"%char t) in H. injection H as H.
    apply (append_separator_inj "x"%char) in H as [Hz H];
      [|apply number_without; reflexivity..].
    apply (append_separator_inj "y"%char) in H as [Hx H];
      [|apply number_without; reflexivity..].
    apply (append_separator_inj "."%char) in H as [Hy _];
      [|apply number_without; reflexivity..].
    apply number_inj in Hz, Hx, Hy. now subst.
  - intros i j. unfold buildBaselineExpectedOutputPath_testId.
    unfold buildBaselineExpectedOutputPath, appendChar. rewrite !append_assoc.
    intros H. do 4 apply append_inv_head in H.
    apply (append_separator_inj "."%char) in H as [H _];
      [|apply number_without; reflexivity..].
    now apply number_inj.
Qed.

End OutputTesterFacts.

(** ** The tile painter and the output tester on examples *)

(** On the sample tile the sheet draws the background, the lake and the
    road, in this order; the town, the style that is not painted and the
    style of the missing layer draw nothing. *)
Example paintSingleTile_on_sample :
  List.map drawn_what
    (drawnSince SampleTiles.painter
       (@paintSingleTile SampleTiles.geometry SampleTiles.tile SampleTiles.painter 0 0
          SampleTiles.sheet Transform.identity))
  = [FillRect (Rect.make 0 0 1 1) SampleTiles.grey;
     DrawPath (featurePath Transform.identity (polygon SampleTiles.lake));
     DrawPath (featurePath Transform.identity (line SampleTiles.road))].
Proof. vm_compute. reflexivity. Qed.

(** The lake is drawn with the clip of the entry state. *)
Lemma paintSingleTile_tools_witness :
  state_clip (drawn_state (SampleTiles.lakeDrawn Transform.identity
                             (current SampleTiles.painter)))
    = state_clip (current SampleTiles.painter).
Proof.
  apply (@paintSingleTile_tools SampleTiles.geometry SampleTiles.tile SampleTiles.painter
           0 0 SampleTiles.sheet Transform.identity
           (SampleTiles.lakeDrawn Transform.identity (current SampleTiles.painter))).
  vm_compute. right. left. reflexivity.
Defined.

(** The whole world on a device of 512 by 512 pixels: the tile fills the
    window, and its name is written last. *)
Example paintTiles_on_sample :
  List.map drawn_what
    (drawnSince SampleTiles.painter
       (@paintTiles pow_integral binary64 SampleTiles.geometry SampleTiles.painter (1 # 2) (1 # 2) 0 0
          SampleTiles.container SampleTiles.sheet))
  = [FillRect (Rect.make 0 0 512 512) SampleTiles.grey;
     DrawPath (featurePath (unitToPixels SampleTiles.layout) (polygon SampleTiles.lake));
     DrawPath (featurePath (unitToPixels SampleTiles.layout) (line SampleTiles.road));
     DrawLine (Transform.mapF (unitToPixels SampleTiles.layout) (mkQPointF (45 # 100) (45 # 100)))
              (Transform.mapF (unitToPixels SampleTiles.layout) (mkQPointF (55 # 100) (55 # 100)));
     DrawLine (Transform.mapF (unitToPixels SampleTiles.layout) (mkQPointF (55 # 100) (45 # 100)))
              (Transform.mapF (unitToPixels SampleTiles.layout) (mkQPointF (45 # 100) (55 # 100)));
     DrawRect (mkQRectF 0 0 512 512);
     DrawText 10 30 "z0x0y0"].
Proof. vm_compute. reflexivity. Qed.



(** The file of the tile of zoom level 0 is there and is loaded; the tiles
    of zoom level 1 have no file, and nothing is loaded with them. *)
Example loadTiles_on_sample :
  @loadTiles SampleTiles.files [mkTileCoord 0 0 0] = Some SampleTiles.container /\
  @loadTiles SampleTiles.files [mkTileCoord 0 0 0; mkTileCoord 1 0 0] = None /\
  @tileFilePath SampleTiles.files (mkTileCoord 3 (-4) 15) = "baseline/z3x-4y15.mvt" /\
  @buildBaselineExpectedOutputPath_testId SampleTiles.files 7
    = "baseline/expected_output/7.png".
Proof. repeat split; vm_compute; reflexivity. Qed.

(** ** More on the rectangle and the advance of a label *)

Lemma to_int_sum (a b : Z) : int_range (a + b) -> to_int (inject_Z a + inject_Z b) = a + b.
Proof.
  intros Hrange. unfold to_int, Qtrunc, inject_Z. simpl.
  rewrite Z.quot_1_r, !Z.mul_1_r. now apply wrap32_id.
Qed.

Section LabelMeasureFacts.
Context {qt : QtApi} {ev : EvaluatorApi}.

(** X24. The rectangle that processSimpleText tests and keeps for a label
    has the size of the rounded bounding rectangle of the glyph outline,
    grown by the outline on both sides, as long as these sizes are in the
    range of [int]; the rectangle that is kept is this one. *)
Theorem simpleGlobalRect_size (text : QString) (coordinate : QPoint) (outlineSize : Z)
    (textFont : QFont) (tileOriginX tileOriginY : Z) :
  let bounds := RectF.toRect (boundingRect (textOutline textFont text)) in
  let globalRect :=
    simpleGlobalRect text coordinate outlineSize textFont tileOriginX tileOriginY in
  int_range (2 * outlineSize) ->
  int_range (Rect.width bounds + 2 * outlineSize) ->
  int_range (Rect.height bounds + 2 * outlineSize) ->
  Rect.width globalRect = Rect.width bounds + 2 * outlineSize /\
  Rect.height globalRect = Rect.height bounds + 2 * outlineSize.
Proof.
  cbv zeta. intros Houtline Hwidth Hheight.
  unfold simpleGlobalRect, outlinedBoundingRect, Rect.ofPointSize, Rect.make, Rect.width,
    Rect.height, RectF.setHeight, RectF.setWidth, RectF.ofRect.
  cbn [x1 x2 y1 y2 rf_w rf_h rf_x rf_y pt_x pt_y sz_width sz_height].
  rewrite (wrap32_id (2 * outlineSize)) by exact Houtline.
  unfold Rect.width, Rect.height in Hwidth, Hheight.
  rewrite !to_int_sum by assumption. unfold Rect.width, Rect.height. lia.
Qed.

(** X25. As long as it is in the range of [int], the total advance that
    calctotalTextHorizontalAdvance computes is the sum of the advances of
    the words and of the spaces between them plus the letter spacing once
    for every character that is not a space; so it grows by the number of
    these characters for every unit of letter spacing. *)
Theorem calctotalTextHorizontalAdvance_in_range (font : QFont) (text : QString)
    (letterSpacing : Z) :
  int_range (totalAdvance font text 0) ->
  int_range (totalAdvance font text letterSpacing) ->
  calctotalTextHorizontalAdvance font text letterSpacing
    = list_sum_Z (List.map (horizontalAdvance font) (Str.split " "%char text))
      + letterSpacing * countLetters text
      + countSpaces text * horizontalAdvance font " " /\
  calctotalTextHorizontalAdvance font text letterSpacing
    = calctotalTextHorizontalAdvance font text 0 + letterSpacing * countLetters text.
Proof.
  intros Hzero Hspaced. rewrite !calctotalTextHorizontalAdvance_total.
  rewrite !wrap32_id by assumption. unfold totalAdvance. lia.
Qed.

End LabelMeasureFacts.

Lemma simpleGlobalRect_size_witness :
  Rect.width (@simpleGlobalRect Sample.qt "LONGWORD" (mkQPoint 128 128) 2
                (mkQFont "Open Sans" 16) 0 0)
    = Rect.width (RectF.toRect (@boundingRect Sample.qt
                    (@textOutline Sample.qt (mkQFont "Open Sans" 16) "LONGWORD"))) + 2 * 2.
Proof.
  apply (@simpleGlobalRect_size Sample.qt "LONGWORD" (mkQPoint 128 128) 2
           (mkQFont "Open Sans" 16) 0 0); vm_compute; repeat split; discriminate.
Defined.

Lemma calctotalTextHorizontalAdvance_in_range_witness :
  @calctotalTextHorizontalAdvance Sample.qt (mkQFont "Open Sans" 10) "MAIN ST" 3
    = @calctotalTextHorizontalAdvance Sample.qt (mkQFont "Open Sans" 10) "MAIN ST" 0
      + 3 * countLetters "MAIN ST".
Proof.
  apply (@calctotalTextHorizontalAdvance_in_range Sample.qt (mkQFont "Open Sans" 10)
           "MAIN ST" 3); vm_compute; repeat split; discriminate.
Defined.
